(** * todo-dag: the dependency-graph engine (TodoDAG)

    A shallow embedding of [src/app/utils/dag.ts] (the module the
    application imports) and of the sibling revision of the same class
    that stores edge weights, together with the properties of the
    cycle guard, the scheduler and the critical-path finder. *)

From Stdlib Require Import ZArith List Bool Lia Arith.
Import ListNotations.
Open Scope Z_scope.

(** ** JavaScript values used by the engine *)

(** A JavaScript [number] restricted to what the engine computes with:
    an integer or [NaN] ([undefined] coerced by arithmetic). *)
Inductive number : Type :=
| Num (z : Z)
| NaN.

Definition nadd (a b : number) : number :=
  match a, b with
  | Num x, Num y => Num (x + y)
  | _, _ => NaN
  end.

(** [Math.max(a, b)] *)
Definition nmax (a b : number) : number :=
  match a, b with
  | Num x, Num y => Num (Z.max x y)
  | _, _ => NaN
  end.

(** [a - 1] *)
Definition ndec (a : number) : number :=
  match a with
  | Num x => Num (x - 1)
  | NaN => NaN
  end.

(** [a === 0] *)
Definition nis0 (a : number) : bool :=
  match a with
  | Num x => x =? 0
  | NaN => false
  end.

(** [a || 0] where [a] is a number or [undefined] *)
Definition or0 (a : option number) : Z :=
  match a with
  | Some (Num x) => x
  | _ => 0
  end.

(** Weights of the critical-path search: a number or [-Infinity]. *)
Inductive weightT : Type :=
| NegInf
| Fin (z : Z).

(** [w + x] *)
Definition wadd (w : Z) (x : weightT) : weightT :=
  match x with
  | NegInf => NegInf
  | Fin z => Fin (w + z)
  end.

(** [a > b] *)
Definition wgt (a b : weightT) : bool :=
  match a, b with
  | NegInf, _ => false
  | Fin _, NegInf => true
  | Fin x, Fin y => y <? x
  end.

(** Outcome of a call: a value, a [TypeError] thrown by a property access
    on [undefined], or no return at all (the recursion or loop exhausted
    the bound given to it). *)
Inductive result (A : Type) : Type :=
| Ok (a : A)
| TypeError
| OutOfFuel.
Arguments Ok {A} a.
Arguments TypeError {A}.
Arguments OutOfFuel {A}.

Definition bind {A B : Type} (r : result A) (k : A -> result B) : result B :=
  match r with
  | Ok a => k a
  | TypeError => TypeError
  | OutOfFuel => OutOfFuel
  end.

Notation "x <- c1 ;; c2" := (bind c1 (fun x => c2))
  (at level 61, c1 at next level, right associativity).

(** ** [Map] and [Set] keyed by numbers, in insertion order *)

Definition JsMap (V : Type) : Type := list (Z * V).
Definition JsSet : Type := list Z.

Fixpoint mget {V : Type} (m : JsMap V) (k : Z) : option V :=
  match m with
  | [] => None
  | (k', v) :: r => if k' =? k then Some v else mget r k
  end.

Definition mhas {V : Type} (m : JsMap V) (k : Z) : bool :=
  match mget m k with
  | Some _ => true
  | None => false
  end.

(** [m.set(k, v)]: an existing key keeps its position. *)
Fixpoint mset {V : Type} (m : JsMap V) (k : Z) (v : V) : JsMap V :=
  match m with
  | [] => [(k, v)]
  | (k', v') :: r => if k' =? k then (k', v) :: r else (k', v') :: mset r k v
  end.

Definition mdelete {V : Type} (m : JsMap V) (k : Z) : JsMap V :=
  filter (fun e => negb (fst e =? k)) m.

Definition mkeys {V : Type} (m : JsMap V) : list Z := map fst m.
Definition mvalues {V : Type} (m : JsMap V) : list V := map snd m.

(** [m.values().forEach(f)] where [f] mutates the value in place. *)
Definition mupdateAll {V : Type} (f : V -> V) (m : JsMap V) : JsMap V :=
  map (fun e => (fst e, f (snd e))) m.

Definition shas (s : JsSet) (x : Z) : bool := existsb (Z.eqb x) s.
Definition sadd (s : JsSet) (x : Z) : JsSet := if shas s x then s else s ++ [x].
Definition sdelete (s : JsSet) (x : Z) : JsSet := filter (fun y => negb (y =? x)) s.

(** [m.get(k)!] read as a number. *)
Definition getN (m : JsMap number) (k : Z) : number :=
  match mget m k with
  | Some v => v
  | None => NaN
  end.

(** ** The traversals, over an abstract neighbour function *)

(** The [while (stack.length > 0)] loop of the ancestor walk in
    [getSafeTargets] (dag.ts).  The head of [stack] is the top. *)
Fixpoint ancestorsLoop (parents : Z -> list Z) (fuel : nat)
    (stack : list Z) (ancestors : JsSet) : option JsSet :=
  match stack with
  | [] => Some ancestors
  | node :: stack' =>
    match fuel with
    | O => None
    | S f =>
      if shas ancestors node then ancestorsLoop parents f stack' ancestors
      else ancestorsLoop parents f (List.rev (parents node) ++ stack')
             (sadd ancestors node)
    end
  end.

(** The loop of [isReachable] (weighted revision): [Some b] is the value
    returned. *)
Fixpoint reachLoop (children : Z -> list Z) (target : Z) (fuel : nat)
    (stack : list Z) (visited : JsSet) : option bool :=
  match stack with
  | [] => Some false
  | node :: stack' =>
    match fuel with
    | O => None
    | S f =>
      if node =? target then Some true
      else if shas visited node then reachLoop children target f stack' visited
      else reachLoop children target f (List.rev (children node) ++ stack')
             (sadd visited node)
    end
  end.

(** ** Kahn's loop of [calculateEarliestStartTimes] *)

Record Kahn : Type := mkKahn {
  queue : list Z;
  indegree : JsMap number;
  earliestStart : JsMap number
}.

(** Body of [for (const neighbor of ...)]. *)
Definition relax (finishTime : number) (st : Kahn) (neighbor : Z) : Kahn :=
  let newStart := nmax (getN (earliestStart st) neighbor) finishTime in
  let es := mset (earliestStart st) neighbor newStart in
  let ind := mset (indegree st) neighbor (ndec (getN (indegree st) neighbor)) in
  mkKahn (if nis0 (getN ind neighbor) then queue st ++ [neighbor] else queue st)
         ind es.

(** [while (queue.length > 0)]; [children current] is
    [this.adj.get(current) || []]. *)
Fixpoint kahnLoop (children : Z -> list Z) (dur : JsMap number)
    (fuel : nat) (st : Kahn) : option Kahn :=
  match queue st with
  | [] => Some st
  | current :: q =>
    match fuel with
    | O => None
    | S f =>
      let finishTime := nadd (getN (earliestStart st) current) (getN dur current) in
      kahnLoop children dur f
        (fold_left (relax finishTime) (children current)
           (mkKahn q (indegree st) (earliestStart st)))
    end
  end.

(** ** The memoised search of [getCriticalPath] *)

Record PathResult : Type := mkPath {
  weight : weightT;
  path : list Z
}.

Definition Memo : Type := JsMap PathResult.

(** [for (const [neighbor, edgeWeight] of neighbors.entries())] with the
    recursive call abstracted as [rec]. *)
Fixpoint maxLoop (rec : Z -> Memo -> result (PathResult * Memo))
    (entries : list (Z * Z)) (maxWeight : weightT) (bestPath : list Z)
    (memo : Memo) : result (weightT * list Z * Memo) :=
  match entries with
  | [] => Ok (maxWeight, bestPath, memo)
  | (neighbor, edgeWeight) :: rest =>
    r <- rec neighbor memo ;;
    let neighborResult := fst r in
    let totalWeight := wadd edgeWeight (weight neighborResult) in
    if wgt totalWeight maxWeight
    then maxLoop rec rest totalWeight (path neighborResult) (snd r)
    else maxLoop rec rest maxWeight bestPath (snd r)
  end.

(** [findMaxPath]; [entriesOf node] is [this.adj.get(node)] followed by
    [.entries()], [None] when the node has no adjacency entry.  [fuel]
    bounds the depth of the call stack. *)
Fixpoint findMaxPath (entriesOf : Z -> option (list (Z * Z))) (fuel : nat)
    (node : Z) (memo : Memo) : result (PathResult * Memo) :=
  match mget memo node with
  | Some r => Ok (r, memo)
  | None =>
    match entriesOf node with
    | None | Some [] =>
      let r := mkPath (Fin 0) [node] in Ok (r, mset memo node r)
    | Some entries =>
      match fuel with
      | O => OutOfFuel
      | S f =>
        l <- maxLoop (findMaxPath entriesOf f) entries NegInf [] memo ;;
        let '(maxWeight, bestPath, memo') := l in
        let r := mkPath maxWeight (node :: bestPath) in
        Ok (r, mset memo' node r)
      end
    end
  end.

(** ** Graph notions used in the statements *)

Section Relations.

Variable E : Z -> Z -> Prop.

(** [reach a b]: [b] is reachable from [a] in zero or more steps. *)
Inductive reach : Z -> Z -> Prop :=
| reach_refl : forall a, reach a a
| reach_step : forall a b c, E a b -> reach b c -> reach a c.

(** One step or more. *)
Definition reachp (a c : Z) : Prop := exists b, E a b /\ reach b c.

Definition acyclic : Prop := forall v, ~ reachp v v.

(** [l] is a chain of consecutive [E]-steps. *)
Fixpoint chain (l : list Z) : Prop :=
  match l with
  | [] => True
  | a :: l' =>
    match l' with
    | [] => True
    | b :: _ => E a b /\ chain l'
    end
  end.

End Relations.

Arguments reach_refl {E} a.
Arguments reach_step {E} a b c _ _.

(** Sum of the edge weights along a path, where [w a b] is the weight
    of the edge from [a] to [b]. *)
Fixpoint pathWeight (w : Z -> Z -> Z) (l : list Z) : Z :=
  match l with
  | [] => 0
  | a :: l' =>
    match l' with
    | [] => 0
    | b :: _ => w a b + pathWeight w l'
    end
  end.

(** [max(0, max over the processed parents of finish time)]: the value
    Kahn's loop has propagated to a todo whose processed parents are
    those satisfying [processed]. *)
Fixpoint propagated (processed : Z -> bool) (finish : Z -> Z) (parents : list Z) : Z :=
  match parents with
  | [] => 0
  | p :: rest =>
    if processed p then Z.max (finish p) (propagated processed finish rest)
    else propagated processed finish rest
  end.

(** Z-valued reading of a number-valued table at a key holding a number. *)
Definition valueAt (m : JsMap number) (k : Z) : Z := or0 (mget m k).

(** Kahn's loop with the ids it dequeues, in order (the loop itself is
    [kahnLoop]; see [kahnTrace_loop]). *)
Fixpoint kahnTrace (children : Z -> list Z) (dur : JsMap number)
    (fuel : nat) (st : Kahn) : list Z :=
  match queue st with
  | [] => []
  | current :: q =>
    match fuel with
    | O => []
    | S f =>
      let finishTime := nadd (getN (earliestStart st) current) (getN dur current) in
      current :: kahnTrace children dur f
        (fold_left (relax finishTime) (children current)
           (mkKahn q (indegree st) (earliestStart st)))
    end
  end.

(** ** [src/app/utils/dag.ts]: adjacency as [Map<number, Set<number>>] *)

Module Dag.

(** The fields of [Todo] that the engine reads or writes; [title],
    [dueDate] and [imageUrl] are display data no method of [TodoDAG]
    computes with. *)
Record Todo : Type := mkTodo {
  id : Z;
  duration : Z;
  minimumHours : Z
}.

(** [TodoSchema], as received by [initialize]. *)
Record TodoSchema : Type := mkSchema {
  schemaId : Z;
  schemaDuration : Z;
  dependencies : list Z
}.

(** [new Todo(schema)] *)
Definition newTodo (t : TodoSchema) : Todo :=
  mkTodo (schemaId t) (schemaDuration t) 0.

Record TodoDAG : Type := mkDag {
  adj : JsMap JsSet;
  rev : JsMap JsSet;
  safeTargetsCache : JsMap (list Z);
  idToTodo : JsMap Todo
}.

Definition emptyDag : TodoDAG := mkDag [] [] [] [].

Definition allTodoIds (s : TodoDAG) : list Z := mkeys (idToTodo s).

Definition rootNodes (s : TodoDAG) : list Z :=
  map fst (filter (fun e => (length (snd e) =? 0)%nat) (rev s)).

Definition numTodos (s : TodoDAG) : nat := length (idToTodo s).

Definition addNode (s : TodoDAG) (node : Z) : TodoDAG :=
  if mhas (adj s) node then s
  else mkDag (mset (adj s) node []) (mset (rev s) node [])
             (safeTargetsCache s) (idToTodo s).

Definition hasTodo (s : TodoDAG) (todoId : Z) : bool := mhas (idToTodo s) todoId.

Definition hasDependency (s : TodoDAG) (from to : Z) : result bool :=
  if negb (hasTodo s from) || negb (hasTodo s to) then Ok false
  else match mget (adj s) from with
       | Some targets => Ok (shas targets to)
       | None => TypeError
       end.

Definition getParentIds (s : TodoDAG) (todoId : Z) : list Z :=
  match mget (rev s) todoId with
  | Some parents => parents
  | None => []
  end.

Definition getChildrenOf (s : TodoDAG) (todoId : Z) : list Z :=
  match mget (adj s) todoId with
  | Some targets => targets
  | None => []
  end.

Definition getTodoWithId (s : TodoDAG) (i : Z) : option Todo := mget (idToTodo s) i.

Definition getTodosByIds (s : TodoDAG) (ids : list Z) : list Todo :=
  flat_map (fun i => match mget (idToTodo s) i with
                     | Some t => [t]
                     | None => []
                     end) ids.

(** *** calculateEarliestStartTimes *)

Record Tables : Type := mkTables {
  tIndegree : JsMap number;
  tDuration : JsMap number;
  tEarliestStart : JsMap number
}.

(** The first [forEach]: [this.rev.get(todo.id)!.size] throws when the
    todo has no reverse-adjacency entry. *)
Fixpoint initTables (r : JsMap JsSet) (todos : list Todo) (t : Tables)
    : result Tables :=
  match todos with
  | [] => Ok t
  | todo :: rest =>
    match mget r (id todo) with
    | None => TypeError
    | Some incoming =>
      initTables r rest
        (mkTables
           (mset (tIndegree t) (id todo) (Num (Z.of_nat (length incoming))))
           (mset (tDuration t) (id todo) (Num (duration todo)))
           (mset (tEarliestStart t) (id todo) (Num 0)))
    end
  end.

(** One dequeue per enqueued id is all the loop can do; the bound below
    is never reached (see [kahnLoop_total]). *)
Definition kahnFuel (s : TodoDAG) : nat :=
  (length (rev s) + length (idToTodo s))%nat.

(** The [earliestStart] map at the end of the [while] loop. *)
Definition earliestStarts (s : TodoDAG) : result (JsMap number) :=
  t <- initTables (rev s) (mvalues (idToTodo s)) (mkTables [] [] []) ;;
  match kahnLoop (getChildrenOf s) (tDuration t) (kahnFuel s)
          (mkKahn (rootNodes s) (tIndegree t) (tEarliestStart t)) with
  | Some st => Ok (earliestStart st)
  | None => OutOfFuel
  end.

Definition setMinimumHours (es : JsMap number) (todo : Todo) : Todo :=
  mkTodo (id todo) (duration todo) (or0 (mget es (id todo))).

Definition calculateEarliestStartTimes (s : TodoDAG) : result TodoDAG :=
  es <- earliestStarts s ;;
  Ok (mkDag (adj s) (rev s) (safeTargetsCache s)
            (mupdateAll (setMinimumHours es) (idToTodo s))).

(** *** Mutators *)

Definition addTodo (s : TodoDAG) (todo : Todo) : result TodoDAG :=
  let s1 := mkDag (adj s) (rev s) (safeTargetsCache s)
                  (mset (idToTodo s) (id todo) todo) in
  calculateEarliestStartTimes (addNode s1 (id todo)).

Definition addDependency (s : TodoDAG) (from to : Z) : result (bool * TodoDAG) :=
  if negb (hasTodo s from) || negb (hasTodo s to) then Ok (false, s)
  else
    match mget (adj s) from with
    | None => TypeError
    | Some targets =>
      let adj1 := mset (adj s) from (sadd targets to) in
      match mget (rev s) to with
      | None => TypeError
      | Some sources =>
        Ok (true, mkDag adj1 (mset (rev s) to (sadd sources from)) [] (idToTodo s))
      end
    end.

Definition deleteDependency (s : TodoDAG) (from to : Z) : result TodoDAG :=
  present <- hasDependency s from to ;;
  if negb present then Ok s
  else
    let adj1 := match mget (adj s) from with
                | Some targets => mset (adj s) from (sdelete targets to)
                | None => adj s
                end in
    let rev1 := match mget (rev s) to with
                | Some sources => mset (rev s) to (sdelete sources from)
                | None => rev s
                end in
    calculateEarliestStartTimes (mkDag adj1 rev1 [] (idToTodo s)).

Definition deleteNode (s : TodoDAG) (node : Z) : result TodoDAG :=
  let adj1 := mupdateAll (fun targets => sdelete targets node) (mdelete (adj s) node) in
  let rev1 := mupdateAll (fun sources => sdelete sources node) (mdelete (rev s) node) in
  calculateEarliestStartTimes (mkDag adj1 rev1 [] (mdelete (idToTodo s) node)).

(** *** initialize *)

Definition addDependencies (s : TodoDAG) (todo : TodoSchema) : result TodoDAG :=
  fold_left (fun acc dep => s' <- acc ;;
                            r <- addDependency s' dep (schemaId todo) ;;
                            Ok (snd r))
            (dependencies todo) (Ok s).

Definition initialize (todos : list TodoSchema) : result TodoDAG :=
  let s1 := fold_left (fun s todo =>
              addNode (mkDag (adj s) (rev s) (safeTargetsCache s)
                             (mset (idToTodo s) (schemaId todo) (newTodo todo)))
                      (schemaId todo)) todos emptyDag in
  s2 <- fold_left (fun acc todo => s' <- acc ;; addDependencies s' todo) todos (Ok s1) ;;
  calculateEarliestStartTimes s2.

(** *** getSafeTargets *)

Definition edgeCount (m : JsMap JsSet) : nat :=
  fold_right (fun e n => (length (snd e) + n)%nat) O m.

(** The ancestor set of [from] over reverse adjacency. *)
Definition ancestorsOf (s : TodoDAG) (from : Z) : option JsSet :=
  ancestorsLoop (getParentIds s) (S (edgeCount (rev s))) [from] [].

(** The body of [getSafeTargets] after the cache check. *)
Definition computeSafeTargets (s : TodoDAG) (from : Z) : result (list Z) :=
  match ancestorsOf s from with
  | Some ancestors => Ok (filter (fun i => negb (shas ancestors i)) (allTodoIds s))
  | None => OutOfFuel
  end.

Definition getSafeTargets (s : TodoDAG) (from : Z) : result (list Z * TodoDAG) :=
  match mget (safeTargetsCache s) from with
  | Some cached => Ok (cached, s)
  | None =>
    safe <- computeSafeTargets s from ;;
    Ok (safe, mkDag (adj s) (rev s) (mset (safeTargetsCache s) from safe) (idToTodo s))
  end.

(** *** getCriticalPath *)

(** [neighbors.entries()] on a [Set] yields the pair [value, value]. *)
Definition entriesOf (s : TodoDAG) (node : Z) : option (list (Z * Z)) :=
  match mget (adj s) node with
  | Some neighbors => Some (map (fun n => (n, n)) neighbors)
  | None => None
  end.

Definition getCriticalPath (s : TodoDAG) (root : Z) : result (list Z) :=
  if negb (mhas (idToTodo s) root) then Ok []
  else r <- findMaxPath (entriesOf s) (S (length (adj s))) root [] ;;
       Ok (path (fst r)).

(** *** Sequences of public operations *)

Inductive Op : Type :=
| AddTodo (todo : Todo)
| AddDependency (from to : Z)
| DeleteDependency (from to : Z)
| DeleteNode (node : Z)
| Initialize (todos : list TodoSchema)
| GetSafeTargets (from : Z)
| CalculateEarliestStartTimes.

Definition step (s : TodoDAG) (o : Op) : result TodoDAG :=
  match o with
  | AddTodo todo => addTodo s todo
  | AddDependency from to => r <- addDependency s from to ;; Ok (snd r)
  | DeleteDependency from to => deleteDependency s from to
  | DeleteNode node => deleteNode s node
  | Initialize todos => initialize todos
  | GetSafeTargets from => r <- getSafeTargets s from ;; Ok (snd r)
  | CalculateEarliestStartTimes => calculateEarliestStartTimes s
  end.

Definition run (ops : list Op) (s : TodoDAG) : result TodoDAG :=
  fold_left (fun acc o => s' <- acc ;; step s' o) ops (Ok s).

(** States the public interface can produce from the empty graph. *)
Definition reachable (s : TodoDAG) : Prop := exists ops, run ops emptyDag = Ok s.

(** *** Notions used in the statements *)

(** The precedence edges, read off forward adjacency. *)
Definition edge (s : TodoDAG) (a b : Z) : Prop := In b (getChildrenOf s a).

(** The representation invariant kept by the public operations. *)
Record wf (s : TodoDAG) : Prop := mkWf {
  wf_todo_keys : NoDup (mkeys (idToTodo s));
  wf_keys_adj : mkeys (adj s) = mkeys (idToTodo s);
  wf_keys_rev : mkeys (rev s) = mkeys (idToTodo s);
  wf_ids : forall k t, mget (idToTodo s) k = Some t -> id t = k;
  wf_sets_adj : forall k ns, mget (adj s) k = Some ns -> NoDup ns;
  wf_sets_rev : forall k ns, mget (rev s) k = Some ns -> NoDup ns;
  wf_mirror : forall a b, In b (getChildrenOf s a) <-> In a (getParentIds s b);
  wf_closed : forall a b, edge s a b -> In b (mkeys (idToTodo s))
}.

Definition durationsNonneg (s : TodoDAG) : Prop :=
  forall k t, mget (idToTodo s) k = Some t -> 0 <= duration t.

(** [minimumHours] of the todo stored under [k] (0 when absent). *)
Definition earliestStartOf (s : TodoDAG) (k : Z) : Z :=
  match mget (idToTodo s) k with
  | Some t => minimumHours t
  | None => 0
  end.

Definition durationOf (s : TodoDAG) (k : Z) : Z :=
  match mget (idToTodo s) k with
  | Some t => duration t
  | None => 0
  end.

(** Every stored [minimumHours] is the value the scheduler computes on
    the current edges and durations. *)
Definition scheduleConsistent (s : TodoDAG) : Prop :=
  exists es, earliestStarts s = Ok es /\
    forall k t, mget (idToTodo s) k = Some t -> minimumHours t = or0 (mget es (id t)).

End Dag.

(** ** The weighted revision: adjacency as [Map<number, Map<number, number>>]

    The same class in the revision whose forward adjacency stores, for
    every edge, the duration of the source todo, and whose cycle guard
    probes forward reachability per candidate. *)

Module Weighted.

Record Todo : Type := mkTodo {
  id : Z;
  duration : Z;
  minimumHours : number
}.

Record TodoDAG : Type := mkDag {
  adj : JsMap (JsMap Z);
  rev : JsMap JsSet;
  safeTargetsCache : JsMap (list Z);
  idToTodo : JsMap Todo
}.

Definition emptyDag : TodoDAG := mkDag [] [] [] [].

Definition allTodoIds (s : TodoDAG) : list Z := mkeys (idToTodo s).

Definition addNode (s : TodoDAG) (node : Z) : TodoDAG :=
  if mhas (adj s) node then s
  else mkDag (mset (adj s) node []) (mset (rev s) node [])
             (safeTargetsCache s) (idToTodo s).

Definition hasTodo (s : TodoDAG) (todoId : Z) : bool := mhas (idToTodo s) todoId.

Definition hasDependency (s : TodoDAG) (from to : Z) : result bool :=
  if negb (hasTodo s from) || negb (hasTodo s to) then Ok false
  else match mget (adj s) from with
       | Some targets => Ok (mhas targets to)
       | None => TypeError
       end.

Definition getTodoWithId (s : TodoDAG) (i : Z) : option Todo := mget (idToTodo s) i.

Definition getParentIds (s : TodoDAG) (todoId : Z) : list Z :=
  match mget (rev s) todoId with
  | Some parents => parents
  | None => []
  end.

Definition getChildrenOf (s : TodoDAG) (todoId : Z) : list Z :=
  match mget (adj s) todoId with
  | Some targets => mkeys targets
  | None => []
  end.

(** *** calculateEarliestStartTimes *)

Record Tables : Type := mkTables {
  tGraph : JsMap (list Z);
  tIndegree : JsMap number;
  tDuration : JsMap number;
  tEarliestStart : JsMap number
}.

(** First loop: metadata of every todo. *)
Definition initTables (s : TodoDAG) : Tables :=
  fold_left (fun t todoId =>
     let d := match getTodoWithId s todoId with
              | Some task => duration task
              | None => 0
              end in
     mkTables (mset (tGraph t) todoId [])
              (mset (tIndegree t) todoId (Num 0))
              (mset (tDuration t) todoId (Num d))
              (mset (tEarliestStart t) todoId (Num 0)))
    (allTodoIds s) (mkTables [] [] [] []).

(** [(indegree.get(todoId) || 0) + 1] *)
Definition incr (a : option number) : number := Num (or0 a + 1).

(** Second loop: [graph.get(dep)!.push(todoId)] throws when [dep] is
    not a todo. *)
Definition addIncoming (todoId : Z) (acc : result Tables) (dep : Z) : result Tables :=
  t <- acc ;;
  match mget (tGraph t) dep with
  | None => TypeError
  | Some dependents =>
    Ok (mkTables (mset (tGraph t) dep (dependents ++ [todoId]))
                 (mset (tIndegree t) todoId (incr (mget (tIndegree t) todoId)))
                 (tDuration t) (tEarliestStart t))
  end.

Definition buildGraph (s : TodoDAG) (t : Tables) : result Tables :=
  fold_left (fun acc todoId => fold_left (addIncoming todoId) (getParentIds s todoId) acc)
            (allTodoIds s) (Ok t).

Definition zeroIndegree (ind : JsMap number) : list Z :=
  map fst (filter (fun e => nis0 (snd e)) ind).

Definition graphChildren (g : JsMap (list Z)) (node : Z) : list Z :=
  match mget g node with
  | Some dependents => dependents
  | None => []
  end.

Definition earliestStarts (s : TodoDAG) : result (JsMap number) :=
  t <- buildGraph s (initTables s) ;;
  match kahnLoop (graphChildren (tGraph t)) (tDuration t)
          (2 * length (idToTodo s))%nat
          (mkKahn (zeroIndegree (tIndegree t)) (tIndegree t) (tEarliestStart t)) with
  | Some st => Ok (earliestStart st)
  | None => OutOfFuel
  end.

(** Last loop: [if (todo) todo.minimumHours = min]. *)
Definition storeMinimumHours (m : JsMap Todo) (e : Z * number) : JsMap Todo :=
  match mget m (fst e) with
  | Some todo => mset m (fst e) (mkTodo (id todo) (duration todo) (snd e))
  | None => m
  end.

Definition calculateEarliestStartTimes (s : TodoDAG) : result TodoDAG :=
  es <- earliestStarts s ;;
  Ok (mkDag (adj s) (rev s) (safeTargetsCache s)
            (fold_left storeMinimumHours es (idToTodo s))).

(** *** Mutators *)

Definition addTodo (s : TodoDAG) (todo : Todo) : result TodoDAG :=
  let s1 := mkDag (adj s) (rev s) (safeTargetsCache s)
                  (mset (idToTodo s) (id todo) todo) in
  calculateEarliestStartTimes (addNode s1 (id todo)).

Definition addDependency (s : TodoDAG) (from to : Z) : result (bool * TodoDAG) :=
  if negb (hasTodo s from) || negb (hasTodo s to) then Ok (false, s)
  else
    match getTodoWithId s from with
    | None => TypeError
    | Some source =>
      match mget (adj s) from with
      | None => TypeError
      | Some targets =>
        let adj1 := mset (adj s) from (mset targets to (duration source)) in
        match mget (rev s) to with
        | None => TypeError
        | Some sources =>
          Ok (true, mkDag adj1 (mset (rev s) to (sadd sources from)) [] (idToTodo s))
        end
      end
    end.

Definition deleteDependency (s : TodoDAG) (from to : Z) : result TodoDAG :=
  present <- hasDependency s from to ;;
  if negb present then Ok s
  else
    let adj1 := match mget (adj s) from with
                | Some targets => mset (adj s) from (mdelete targets to)
                | None => adj s
                end in
    let rev1 := match mget (rev s) to with
                | Some sources => mset (rev s) to (sdelete sources from)
                | None => rev s
                end in
    calculateEarliestStartTimes (mkDag adj1 rev1 [] (idToTodo s)).

Definition deleteNode (s : TodoDAG) (node : Z) : result TodoDAG :=
  let adj1 := mupdateAll (fun edges => mdelete edges node) (mdelete (adj s) node) in
  let rev1 := mupdateAll (fun parents => sdelete parents node) (mdelete (rev s) node) in
  calculateEarliestStartTimes (mkDag adj1 rev1 [] (mdelete (idToTodo s) node)).

(** *** getSafeTargets *)

Definition edgeCount (m : JsMap (JsMap Z)) : nat :=
  fold_right (fun e n => (length (snd e) + n)%nat) O m.

Definition isReachable (s : TodoDAG) (start target : Z) : option bool :=
  reachLoop (getChildrenOf s) target (S (edgeCount (adj s))) [start] [].

(** The [for (const candidate of this.adj.keys())] loop. *)
Fixpoint safeLoop (s : TodoDAG) (from : Z) (candidates : list Z) (safe : list Z)
    : result (list Z) :=
  match candidates with
  | [] => Ok safe
  | candidate :: rest =>
    if candidate =? from then safeLoop s from rest safe
    else match isReachable s candidate from with
         | None => OutOfFuel
         | Some true => safeLoop s from rest safe
         | Some false => safeLoop s from rest (safe ++ [candidate])
         end
  end.

(** The body of [getSafeTargets] after the cache check. *)
Definition computeSafeTargets (s : TodoDAG) (from : Z) : result (list Z) :=
  safeLoop s from (mkeys (adj s)) [].

Definition getSafeTargets (s : TodoDAG) (from : Z) : result (list Z * TodoDAG) :=
  match mget (safeTargetsCache s) from with
  | Some cached => Ok (cached, s)
  | None =>
    safe <- computeSafeTargets s from ;;
    Ok (safe, mkDag (adj s) (rev s) (mset (safeTargetsCache s) from safe) (idToTodo s))
  end.

(** *** getCriticalPath *)

Definition entriesOf (s : TodoDAG) (node : Z) : option (list (Z * Z)) := mget (adj s) node.

Definition getCriticalPath (s : TodoDAG) (root : Z) : result (list Z) :=
  if negb (mhas (idToTodo s) root) then Ok []
  else r <- findMaxPath (entriesOf s) (S (length (adj s))) root [] ;;
       Ok (path (fst r)).

(** *** Sequences of public operations *)

Inductive Op : Type :=
| AddTodo (todo : Todo)
| AddDependency (from to : Z)
| DeleteDependency (from to : Z)
| DeleteNode (node : Z)
| GetSafeTargets (from : Z)
| CalculateEarliestStartTimes.

Definition step (s : TodoDAG) (o : Op) : result TodoDAG :=
  match o with
  | AddTodo todo => addTodo s todo
  | AddDependency from to => r <- addDependency s from to ;; Ok (snd r)
  | DeleteDependency from to => deleteDependency s from to
  | DeleteNode node => deleteNode s node
  | GetSafeTargets from => r <- getSafeTargets s from ;; Ok (snd r)
  | CalculateEarliestStartTimes => calculateEarliestStartTimes s
  end.

Definition run (ops : list Op) (s : TodoDAG) : result TodoDAG :=
  fold_left (fun acc o => s' <- acc ;; step s' o) ops (Ok s).

Definition reachable (s : TodoDAG) : Prop := exists ops, run ops emptyDag = Ok s.

(** *** Notions used in the statements *)

Definition edge (s : TodoDAG) (a b : Z) : Prop := In b (getChildrenOf s a).

(** Weight stored on the edge from [a] to [b] (0 when there is none). *)
Definition edgeWeight (s : TodoDAG) (a b : Z) : Z :=
  match mget (adj s) a with
  | Some targets => match mget targets b with
                    | Some w => w
                    | None => 0
                    end
  | None => 0
  end.

Definition durationOf (s : TodoDAG) (k : Z) : Z :=
  match mget (idToTodo s) k with
  | Some t => duration t
  | None => 0
  end.

Record wf (s : TodoDAG) : Prop := mkWf {
  wf_todo_keys : NoDup (mkeys (idToTodo s));
  wf_keys_adj : mkeys (adj s) = mkeys (idToTodo s);
  wf_keys_rev : mkeys (rev s) = mkeys (idToTodo s);
  wf_sets_adj : forall k ns, mget (adj s) k = Some ns -> NoDup (mkeys ns);
  wf_sets_rev : forall k ns, mget (rev s) k = Some ns -> NoDup ns;
  wf_mirror : forall a b, In b (getChildrenOf s a) <-> In a (getParentIds s b);
  wf_closed : forall a b, edge s a b -> In b (mkeys (idToTodo s))
}.

End Weighted.

(** * Properties *)

(** Closes a goal between closed terms by evaluation. *)
Ltac evaluate := vm_compute; reflexivity.

(** ** Maps and sets *)

Lemma shas_In (s : JsSet) (x : Z) : shas s x = true <-> In x s.
Proof.
  unfold shas. rewrite existsb_exists. split.
  - intros [y [Hy He]]. apply Z.eqb_eq in He. now subst.
  - intros H. exists x. split; [assumption | apply Z.eqb_refl].
Qed.

Lemma shas_false (s : JsSet) (x : Z) : shas s x = false <-> ~ In x s.
Proof.
  rewrite <- shas_In. destruct (shas s x); split; congruence.
Qed.

Lemma sadd_In (s : JsSet) (x y : Z) : In y (sadd s x) <-> y = x \/ In y s.
Proof.
  unfold sadd. destruct (shas s x) eqn:H.
  - apply shas_In in H. split; [now right | intros [-> | ?]; assumption].
  - rewrite in_app_iff. simpl. intuition.
Qed.

Lemma sadd_NoDup (s : JsSet) (x : Z) : NoDup s -> NoDup (sadd s x).
Proof.
  intros Hs. unfold sadd. destruct (shas s x) eqn:H; [assumption|].
  apply shas_false in H.
  apply NoDup_app; [assumption | repeat constructor; now simpl |].
  intros a Ha [<- | []]. contradiction.
Qed.

Lemma sdelete_In (s : JsSet) (x y : Z) : In y (sdelete s x) <-> In y s /\ y <> x.
Proof.
  unfold sdelete. rewrite filter_In, negb_true_iff, Z.eqb_neq. reflexivity.
Qed.

Lemma sdelete_NoDup (s : JsSet) (x : Z) : NoDup s -> NoDup (sdelete s x).
Proof. apply NoDup_filter. Qed.

Section MapFacts.

Context {V : Type}.
Implicit Types (m : JsMap V) (k : Z) (v : V).

Lemma mget_Some_In m k v : mget m k = Some v -> In (k, v) m.
Proof.
  induction m as [|[k' v'] m IH]; simpl; [discriminate|].
  destruct (k' =? k) eqn:E.
  - apply Z.eqb_eq in E. intros [= ->]. left. now subst.
  - intros H. right. auto.
Qed.

Lemma mget_Some_keys m k v : mget m k = Some v -> In k (mkeys m).
Proof.
  intros H. apply mget_Some_In in H. unfold mkeys.
  change k with (fst (k, v)). now apply in_map.
Qed.

Lemma mget_None m k : mget m k = None <-> ~ In k (mkeys m).
Proof.
  induction m as [|[k' v'] m IH]; simpl; [tauto|].
  destruct (k' =? k) eqn:E.
  - apply Z.eqb_eq in E. split; [discriminate | intros H; exfalso; apply H; now left].
  - apply Z.eqb_neq in E. rewrite IH. tauto.
Qed.

Lemma mget_keys_Some m k : In k (mkeys m) -> exists v, mget m k = Some v.
Proof.
  intros H. destruct (mget m k) eqn:E; [eauto|].
  apply mget_None in E. contradiction.
Qed.

Lemma mhas_In m k : mhas m k = true <-> In k (mkeys m).
Proof.
  unfold mhas. destruct (mget m k) eqn:E.
  - split; [intros _; eapply mget_Some_keys; eauto | reflexivity].
  - apply mget_None in E. split; [discriminate | contradiction].
Qed.

Lemma mhas_false m k : mhas m k = false <-> ~ In k (mkeys m).
Proof.
  rewrite <- mhas_In. destruct (mhas m k); split; congruence.
Qed.

Lemma In_mget m k v : NoDup (mkeys m) -> In (k, v) m -> mget m k = Some v.
Proof.
  induction m as [|[k' v'] m IH]; simpl; [tauto|].
  intros Hnd [H | H].
  - injection H as -> ->. now rewrite Z.eqb_refl.
  - inversion Hnd; subst. destruct (k' =? k) eqn:E.
    + apply Z.eqb_eq in E. subst. exfalso. apply H2.
      change k with (fst (k, v)). now apply in_map.
    + auto.
Qed.

Lemma mget_mset_eq m k v : mget (mset m k v) k = Some v.
Proof.
  induction m as [|[k' v'] m IH]; simpl.
  - now rewrite Z.eqb_refl.
  - destruct (k' =? k) eqn:E; simpl; rewrite E; auto.
Qed.

Lemma mget_mset_neq m k k' v : k <> k' -> mget (mset m k v) k' = mget m k'.
Proof.
  intros Hne. induction m as [|[k0 v0] m IH]; simpl.
  - destruct (k =? k') eqn:E; [apply Z.eqb_eq in E; contradiction | reflexivity].
  - destruct (k0 =? k) eqn:E; simpl.
    + apply Z.eqb_eq in E. subst.
      destruct (k =? k') eqn:E'; [apply Z.eqb_eq in E'; contradiction | reflexivity].
    + now rewrite IH.
Qed.

Lemma mget_mset m k k' v :
  mget (mset m k v) k' = if k =? k' then Some v else mget m k'.
Proof.
  destruct (k =? k') eqn:E.
  - apply Z.eqb_eq in E. subst. apply mget_mset_eq.
  - apply Z.eqb_neq in E. now apply mget_mset_neq.
Qed.

Lemma mkeys_mset_has m k v : In k (mkeys m) -> mkeys (mset m k v) = mkeys m.
Proof.
  induction m as [|[k' v'] m IH]; simpl; [tauto|].
  intros H. destruct (k' =? k) eqn:E; simpl; [reflexivity|].
  apply Z.eqb_neq in E. destruct H as [H | H]; [contradiction|].
  now rewrite IH.
Qed.

Lemma mkeys_mset_new m k v : ~ In k (mkeys m) -> mkeys (mset m k v) = mkeys m ++ [k].
Proof.
  induction m as [|[k' v'] m IH]; simpl; [reflexivity|].
  intros H. destruct (k' =? k) eqn:E; simpl.
  - apply Z.eqb_eq in E. tauto.
  - rewrite IH; tauto.
Qed.

Lemma mkeys_mset_In m k v x : In x (mkeys (mset m k v)) <-> x = k \/ In x (mkeys m).
Proof.
  destruct (in_dec Z.eq_dec k (mkeys m)) as [H | H].
  - rewrite mkeys_mset_has by assumption. split; [tauto | intros [-> | ?]; assumption].
  - rewrite mkeys_mset_new by assumption. rewrite in_app_iff. simpl. intuition.
Qed.

Lemma mkeys_mset_NoDup m k v : NoDup (mkeys m) -> NoDup (mkeys (mset m k v)).
Proof.
  intros Hnd. destruct (in_dec Z.eq_dec k (mkeys m)) as [H | H].
  - now rewrite mkeys_mset_has.
  - rewrite mkeys_mset_new by assumption.
    apply NoDup_app; [assumption | repeat constructor; now simpl |].
    intros a Ha [<- | []]. contradiction.
Qed.

Lemma length_mset_le m k v : (length (mset m k v) <= S (length m))%nat.
Proof.
  induction m as [|[k' v'] m IH]; simpl; [lia|].
  destruct (k' =? k); simpl; lia.
Qed.

Lemma mkeys_mdelete m k :
  mkeys (mdelete m k) = filter (fun x => negb (x =? k)) (mkeys m).
Proof.
  unfold mdelete, mkeys. induction m as [|[k' v'] m IH]; simpl; [reflexivity|].
  destruct (k' =? k); simpl; now rewrite IH.
Qed.

Lemma mget_mdelete m k k' :
  mget (mdelete m k) k' = if k =? k' then None else mget m k'.
Proof.
  unfold mdelete. induction m as [|[k0 v0] m IH]; simpl.
  - now destruct (k =? k').
  - destruct (k0 =? k) eqn:E; simpl.
    + apply Z.eqb_eq in E. subst. rewrite IH. now destruct (k =? k').
    + destruct (k0 =? k') eqn:E'; [|assumption].
      apply Z.eqb_eq in E'. subst. rewrite Z.eqb_sym, E. reflexivity.
Qed.

Lemma mkeys_mupdateAll (f : V -> V) m : mkeys (mupdateAll f m) = mkeys m.
Proof.
  unfold mupdateAll, mkeys. rewrite map_map. reflexivity.
Qed.

Lemma mget_mupdateAll (f : V -> V) m k :
  mget (mupdateAll f m) k = option_map f (mget m k).
Proof.
  unfold mupdateAll. induction m as [|[k' v'] m IH]; simpl; [reflexivity|].
  destruct (k' =? k); [reflexivity | assumption].
Qed.

End MapFacts.

(** ** Reachability in a finite acyclic relation *)

Section ReachFacts.

Variable E : Z -> Z -> Prop.

Lemma reach_trans a b c : reach E a b -> reach E b c -> reach E a c.
Proof.
  induction 1 as [|a b c' Hab Hbc IH]; [auto|].
  intros H. eapply reach_step; eauto.
Qed.

Lemma reach_snoc a b c : reach E a b -> E b c -> reach E a c.
Proof.
  intros H Hbc. eapply reach_trans; [eassumption|].
  eapply reach_step; [eassumption | apply reach_refl].
Qed.

Lemma reachp_snoc a b c : reachp E a b -> E b c -> reachp E a c.
Proof.
  intros [x [Hax Hxb]] Hbc. exists x. split; [assumption|].
  eapply reach_snoc; eauto.
Qed.

Lemma reachp_reach a b : reachp E a b -> reach E a b.
Proof. intros [x [Hax Hxb]]. eapply reach_step; eauto. Qed.

Lemma reach_inv a b : reach E a b -> a = b \/ reachp E a b.
Proof.
  intros H. inversion H; subst; [now left | right]. eexists; eauto.
Qed.

Lemma reach_reachp a b c : reach E a b -> reachp E b c -> reachp E a c.
Proof.
  intros H [x [Hbx Hxc]]. destruct (reach_inv _ _ H) as [-> | [y [Hay Hyb]]].
  - exists x; auto.
  - exists y. split; [assumption|].
    eapply reach_trans; [eassumption|]. eapply reach_step; eauto.
Qed.

Lemma reachp_reach_r a b c : reachp E a b -> reach E b c -> reachp E a c.
Proof.
  intros [x [Hax Hxb]] Hbc. exists x. split; [assumption|].
  eapply reach_trans; eauto.
Qed.

Lemma reachp_last a c : reachp E a c -> exists b, reach E a b /\ E b c.
Proof.
  intros [x [Hax Hxc]]. revert a Hax.
  induction Hxc as [x | x y z Hxy Hyz IH]; intros a Hax.
  - exists a. split; [apply reach_refl | assumption].
  - destruct (IH x Hxy) as [b [Hb Hbz]]. exists b. split; [|assumption].
    eapply reach_step; eauto.
Qed.

End ReachFacts.

Lemma reach_flip (E : Z -> Z -> Prop) a b :
  reach (fun x y => E y x) a b -> reach E b a.
Proof.
  induction 1 as [|a b c Hab Hbc IH]; [apply reach_refl|].
  eapply reach_snoc; eauto.
Qed.

Lemma reach_ext (E E' : Z -> Z -> Prop) :
  (forall a b, E a b -> E' a b) -> forall a b, reach E a b -> reach E' a b.
Proof.
  intros H a b Hr. induction Hr as [|a b c Hab Hbc IH]; [apply reach_refl|].
  eapply reach_step; eauto.
Qed.

Lemma acyclic_flip (E : Z -> Z -> Prop) : acyclic E -> acyclic (fun x y => E y x).
Proof.
  intros Hac v [b [Hvb Hbv]]. apply (Hac v).
  apply reach_flip in Hbv.
  destruct (reach_inv _ _ _ Hbv) as [Heq | Hp].
  - subst. eexists. split; [eassumption | apply reach_refl].
  - eapply reachp_snoc; eauto.
Qed.

Section FiniteAcyclic.

Variable E : Z -> Z -> Prop.
Variable K : list Z.
Hypothesis closed : forall a b, E a b -> In b K.
Hypothesis acyc : acyclic E.

(** Descending along [E] from a node of [K] consumes at most [length K]
    units of fuel: [anc] collects the nodes already passed. *)
Lemma bounded_descent (P : nat -> Z -> Prop) :
  (forall f v, In v K -> (forall c, E v c -> P f c) -> P (S f) v) ->
  forall f v anc,
    NoDup anc -> incl anc K -> (forall a, In a anc -> reachp E a v) ->
    In v K -> (length K < f + length anc)%nat -> P f v.
Proof.
  intros Hstep f. induction f as [|f IH]; intros v anc Hnd Hincl Hanc Hv Hlen.
  - assert (Hnv : ~ In v anc) by (intros Hin; exact (acyc v (Hanc v Hin))).
    assert (Hle : (length (v :: anc) <= length K)%nat).
    { apply NoDup_incl_length; [now constructor|].
      intros x [<- | Hx]; auto. }
    simpl in Hle, Hlen. lia.
  - assert (Hnv : ~ In v anc) by (intros Hin; exact (acyc v (Hanc v Hin))).
    apply Hstep; [assumption|]. intros c Hc.
    apply (IH c (v :: anc)).
    + now constructor.
    + intros x [<- | Hx]; auto.
    + intros a [<- | Ha].
      * exists c. split; [assumption | apply reach_refl].
      * eapply reachp_snoc; eauto.
    + eapply closed; eauto.
    + simpl. lia.
Qed.

Lemma acyclic_induction (Q : Z -> Prop) :
  (forall v, In v K -> (forall c, E v c -> Q c) -> Q v) ->
  forall v, In v K -> Q v.
Proof.
  intros Hstep v Hv.
  apply (bounded_descent (fun _ => Q)) with (f := S (length K)) (anc := []).
  - intros _ x Hx Hc. now apply Hstep.
  - constructor.
  - intros x [].
  - intros a [].
  - assumption.
  - simpl. lia.
Qed.

End FiniteAcyclic.

(** ** The two depth-first traversals *)

(** Out-degrees still to be pushed: the entries of [L] whose key is not
    yet in [visited]. *)
Fixpoint remaining (L : JsMap nat) (visited : JsSet) : nat :=
  match L with
  | [] => O
  | (k, n) :: rest =>
    if shas visited k then remaining rest visited
    else (n + remaining rest visited)%nat
  end.

Definition degreeIn (L : JsMap nat) (k : Z) : nat :=
  match mget L k with
  | Some n => n
  | None => O
  end.

Lemma shas_sadd (s : JsSet) (x y : Z) : shas (sadd s x) y = (x =? y) || shas s y.
Proof.
  destruct (shas (sadd s x) y) eqn:H1.
  - apply shas_In, sadd_In in H1. symmetry. apply orb_true_iff.
    destruct H1 as [-> | H1]; [left; apply Z.eqb_refl | right; now apply shas_In].
  - apply shas_false in H1. rewrite sadd_In in H1. symmetry. apply orb_false_iff.
    split; [apply Z.eqb_neq; intros ->; tauto | apply shas_false; tauto].
Qed.

Lemma remaining_sadd_le L visited k :
  (remaining L (sadd visited k) <= remaining L visited)%nat.
Proof.
  induction L as [|[k' n] L IH]; simpl; [lia|].
  rewrite shas_sadd. destruct (k =? k'); simpl; [destruct (shas visited k')|]; try lia.
  destruct (shas visited k'); lia.
Qed.

Lemma remaining_sadd L visited k :
  shas visited k = false ->
  (remaining L (sadd visited k) + degreeIn L k <= remaining L visited)%nat.
Proof.
  intros Hk. unfold degreeIn. induction L as [|[k' n] L IH]; simpl; [lia|].
  rewrite shas_sadd. destruct (k' =? k) eqn:E.
  - apply Z.eqb_eq in E. subst. rewrite Z.eqb_refl, Hk. simpl.
    pose proof (remaining_sadd_le L visited k). lia.
  - rewrite Z.eqb_sym, E. simpl. destruct (shas visited k'); lia.
Qed.

Section Traversals.

Variable nbrs : Z -> list Z.
Variable L : JsMap nat.
Hypothesis degree_bound : forall k, (length (nbrs k) <= degreeIn L k)%nat.

Let E (a b : Z) : Prop := In b (nbrs a).

Lemma closed_reach (r : list Z) :
  (forall x y, In x r -> E x y -> In y r) ->
  forall a x, reach E a x -> In a r -> In x r.
Proof.
  intros Hcl a x Hr. induction Hr as [a | a b c Hab Hbc IH]; [auto|].
  intros Ha. apply IH. eapply Hcl; eauto.
Qed.

Lemma ancestorsLoop_total fuel : forall stack visited,
  (length stack + remaining L visited <= fuel)%nat ->
  exists r, ancestorsLoop nbrs fuel stack visited = Some r.
Proof.
  induction fuel as [|f IH]; intros stack visited Hle.
  - destruct stack; simpl in *; [eauto | lia].
  - destruct stack as [|node stack']; simpl; [eauto|].
    destruct (shas visited node) eqn:Hv.
    + apply IH. simpl in Hle. lia.
    + apply IH. rewrite length_app, length_rev.
      pose proof (remaining_sadd L visited node Hv).
      pose proof (degree_bound node). simpl in Hle. lia.
Qed.

Lemma ancestorsLoop_inv fuel : forall stack visited r,
  ancestorsLoop nbrs fuel stack visited = Some r ->
  (forall x, In x visited \/ In x stack -> In x r) /\
  ((forall x y, In x visited -> E x y -> In y visited \/ In y stack) ->
   forall x y, In x r -> E x y -> In y r) /\
  (forall P : Z -> Prop, (forall x y, P x -> E x y -> P y) ->
     (forall x, In x visited \/ In x stack -> P x) -> forall x, In x r -> P x).
Proof.
  induction fuel as [|f IH]; intros stack visited r.
  - destruct stack; simpl; [|discriminate]. intros [= <-].
    repeat split.
    + intros x [H | []]; assumption.
    + intros Hc x y Hx Hxy. destruct (Hc x y Hx Hxy) as [H | []]; assumption.
    + intros P _ HP x Hx. apply HP. now left.
  - destruct stack as [|node stack']; simpl.
    + intros [= <-]. repeat split.
      * intros x [H | []]; assumption.
      * intros Hc x y Hx Hxy. destruct (Hc x y Hx Hxy) as [H | []]; assumption.
      * intros P _ HP x Hx. apply HP. now left.
    + destruct (shas visited node) eqn:Hv; intros Hloop;
        destruct (IH _ _ _ Hloop) as [H1 [H2 H3]]; repeat split.
      * apply shas_In in Hv. intros x [Hx | [<- | Hx]]; apply H1; auto.
      * apply shas_In in Hv. intros Hc. apply H2. intros x y Hx Hxy.
        destruct (Hc x y Hx Hxy) as [Hy | [<- | Hy]]; auto.
      * intros P Hcl HP. apply H3; [assumption|].
        intros x [Hx | Hx]; apply HP; [now left | right; now right].
      * intros x Hx. apply H1. rewrite sadd_In, in_app_iff.
        destruct Hx as [Hx | [<- | Hx]]; auto.
      * intros Hc. apply H2. intros x y Hx Hxy.
        rewrite sadd_In, in_app_iff, <- in_rev.
        apply sadd_In in Hx. destruct Hx as [-> | Hx].
        -- right. now left.
        -- destruct (Hc x y Hx Hxy) as [Hy | [<- | Hy]]; auto.
      * intros P Hcl HP. apply H3; [assumption|].
        intros x. rewrite sadd_In, in_app_iff, <- in_rev.
        intros [[-> | Hx] | [Hx | Hx]].
        -- apply HP. right. now left.
        -- apply HP. now left.
        -- apply (Hcl node); [apply HP; right; now left | exact Hx].
        -- apply HP. right. now right.
Qed.

(** The ancestor walk computes exactly the nodes reachable from its
    start. *)
Lemma ancestorsLoop_reach fuel from r :
  ancestorsLoop nbrs fuel [from] [] = Some r ->
  forall x, In x r <-> reach E from x.
Proof.
  intros Hloop. destruct (ancestorsLoop_inv _ _ _ _ Hloop) as [H1 [H2 H3]].
  intros x. split.
  - apply (H3 (reach E from)).
    + intros a b Ha Hab. eapply reach_snoc; eauto.
    + intros a [[] | [<- | []]]. apply reach_refl.
  - intros Hr. apply (closed_reach r (H2 ltac:(intros ? ? [])) from x Hr).
    apply H1. right. now left.
Qed.

Lemma reachLoop_total target fuel : forall stack visited,
  (length stack + remaining L visited <= fuel)%nat ->
  exists b, reachLoop nbrs target fuel stack visited = Some b.
Proof.
  induction fuel as [|f IH]; intros stack visited Hle.
  - destruct stack; simpl in *; [eauto | lia].
  - destruct stack as [|node stack']; simpl; [eauto|].
    destruct (node =? target); [eauto|].
    destruct (shas visited node) eqn:Hv.
    + apply IH. simpl in Hle. lia.
    + apply IH. rewrite length_app, length_rev.
      pose proof (remaining_sadd L visited node Hv).
      pose proof (degree_bound node). simpl in Hle. lia.
Qed.

Lemma reachLoop_true target fuel : forall stack visited,
  reachLoop nbrs target fuel stack visited = Some true ->
  forall P : Z -> Prop, (forall x y, P x -> E x y -> P y) ->
    (forall x, In x stack -> P x) -> P target.
Proof.
  induction fuel as [|f IH]; intros stack visited.
  - destruct stack; simpl; discriminate.
  - destruct stack as [|node stack']; simpl; [discriminate|].
    destruct (node =? target) eqn:Ht.
    + apply Z.eqb_eq in Ht. subst. intros _ P _ HP. apply HP. now left.
    + destruct (shas visited node); intros Hloop P Hcl HP;
        apply (IH _ _ Hloop P Hcl).
      * intros x Hx. apply HP. now right.
      * intros x. rewrite in_app_iff, <- in_rev. intros [Hx | Hx].
        -- apply (Hcl node); [apply HP; now left | exact Hx].
        -- apply HP. now right.
Qed.

Lemma reachLoop_false target fuel : forall stack visited,
  reachLoop nbrs target fuel stack visited = Some false ->
  ~ In target visited ->
  (forall x y, In x visited -> E x y -> In y visited \/ In y stack) ->
  exists r, (forall x, In x visited \/ In x stack -> In x r) /\
            (forall x y, In x r -> E x y -> In y r) /\ ~ In target r.
Proof.
  induction fuel as [|f IH]; intros stack visited.
  - destruct stack; simpl; [|discriminate]. intros _ Ht Hc. exists visited.
    repeat split; [intros x [H | []]; assumption | | assumption].
    intros x y Hx Hxy. destruct (Hc x y Hx Hxy) as [H | []]; assumption.
  - destruct stack as [|node stack']; simpl.
    + intros _ Ht Hc. exists visited.
      repeat split; [intros x [H | []]; assumption | | assumption].
      intros x y Hx Hxy. destruct (Hc x y Hx Hxy) as [H | []]; assumption.
    + destruct (node =? target) eqn:Hnt; [discriminate|].
      apply Z.eqb_neq in Hnt.
      destruct (shas visited node) eqn:Hv; intros Hloop Ht Hc.
      * apply shas_In in Hv.
        destruct (IH _ _ Hloop Ht) as [r [R1 [R2 R3]]].
        { intros x y Hx Hxy. destruct (Hc x y Hx Hxy) as [Hy | [<- | Hy]]; auto. }
        exists r. repeat split; [|assumption|assumption].
        intros x [Hx | [<- | Hx]]; apply R1; auto.
      * destruct (IH _ _ Hloop) as [r [R1 [R2 R3]]].
        { rewrite sadd_In. intros [-> | H]; auto. }
        { intros x y Hx Hxy. rewrite sadd_In, in_app_iff, <- in_rev.
          apply sadd_In in Hx. destruct Hx as [-> | Hx].
          - right. now left.
          - destruct (Hc x y Hx Hxy) as [Hy | [<- | Hy]]; auto. }
        exists r. repeat split; [|assumption|assumption].
        intros x Hx. apply R1. rewrite sadd_In, in_app_iff.
        destruct Hx as [Hx | [<- | Hx]]; auto.
Qed.

(** The probe answers reachability. *)
Lemma reachLoop_reach target fuel start b :
  reachLoop nbrs target fuel [start] [] = Some b ->
  (b = true <-> reach E start target).
Proof.
  intros Hloop. destruct b.
  - split; [intros _ | reflexivity].
    apply (reachLoop_true _ _ _ _ Hloop (reach E start)).
    + intros x y Hx Hxy. eapply reach_snoc; eauto.
    + intros x [<- | []]. apply reach_refl.
  - split; [discriminate|]. intros Hr. exfalso.
    destruct (reachLoop_false _ _ _ _ Hloop) as [r [R1 [R2 R3]]].
    + intros [].
    + intros x y [].
    + apply R3. apply (closed_reach r R2 start target Hr).
      apply R1. right. now left.
Qed.

End Traversals.

(** ** Adjacency maps *)

(** [m.get(k) || []] *)
Definition nb (m : JsMap JsSet) (k : Z) : list Z :=
  match mget m k with
  | Some l => l
  | None => []
  end.

Lemma nb_mset m k k' v : nb (mset m k v) k' = if k =? k' then v else nb m k'.
Proof. unfold nb. rewrite mget_mset. now destruct (k =? k'). Qed.

Lemma nb_mdelete m k k' : nb (mdelete m k) k' = if k =? k' then [] else nb m k'.
Proof. unfold nb. rewrite mget_mdelete. now destruct (k =? k'). Qed.

Lemma nb_sdeleteAll m x k y :
  In y (nb (mupdateAll (fun l => sdelete l x) m) k) <-> In y (nb m k) /\ y <> x.
Proof.
  unfold nb. rewrite mget_mupdateAll. destruct (mget m k); simpl.
  - apply sdelete_In.
  - tauto.
Qed.

Lemma nb_In_keys m k y : In y (nb m k) -> In k (mkeys m).
Proof.
  unfold nb. destruct (mget m k) eqn:E; [|intros []].
  intros _. eapply mget_Some_keys; eauto.
Qed.

Lemma filter_neq_notin (l : list Z) (k : Z) :
  ~ In k l -> filter (fun x => negb (x =? k)) l = l.
Proof.
  induction l as [|a l IH]; simpl; [reflexivity|].
  intros H. destruct (a =? k) eqn:E.
  - apply Z.eqb_eq in E. tauto.
  - simpl. rewrite IH; tauto.
Qed.

Module DagFacts.
Import Dag.

Lemma getChildrenOf_nb s k : getChildrenOf s k = nb (adj s) k.
Proof. reflexivity. Qed.

Lemma getParentIds_nb s k : getParentIds s k = nb (rev s) k.
Proof. reflexivity. Qed.

(** *** The scheduler touches [minimumHours] only *)

Lemma calculate_inv s s' :
  calculateEarliestStartTimes s = Ok s' ->
  exists es, earliestStarts s = Ok es /\
    s' = mkDag (adj s) (rev s) (safeTargetsCache s)
               (mupdateAll (setMinimumHours es) (idToTodo s)).
Proof.
  unfold calculateEarliestStartTimes.
  destruct (earliestStarts s) as [es| |]; simpl; [|discriminate|discriminate].
  intros [= <-]. eauto.
Qed.

Lemma wf_setMinimumHours s es :
  wf s ->
  wf (mkDag (adj s) (rev s) (safeTargetsCache s)
            (mupdateAll (setMinimumHours es) (idToTodo s))).
Proof.
  intros [H1 H2 H3 H4 H5 H6 H7 H8].
  constructor; simpl; rewrite ?mkeys_mupdateAll; try assumption.
  - intros k t. rewrite mget_mupdateAll.
    destruct (mget (idToTodo s) k) as [t0|] eqn:E; simpl; [|discriminate].
    intros [= <-]. simpl. eauto.
Qed.

Lemma wf_calculate s s' :
  wf s -> calculateEarliestStartTimes s = Ok s' -> wf s'.
Proof.
  intros Hwf Hc. destruct (calculate_inv _ _ Hc) as [es [_ ->]].
  now apply wf_setMinimumHours.
Qed.

Lemma wf_cache s c :
  wf s -> wf (mkDag (adj s) (rev s) c (idToTodo s)).
Proof. intros [H1 H2 H3 H4 H5 H6 H7 H8]. constructor; assumption. Qed.

(** *** addTodo *)

Lemma wf_storeTodo s todo :
  wf s ->
  wf (addNode (mkDag (adj s) (rev s) (safeTargetsCache s)
                     (mset (idToTodo s) (id todo) todo)) (id todo)).
Proof.
  intros [H1 H2 H3 H4 H5 H6 H7 H8]. unfold addNode. simpl.
  destruct (mhas (adj s) (id todo)) eqn:Hhas.
  - apply mhas_In in Hhas. assert (Hin : In (id todo) (mkeys (idToTodo s))) by congruence.
    constructor; simpl; rewrite ?mkeys_mset_has by assumption; try assumption.
    + intros k t. rewrite mget_mset. destruct (id todo =? k) eqn:E; [|apply H4].
      apply Z.eqb_eq in E. now intros [= <-].
  - apply mhas_false in Hhas.
    assert (Hn1 : ~ In (id todo) (mkeys (idToTodo s))) by congruence.
    assert (Hn2 : ~ In (id todo) (mkeys (rev s))) by congruence.
    constructor; simpl; rewrite ?mkeys_mset_new by assumption.
    + rewrite <- mkeys_mset_new with (v := todo) by assumption.
      now apply mkeys_mset_NoDup.
    + congruence.
    + congruence.
    + intros k t. rewrite mget_mset. destruct (id todo =? k) eqn:E; [|apply H4].
      apply Z.eqb_eq in E. now intros [= <-].
    + intros k ns. rewrite mget_mset. destruct (id todo =? k); [|apply H5].
      intros [= <-]. constructor.
    + intros k ns. rewrite mget_mset. destruct (id todo =? k); [|apply H6].
      intros [= <-]. constructor.
    + intros a b. rewrite !getChildrenOf_nb, !getParentIds_nb. simpl.
      rewrite !nb_mset.
      specialize (H7 a b). rewrite getChildrenOf_nb, getParentIds_nb in H7.
      destruct (id todo =? a) eqn:Ea, (id todo =? b) eqn:Eb; simpl;
        try tauto.
      * apply Z.eqb_eq in Ea. subst a. split; [intros []|].
        intros Hin. apply H7, nb_In_keys in Hin. contradiction.
      * apply Z.eqb_eq in Eb. subst b. split; [|intros []].
        intros Hin. apply H7, nb_In_keys in Hin. contradiction.
    + intros a b. unfold edge. rewrite getChildrenOf_nb. simpl. rewrite nb_mset.
      destruct (id todo =? a); [intros []|].
      intros Hab. apply in_or_app. left. apply (H8 a b Hab).
Qed.

Lemma wf_addTodo s todo s' : wf s -> addTodo s todo = Ok s' -> wf s'.
Proof.
  unfold addTodo. intros Hwf Hc. eapply wf_calculate; [|exact Hc].
  now apply wf_storeTodo.
Qed.

(** *** addDependency *)

Lemma addDependency_inv s from to b s' :
  addDependency s from to = Ok (b, s') ->
  (b = false /\ s' = s /\ (hasTodo s from = false \/ hasTodo s to = false)) \/
  (b = true /\ hasTodo s from = true /\ hasTodo s to = true /\
   s' = mkDag (mset (adj s) from (sadd (nb (adj s) from) to))
              (mset (rev s) to (sadd (nb (rev s) to) from)) [] (idToTodo s) /\
   In from (mkeys (adj s)) /\ In to (mkeys (rev s))).
Proof.
  unfold addDependency, nb.
  destruct (hasTodo s from) eqn:Hf; simpl.
  2:{ intros [= <- <-]. left. auto. }
  destruct (hasTodo s to) eqn:Ht; simpl.
  2:{ intros [= <- <-]. left. auto. }
  destruct (mget (adj s) from) as [targets|] eqn:Ea; [|discriminate].
  destruct (mget (rev s) to) as [sources|] eqn:Er; [|discriminate].
  intros [= <- <-]. right. repeat split; try reflexivity.
  - eapply mget_Some_keys; eauto.
  - eapply mget_Some_keys; eauto.
Qed.

Lemma nb_NoDup (m : JsMap JsSet) :
  (forall k ns, mget m k = Some ns -> NoDup ns) -> forall k, NoDup (nb m k).
Proof.
  intros H k. unfold nb. destruct (mget m k) eqn:E; [eauto | constructor].
Qed.

Lemma wf_addEdge s from to :
  wf s -> hasTodo s to = true ->
  In from (mkeys (adj s)) -> In to (mkeys (rev s)) ->
  wf (mkDag (mset (adj s) from (sadd (nb (adj s) from) to))
            (mset (rev s) to (sadd (nb (rev s) to) from)) [] (idToTodo s)).
Proof.
  intros [H1 H2 H3 H4 H5 H6 H7 H8] Hto Hf Ht.
  constructor; simpl; rewrite ?mkeys_mset_has by assumption; try assumption.
  - intros k ns. rewrite mget_mset. destruct (from =? k); [|apply H5].
    intros [= <-]. apply sadd_NoDup. now apply nb_NoDup.
  - intros k ns. rewrite mget_mset. destruct (to =? k); [|apply H6].
    intros [= <-]. apply sadd_NoDup. now apply nb_NoDup.
  - intros a b. rewrite !getChildrenOf_nb, !getParentIds_nb. simpl.
    rewrite !nb_mset. specialize (H7 a b).
    rewrite getChildrenOf_nb, getParentIds_nb in H7.
    destruct (from =? a) eqn:Ea, (to =? b) eqn:Eb;
      rewrite ?Z.eqb_eq, ?Z.eqb_neq in *; subst; rewrite ?sadd_In.
    + tauto.
    + rewrite H7. intuition congruence.
    + rewrite <- H7. intuition congruence.
    + assumption.
  - intros a b. unfold edge. rewrite getChildrenOf_nb. simpl. rewrite nb_mset.
    destruct (from =? a) eqn:Ea.
    + rewrite sadd_In. intros [-> | Hb].
      * now apply mhas_In.
      * apply Z.eqb_eq in Ea. subst. apply (H8 _ _ Hb).
    + apply H8.
Qed.

Lemma wf_addDependency s from to b s' :
  wf s -> addDependency s from to = Ok (b, s') -> wf s'.
Proof.
  intros Hwf Ha. destruct (addDependency_inv _ _ _ _ _ Ha)
    as [[_ [-> _]] | [_ [Hf [Ht [-> [Hif Hit]]]]]]; [assumption|].
  now apply wf_addEdge.
Qed.

(** *** deleteDependency *)

Lemma wf_removeEdge s from to :
  wf s -> In from (mkeys (adj s)) -> In to (mkeys (rev s)) ->
  wf (mkDag (mset (adj s) from (sdelete (nb (adj s) from) to))
            (mset (rev s) to (sdelete (nb (rev s) to) from)) [] (idToTodo s)).
Proof.
  intros [H1 H2 H3 H4 H5 H6 H7 H8] Hf Ht.
  constructor; simpl; rewrite ?mkeys_mset_has by assumption; try assumption.
  - intros k ns. rewrite mget_mset. destruct (from =? k); [|apply H5].
    intros [= <-]. apply sdelete_NoDup. now apply nb_NoDup.
  - intros k ns. rewrite mget_mset. destruct (to =? k); [|apply H6].
    intros [= <-]. apply sdelete_NoDup. now apply nb_NoDup.
  - intros a b. rewrite !getChildrenOf_nb, !getParentIds_nb. simpl.
    rewrite !nb_mset. specialize (H7 a b).
    rewrite getChildrenOf_nb, getParentIds_nb in H7.
    destruct (from =? a) eqn:Ea, (to =? b) eqn:Eb;
      rewrite ?Z.eqb_eq, ?Z.eqb_neq in *; subst; rewrite ?sdelete_In.
    + tauto.
    + rewrite H7. intuition congruence.
    + rewrite <- H7. intuition congruence.
    + assumption.
  - intros a b. unfold edge. rewrite getChildrenOf_nb. simpl. rewrite nb_mset.
    destruct (from =? a) eqn:Ea.
    + rewrite sdelete_In. intros [Hb _].
      apply Z.eqb_eq in Ea. subst. apply (H8 _ _ Hb).
    + apply H8.
Qed.

Lemma deleteDependency_inv s from to s' :
  wf s -> deleteDependency s from to = Ok s' ->
  s' = s \/
  (In from (mkeys (adj s)) /\ In to (mkeys (rev s)) /\
   calculateEarliestStartTimes
     (mkDag (mset (adj s) from (sdelete (nb (adj s) from) to))
            (mset (rev s) to (sdelete (nb (rev s) to) from)) [] (idToTodo s)) = Ok s').
Proof.
  intros Hwf. unfold deleteDependency, hasDependency.
  destruct (hasTodo s from) eqn:Hf; simpl; [|intros [= <-]; now left].
  destruct (hasTodo s to) eqn:Ht; simpl; [|intros [= <-]; now left].
  destruct (mget (adj s) from) as [targets|] eqn:Ea; simpl; [|discriminate].
  destruct (shas targets to); simpl; [|intros [= <-]; now left].
  assert (Hto : In to (mkeys (rev s))).
  { rewrite (wf_keys_rev _ Hwf). now apply mhas_In. }
  destruct (mget_keys_Some _ _ Hto) as [sources Er]. rewrite Er.
  intros Hc. right. unfold nb. rewrite Ea, Er.
  repeat split; [eapply mget_Some_keys; eauto | assumption | assumption].
Qed.

Lemma wf_deleteDependency s from to s' :
  wf s -> deleteDependency s from to = Ok s' -> wf s'.
Proof.
  intros Hwf Hd. destruct (deleteDependency_inv _ _ _ _ Hwf Hd) as [-> | [Hf [Ht Hc]]];
    [assumption|].
  eapply wf_calculate; [|exact Hc]. now apply wf_removeEdge.
Qed.

(** *** deleteNode *)

Lemma wf_removeNode s node :
  wf s ->
  wf (mkDag (mupdateAll (fun targets => sdelete targets node) (mdelete (adj s) node))
            (mupdateAll (fun sources => sdelete sources node) (mdelete (rev s) node))
            [] (mdelete (idToTodo s) node)).
Proof.
  intros [H1 H2 H3 H4 H5 H6 H7 H8].
  constructor; simpl; rewrite ?mkeys_mupdateAll, ?mkeys_mdelete.
  - now apply NoDup_filter.
  - now rewrite H2.
  - now rewrite H3.
  - intros k t. rewrite mget_mdelete. destruct (node =? k); [discriminate | apply H4].
  - intros k ns. rewrite mget_mupdateAll, mget_mdelete.
    destruct (node =? k); [discriminate|].
    destruct (mget (adj s) k) eqn:E; simpl; [|discriminate].
    intros [= <-]. apply sdelete_NoDup. eauto.
  - intros k ns. rewrite mget_mupdateAll, mget_mdelete.
    destruct (node =? k); [discriminate|].
    destruct (mget (rev s) k) eqn:E; simpl; [|discriminate].
    intros [= <-]. apply sdelete_NoDup. eauto.
  - intros a b. rewrite !getChildrenOf_nb, !getParentIds_nb. simpl.
    rewrite !nb_sdeleteAll, !nb_mdelete. specialize (H7 a b).
    rewrite getChildrenOf_nb, getParentIds_nb in H7.
    destruct (node =? a) eqn:Ea, (node =? b) eqn:Eb;
      rewrite ?Z.eqb_eq, ?Z.eqb_neq in *; subst; simpl; intuition congruence.
  - intros a b. unfold edge. rewrite getChildrenOf_nb. simpl.
    rewrite nb_sdeleteAll, nb_mdelete, filter_In, negb_true_iff, Z.eqb_neq.
    destruct (node =? a); [intros [[] _]|].
    intros [Hb Hne]. split; [apply (H8 a b Hb) | assumption].
Qed.

Lemma wf_deleteNode s node s' : wf s -> deleteNode s node = Ok s' -> wf s'.
Proof.
  unfold deleteNode. intros Hwf Hc. eapply wf_calculate; [|exact Hc].
  now apply wf_removeNode.
Qed.

(** *** getSafeTargets *)

Lemma getSafeTargets_state s from r s' :
  getSafeTargets s from = Ok (r, s') ->
  exists c, s' = mkDag (adj s) (rev s) c (idToTodo s).
Proof.
  unfold getSafeTargets. destruct (mget (safeTargetsCache s) from).
  - intros [= <- <-]. exists (safeTargetsCache s). now destruct s.
  - destruct (computeSafeTargets s from); simpl; [|discriminate|discriminate].
    intros [= <- <-]. eauto.
Qed.

Lemma wf_getSafeTargets s from r s' :
  wf s -> getSafeTargets s from = Ok (r, s') -> wf s'.
Proof.
  intros Hwf Hg. destruct (getSafeTargets_state _ _ _ _ Hg) as [c ->].
  now apply wf_cache.
Qed.

(** *** Sequences of operations *)

Lemma foldM_error {S A : Type} (f : S -> A -> result S) (l : list A) (e : result S) :
  (forall s, e <> Ok s) ->
  fold_left (fun acc a => x <- acc ;; f x a) l e = e.
Proof.
  intros He. induction l as [|a l IH]; simpl; [reflexivity|].
  destruct e; [now destruct (He a0) | exact IH | exact IH].
Qed.

Lemma foldM_cons {S A : Type} (f : S -> A -> result S) (a : A) (l : list A) (s : S) :
  fold_left (fun acc a => x <- acc ;; f x a) (a :: l) (Ok s) =
  (s1 <- f s a ;; fold_left (fun acc a => x <- acc ;; f x a) l (Ok s1)).
Proof.
  simpl. destruct (f s a); simpl; [reflexivity | |]; apply foldM_error; discriminate.
Qed.

Lemma foldM_inv {S A : Type} (f : S -> A -> result S) (P : S -> Prop) :
  (forall s a s', P s -> f s a = Ok s' -> P s') ->
  forall l s s', P s ->
    fold_left (fun acc a => x <- acc ;; f x a) l (Ok s) = Ok s' -> P s'.
Proof.
  intros Hf l. induction l as [|a l IH]; intros s s' Hs.
  - simpl. now intros [= <-].
  - rewrite foldM_cons. destruct (f s a) as [s1| |] eqn:E; simpl; try discriminate.
    apply IH. eapply Hf; eauto.
Qed.

Lemma wf_empty : wf emptyDag.
Proof.
  constructor; simpl; try constructor; try discriminate; try tauto.
Qed.

Lemma wf_addDependencies s todo s' :
  wf s -> addDependencies s todo = Ok s' -> wf s'.
Proof.
  unfold addDependencies. intros Hwf.
  apply (foldM_inv (fun s dep => r <- addDependency s dep (schemaId todo) ;; Ok (snd r)) wf);
    [|assumption].
  intros s0 dep s1 H0. destruct (addDependency s0 dep (schemaId todo)) as [[b s2]| |] eqn:E;
    simpl; try discriminate.
  intros [= <-]. eapply wf_addDependency; eauto.
Qed.

Lemma wf_initialize todos s' : initialize todos = Ok s' -> wf s'.
Proof.
  unfold initialize.
  set (s1 := fold_left _ todos emptyDag).
  assert (H1 : wf s1).
  { subst s1. generalize wf_empty. generalize emptyDag.
    induction todos as [|t todos IH]; simpl; [auto|].
    intros s Hs. apply IH. apply (wf_storeTodo s (newTodo t) Hs). }
  destruct (fold_left _ todos (Ok s1)) as [s2| |] eqn:E; simpl; try discriminate.
  intros Hc. eapply wf_calculate; [|exact Hc].
  eapply (foldM_inv addDependencies wf); [|exact H1|exact E].
  intros; eapply wf_addDependencies; eauto.
Qed.

Lemma wf_step s o s' : wf s -> step s o = Ok s' -> wf s'.
Proof.
  intros Hwf. destruct o; simpl.
  - now apply wf_addTodo.
  - destruct (addDependency s from to) as [[b s1]| |] eqn:E; simpl; try discriminate.
    intros [= <-]. eapply wf_addDependency; eauto.
  - now apply wf_deleteDependency.
  - now apply wf_deleteNode.
  - apply wf_initialize.
  - destruct (getSafeTargets s from) as [[r s1]| |] eqn:E; simpl; try discriminate.
    intros [= <-]. eapply wf_getSafeTargets; eauto.
  - now apply wf_calculate.
Qed.

Lemma wf_run ops s s' : wf s -> run ops s = Ok s' -> wf s'.
Proof. unfold run. apply (foldM_inv step wf). apply wf_step. Qed.

(** Every state the public interface produces satisfies the
    representation invariant. *)
Lemma reachable_wf s : reachable s -> wf s.
Proof. intros [ops H]. eapply wf_run; [apply wf_empty | exact H]. Qed.

(** *** The ancestor-set method of [getSafeTargets] *)

Definition degrees (m : JsMap JsSet) : JsMap nat :=
  map (fun e => (fst e, length (snd e))) m.

Lemma degreeIn_degrees m k : degreeIn (degrees m) k = length (nb m k).
Proof.
  unfold degreeIn, degrees, nb. induction m as [|[k' l] m IH]; simpl; [reflexivity|].
  destruct (k' =? k); [reflexivity | exact IH].
Qed.

Lemma remaining_degrees m : remaining (degrees m) [] = edgeCount m.
Proof.
  unfold degrees, edgeCount. induction m as [|[k l] m IH]; simpl; [reflexivity|].
  now rewrite IH.
Qed.

Lemma ancestorsOf_total s from : exists anc, ancestorsOf s from = Some anc.
Proof.
  unfold ancestorsOf.
  apply (ancestorsLoop_total (getParentIds s) (degrees (rev s))).
  - intros k. rewrite degreeIn_degrees, getParentIds_nb. lia.
  - rewrite remaining_degrees. simpl. lia.
Qed.

Lemma computeSafeTargets_total s from : exists r, computeSafeTargets s from = Ok r.
Proof.
  unfold computeSafeTargets. destruct (ancestorsOf_total s from) as [anc ->]. eauto.
Qed.

Lemma reach_parents s a b :
  wf s -> reach (fun x y => In y (getParentIds s x)) a b <-> reach (edge s) b a.
Proof.
  intros Hwf. split; intros H.
  - apply reach_flip. revert H. apply reach_ext. intros x y Hxy.
    now apply (wf_mirror _ Hwf).
  - apply reach_flip with (E := fun x y => In y (getParentIds s x)).
    revert H. apply reach_ext. intros x y Hxy. now apply (wf_mirror _ Hwf).
Qed.

(** A freshly computed safe-target list holds exactly the todos from
    which [from] cannot be reached along forward adjacency. *)
Lemma computeSafeTargets_spec s from r :
  wf s -> computeSafeTargets s from = Ok r ->
  forall d, In d r <-> In d (allTodoIds s) /\ ~ reach (edge s) d from.
Proof.
  intros Hwf. unfold computeSafeTargets, ancestorsOf.
  destruct (ancestorsLoop _ _ _ _) as [anc|] eqn:E; [|discriminate].
  intros [= <-] d. rewrite filter_In, negb_true_iff, shas_false.
  rewrite (ancestorsLoop_reach _ _ _ _ E d), (reach_parents s from d Hwf).
  reflexivity.
Qed.

End DagFacts.

(** ** Kahn's loop: termination on every input *)

(** An id whose remaining-prerequisite count is still positive. *)
Definition positive (v : number) : nat :=
  match v with
  | Num z => if 0 <? z then 1%nat else O
  | NaN => O
  end.

Fixpoint pending (ind : JsMap number) : nat :=
  match ind with
  | [] => O
  | (_, v) :: rest => (positive v + pending rest)%nat
  end.

Definition potential (st : Kahn) : nat :=
  (length (queue st) + pending (indegree st))%nat.

Lemma getN_mset m k k' v : getN (mset m k v) k' = if k =? k' then v else getN m k'.
Proof. unfold getN. rewrite mget_mset. now destruct (k =? k'). Qed.

Lemma pending_mset ind k v :
  (pending (mset ind k v) + positive (getN ind k) = pending ind + positive v)%nat.
Proof.
  unfold getN. induction ind as [|[k' v'] ind IH]; simpl.
  - lia.
  - destruct (k' =? k); simpl; lia.
Qed.

Lemma pending_le_length ind : (pending ind <= length ind)%nat.
Proof.
  induction ind as [|[k v] ind IH]; simpl; [lia|].
  assert (positive v <= 1)%nat by (destruct v as [z|]; simpl; [destruct (0 <? z)|]; lia).
  lia.
Qed.

Lemma relax_potential ft st n : (potential (relax ft st n) <= potential st)%nat.
Proof.
  unfold potential, relax. simpl. rewrite getN_mset, Z.eqb_refl.
  pose proof (pending_mset (indegree st) n (ndec (getN (indegree st) n))) as Hp.
  destruct (getN (indegree st) n) as [z|]; simpl in *.
  - destruct (z - 1 =? 0) eqn:E0.
    + apply Z.eqb_eq in E0. assert (z = 1) by lia. subst. simpl in Hp.
      rewrite length_app. simpl. lia.
    + apply Z.eqb_neq in E0.
      destruct (0 <? z) eqn:E1, (0 <? z - 1) eqn:E2;
        rewrite ?Z.ltb_lt, ?Z.ltb_ge in *; lia.
  - lia.
Qed.

Lemma fold_relax_potential ft l : forall st,
  (potential (fold_left (relax ft) l st) <= potential st)%nat.
Proof.
  induction l as [|n l IH]; intros st; simpl; [lia|].
  etransitivity; [apply IH | apply relax_potential].
Qed.

Lemma kahnLoop_total children dur fuel : forall st,
  (potential st <= fuel)%nat -> exists st', kahnLoop children dur fuel st = Some st'.
Proof.
  induction fuel as [|f IH]; intros [q ind es] Hle; unfold potential in Hle; simpl in *.
  - destruct q; simpl in *; [eauto | lia].
  - destruct q as [|current q]; [eauto|].
    apply IH. etransitivity; [apply fold_relax_potential|].
    unfold potential. simpl in *. lia.
Qed.

(** The dequeued ids, one per iteration. *)
Lemma kahnTrace_length children dur fuel : forall st,
  (length (kahnTrace children dur fuel st) <= potential st)%nat.
Proof.
  induction fuel as [|f IH]; intros [q ind es]; unfold potential; simpl.
  - destruct q; simpl; lia.
  - destruct q as [|current q]; simpl; [lia|].
    pose proof (IH (fold_left
      (relax (nadd (getN es current) (getN dur current))) (children current)
      (mkKahn q ind es))) as H1.
    pose proof (fold_relax_potential
      (nadd (getN es current) (getN dur current)) (children current) (mkKahn q ind es)) as H2.
    unfold potential in *. simpl in *. lia.
Qed.

(** ** Kahn's loop: what it computes *)

Lemma shas_cons (x a : Z) (l : JsSet) : shas (a :: l) x = (x =? a) || shas l x.
Proof. reflexivity. Qed.

Lemma shas_app (l1 l2 : JsSet) (x : Z) : shas (l1 ++ l2) x = shas l1 x || shas l2 x.
Proof. unfold shas. apply existsb_app. Qed.

Lemma shas_snoc (l : JsSet) (c x : Z) : shas (l ++ [c]) x = shas l x || (x =? c).
Proof. rewrite shas_app. simpl. now rewrite orb_false_r. Qed.

Lemma fold_relax_summary ft l : NoDup l -> forall st,
  (forall v, getN (indegree (fold_left (relax ft) l st)) v =
     if shas l v then ndec (getN (indegree st) v) else getN (indegree st) v) /\
  (forall v, getN (earliestStart (fold_left (relax ft) l st)) v =
     if shas l v then nmax (getN (earliestStart st) v) ft
     else getN (earliestStart st) v) /\
  queue (fold_left (relax ft) l st) =
    queue st ++ filter (fun v => nis0 (ndec (getN (indegree st) v))) l.
Proof.
  induction 1 as [|n l Hn Hnd IH]; intros st; cbn [fold_left].
  - simpl. repeat split; try reflexivity. now rewrite app_nil_r.
  - destruct (IH (relax ft st n)) as [H1 [H2 H3]]. repeat split.
    + intros v. rewrite H1, shas_cons. simpl. rewrite getN_mset.
      destruct (v =? n) eqn:E; simpl.
      * apply Z.eqb_eq in E. subst.
        apply shas_false in Hn. now rewrite Hn, Z.eqb_refl.
      * rewrite Z.eqb_sym, E. reflexivity.
    + intros v. rewrite H2, shas_cons. simpl. rewrite getN_mset.
      destruct (v =? n) eqn:E; simpl.
      * apply Z.eqb_eq in E. subst.
        apply shas_false in Hn. now rewrite Hn, Z.eqb_refl.
      * rewrite Z.eqb_sym, E. reflexivity.
    + rewrite H3. simpl. rewrite getN_mset, Z.eqb_refl.
      assert (Hf : filter (fun v => nis0 (ndec (getN (mset (indegree st) n
                     (ndec (getN (indegree st) n))) v))) l =
                   filter (fun v => nis0 (ndec (getN (indegree st) v))) l).
      { apply filter_ext_in. intros v Hv. rewrite getN_mset.
        destruct (n =? v) eqn:E; [|reflexivity].
        apply Z.eqb_eq in E. subst. contradiction. }
      rewrite Hf. destruct (nis0 (ndec (getN (indegree st) n))); simpl.
      * now rewrite <- app_assoc.
      * reflexivity.
Qed.

Lemma valueAt_getN m k z : getN m k = Num z -> valueAt m k = z.
Proof.
  unfold getN, valueAt. destruct (mget m k) as [v|]; [|discriminate].
  intros ->. reflexivity.
Qed.

(** Parents not yet dequeued. *)
Definition unprocessed (P : list Z) (l : list Z) : nat :=
  length (filter (fun p => negb (shas P p)) l).

Lemma unprocessed_nil l : unprocessed [] l = length l.
Proof.
  unfold unprocessed. induction l as [|a l IH]; simpl; [reflexivity|].
  f_equal. exact IH.
Qed.

Lemma unprocessed_zero P l : unprocessed P l = O <-> forall p, In p l -> In p P.
Proof.
  unfold unprocessed. induction l as [|a l IH]; simpl.
  - split; [intros _ p [] | reflexivity].
  - destruct (shas P a) eqn:E; simpl.
    + apply shas_In in E. rewrite IH. split.
      * intros H p [<- | Hp]; auto.
      * intros H p Hp. apply H. now right.
    + apply shas_false in E. split; [discriminate|].
      intros H. exfalso. apply E, H. now left.
Qed.

Lemma unprocessed_snoc_notin P l c : ~ In c l -> unprocessed (P ++ [c]) l = unprocessed P l.
Proof.
  unfold unprocessed. intros Hc. f_equal. apply filter_ext_in.
  intros p Hp. rewrite shas_snoc.
  destruct (p =? c) eqn:E; [|now rewrite orb_false_r].
  apply Z.eqb_eq in E. subst. contradiction.
Qed.

Lemma unprocessed_snoc_in P l c :
  NoDup l -> In c l -> ~ In c P -> unprocessed P l = S (unprocessed (P ++ [c]) l).
Proof.
  intros Hnd. induction Hnd as [|a l Ha Hnd IH]; intros Hc HP; [destruct Hc|].
  destruct Hc as [-> | Hc].
  - change (unprocessed P (c :: l)) with
      (length (if negb (shas P c) then c :: filter (fun p => negb (shas P p)) l
               else filter (fun p => negb (shas P p)) l)).
    change (unprocessed (P ++ [c]) (c :: l)) with
      (length (if negb (shas (P ++ [c]) c)
               then c :: filter (fun p => negb (shas (P ++ [c]) p)) l
               else filter (fun p => negb (shas (P ++ [c]) p)) l)).
    rewrite shas_snoc, Z.eqb_refl, orb_true_r. simpl.
    apply shas_false in HP. rewrite HP. simpl. f_equal.
    symmetry. now apply unprocessed_snoc_notin.
  - assert (Hac : a <> c) by (intros ->; contradiction).
    specialize (IH Hc HP). unfold unprocessed in *. simpl.
    rewrite shas_snoc. apply Z.eqb_neq in Hac. rewrite Hac, orb_false_r.
    destruct (shas P a); simpl; lia.
Qed.

Lemma propagated_nonneg proc f l : 0 <= propagated proc f l.
Proof.
  induction l as [|p l IH]; simpl; [lia|]. destruct (proc p); lia.
Qed.

Lemma propagated_ext proc proc' f g l :
  (forall p, In p l -> proc p = proc' p) ->
  (forall p, In p l -> proc p = true -> f p = g p) ->
  propagated proc f l = propagated proc' g l.
Proof.
  induction l as [|p l IH]; simpl; [reflexivity|]. intros H1 H2.
  rewrite <- (H1 p) by now left. rewrite IH by auto.
  destruct (proc p) eqn:E; [|reflexivity]. rewrite (H2 p); auto.
Qed.

Lemma propagated_none proc f l :
  (forall p, In p l -> proc p = false) -> propagated proc f l = 0.
Proof.
  induction l as [|p l IH]; simpl; [reflexivity|]. intros H.
  rewrite (H p) by now left. auto.
Qed.

Lemma propagated_ge proc f l p :
  In p l -> proc p = true -> f p <= propagated proc f l.
Proof.
  induction l as [|a l IH]; simpl; [tauto|]. intros [-> | Hp] Hproc.
  - rewrite Hproc. lia.
  - specialize (IH Hp Hproc). destruct (proc a); lia.
Qed.

Lemma propagated_attained proc f l :
  (forall p, In p l -> proc p = true -> 0 <= f p) ->
  (exists p, In p l /\ proc p = true) ->
  exists p, In p l /\ proc p = true /\ propagated proc f l = f p.
Proof.
  induction l as [|a l IH]; simpl; intros Hpos [p [Hp Hproc]]; [destruct Hp|].
  destruct (proc a) eqn:Ea.
  - destruct (existsb proc l) eqn:Ex.
    + apply existsb_exists in Ex. destruct IH as [q [Hq [Hqp Hqe]]]; [auto | exact Ex |].
      destruct (Z.max_spec (f a) (propagated proc f l)) as [[_ Hm] | [_ Hm]].
      * exists q. rewrite Hm. auto.
      * exists a. rewrite Hm. auto.
    + assert (Hz : propagated proc f l = 0).
      { apply propagated_none. intros q Hq. destruct (proc q) eqn:Eq; [|reflexivity].
        assert (existsb proc l = true) by (apply existsb_exists; eauto). congruence. }
      exists a. rewrite Hz. pose proof (Hpos a (or_introl eq_refl) Ea).
      repeat split; auto. lia.
  - destruct Hp as [-> | Hp]; [congruence|].
    destruct IH as [q [Hq [Hqp Hqe]]]; [auto | eauto |]. exists q. auto.
Qed.

Lemma propagated_snoc_notin P f l c :
  ~ In c l -> propagated (shas (P ++ [c])) f l = propagated (shas P) f l.
Proof.
  intros Hc. apply propagated_ext; [|reflexivity].
  intros p Hp. rewrite shas_snoc.
  destruct (p =? c) eqn:E; [|now rewrite orb_false_r].
  apply Z.eqb_eq in E. subst. contradiction.
Qed.

Lemma propagated_snoc_in P f l c :
  In c l ->
  propagated (shas (P ++ [c])) f l = Z.max (propagated (shas P) f l) (f c).
Proof.
  induction l as [|a l IH]; intros Hc; [destruct Hc|]. simpl.
  rewrite shas_snoc.
  destruct (in_dec Z.eq_dec c l) as [Hin | Hnin].
  - rewrite (IH Hin). destruct (a =? c) eqn:E.
    + apply Z.eqb_eq in E. subst. rewrite orb_true_r. destruct (shas P c); lia.
    + rewrite orb_false_r. destruct (shas P a); lia.
  - rewrite (propagated_snoc_notin P f l c Hnin).
    destruct Hc as [-> | Hc]; [|contradiction].
    rewrite Z.eqb_refl, orb_true_r. destruct (shas P c); lia.
Qed.

Lemma valueAt_eq m k :
  valueAt m k = match getN m k with Num z => z | NaN => 0 end.
Proof. unfold valueAt, getN, or0. now destruct (mget m k) as [[z|]|]. Qed.

Section KahnInvariant.

Variables children parents : Z -> list Z.
Variable K : list Z.
Variable dur : JsMap number.
Variable durZ : Z -> Z.

Hypothesis mirror : forall a b, In b (children a) <-> In a (parents b).
Hypothesis children_K : forall a b, In b (children a) -> In b K.
Hypothesis parents_K : forall a b, In a (parents b) -> In a K.
Hypothesis children_NoDup : forall a, NoDup (children a).
Hypothesis parents_NoDup : forall a, NoDup (parents a).
Hypothesis dur_K : forall v, In v K -> getN dur v = Num (durZ v).

Let E (a b : Z) : Prop := In b (children a).

(** A dequeue order in which every id comes after all its parents. *)
Inductive topo : list Z -> Prop :=
| topo_nil : topo []
| topo_snoc : forall P c,
    topo P -> (forall p, In p (parents c) -> In p P) -> topo (P ++ [c]).

(** Finish time of [p] under the table [es]. *)
Definition finish (es : JsMap number) (p : Z) : Z := valueAt es p + durZ p.

(** The loop invariant; [P] lists the ids dequeued so far. *)
Record KInv (P : list Z) (st : Kahn) : Prop := mkKInv {
  ki_nodup : NoDup (P ++ queue st);
  ki_inK : forall v, In v (P ++ queue st) -> In v K;
  ki_ind : forall v, In v K ->
    getN (indegree st) v = Num (Z.of_nat (unprocessed P (parents v)));
  ki_ready : forall v, In v K ->
    (In v (P ++ queue st) <-> unprocessed P (parents v) = O);
  ki_es : forall v, In v K ->
    getN (earliestStart st) v =
    Num (propagated (shas P) (finish (earliestStart st)) (parents v));
  ki_topo : topo P
}.

Lemma KInv_step P c q ind es :
  KInv P (mkKahn (c :: q) ind es) ->
  KInv (P ++ [c])
       (fold_left (relax (nadd (getN es c) (getN dur c))) (children c)
                  (mkKahn q ind es)).
Proof.
  intros [H1 H2 H3 H4 H5 H6]. simpl in *.
  assert (HcK : In c K) by (apply H2, in_or_app; right; now left).
  assert (HcP : ~ In c P).
  { apply NoDup_remove_2 in H1. intros Hin. apply H1, in_or_app. now left. }
  assert (Hpar : forall p, In p (parents c) -> In p P).
  { apply unprocessed_zero, H4; [assumption | apply in_or_app; right; now left]. }
  assert (Hft : nadd (getN es c) (getN dur c) = Num (finish es c)).
  { unfold finish. rewrite (valueAt_getN _ _ _ (H5 c HcK)), (H5 c HcK), (dur_K c HcK).
    reflexivity. }
  rewrite Hft.
  destruct (fold_relax_summary (Num (finish es c)) (children c) (children_NoDup c)
              (mkKahn q ind es)) as [S1 [S2 S3]].
  simpl in S1, S2, S3.
  assert (Hch : forall v, In v (children c) -> ~ In v (P ++ c :: q)).
  { intros v Hv Hin. apply (H4 v (children_K _ _ Hv)) in Hin.
    apply HcP. apply (proj1 (unprocessed_zero P (parents v)) Hin). now apply mirror. }
  constructor.
  - rewrite S3. set (F := filter _ (children c)).
    replace ((P ++ [c]) ++ q ++ F) with ((P ++ c :: q) ++ F)
      by (rewrite <- !app_assoc; reflexivity).
    apply NoDup_app; [assumption | apply NoDup_filter, children_NoDup |].
    intros a Ha Hf. apply filter_In in Hf. exact (Hch a (proj1 Hf) Ha).
  - rewrite S3. intros v. rewrite !in_app_iff, filter_In. simpl.
    intros [[Hv | [<- | []]] | [Hv | [Hv _]]]; try assumption.
    + apply H2, in_or_app. now left.
    + apply H2, in_or_app. right. now right.
    + eapply children_K; eauto.
  - intros v Hv. rewrite S1, (H3 v Hv).
    destruct (shas (children c) v) eqn:Ec.
    + apply shas_In, mirror in Ec.
      rewrite (unprocessed_snoc_in P (parents v) c (parents_NoDup v) Ec HcP).
      unfold ndec. f_equal. lia.
    + apply shas_false in Ec. rewrite mirror in Ec.
      now rewrite unprocessed_snoc_notin.
  - intros v Hv. rewrite S3. split.
    + rewrite !in_app_iff, filter_In. simpl.
      intros [[Hin | [<- | []]] | [Hin | [Hin Hz]]].
      * apply unprocessed_zero. intros p Hp. apply in_or_app. left.
        revert p Hp. apply unprocessed_zero, H4; [assumption|].
        apply in_or_app. now left.
      * apply unprocessed_zero. intros p Hp. apply in_or_app. left. auto.
      * apply unprocessed_zero. intros p Hp. apply in_or_app. left.
        revert p Hp. apply unprocessed_zero, H4; [assumption|].
        apply in_or_app. right. now right.
      * assert (Ec : In c (parents v)) by now apply mirror.
        rewrite (H3 v Hv) in Hz.
        rewrite (unprocessed_snoc_in P (parents v) c (parents_NoDup v) Ec HcP) in Hz.
        unfold ndec, nis0 in Hz. apply Z.eqb_eq in Hz. lia.
    + intros Hz. destruct (in_dec Z.eq_dec c (parents v)) as [Ec | Ec].
      * rewrite !in_app_iff, filter_In. right. right. split; [now apply mirror|].
        rewrite (H3 v Hv).
        rewrite (unprocessed_snoc_in P (parents v) c (parents_NoDup v) Ec HcP), Hz.
        reflexivity.
      * rewrite unprocessed_snoc_notin in Hz by assumption.
        apply (H4 v Hv) in Hz. rewrite !in_app_iff in *. simpl in *. tauto.
  - intros v Hv. rewrite S2.
    set (es1 := earliestStart _).
    assert (Hsame : forall p, In p (P ++ [c]) -> finish es1 p = finish es p).
    { intros p Hp. unfold finish. rewrite !valueAt_eq. subst es1. rewrite S2.
      destruct (shas (children c) p) eqn:Ep; [|reflexivity].
      exfalso. apply shas_In in Ep. apply (Hch p Ep).
      rewrite in_app_iff in *. simpl in *. tauto. }
    rewrite (propagated_ext (shas (P ++ [c])) (shas (P ++ [c])) (finish es1) (finish es));
      [|reflexivity|].
    2:{ intros p _ Hp. apply Hsame. now apply shas_In. }
    rewrite (H5 v Hv). destruct (shas (children c) v) eqn:Ec.
    + apply shas_In, mirror in Ec. now rewrite propagated_snoc_in.
    + apply shas_false in Ec. rewrite mirror in Ec.
      now rewrite propagated_snoc_notin.
  - now apply topo_snoc.
Qed.

Lemma KInv_loop fuel : forall P st st',
  KInv P st -> kahnLoop children dur fuel st = Some st' ->
  KInv (P ++ kahnTrace children dur fuel st) st' /\ queue st' = [].
Proof.
  induction fuel as [|f IH]; intros P [q ind es] st' HI; simpl.
  - destruct q; [|discriminate]. intros [= <-]. rewrite app_nil_r. auto.
  - destruct q as [|c q].
    + intros [= <-]. rewrite app_nil_r. auto.
    + intros Hloop. apply KInv_step in HI.
      destruct (IH _ _ _ HI Hloop) as [H1 H2].
      rewrite <- app_assoc in H1. auto.
Qed.

Lemma topo_closed P : topo P -> forall v p, In v P -> In p (parents v) -> In p P.
Proof.
  induction 1 as [|P c HP IH Hc]; intros v p Hv Hp; [destruct Hv|].
  apply in_app_iff in Hv. apply in_or_app. left.
  destruct Hv as [Hv | [<- | []]]; eauto.
Qed.

Lemma topo_ancestors P a b : topo P -> reach E a b -> In b P -> In a P.
Proof.
  intros HP Hr. induction Hr as [|a b c Hab Hbc IH]; [auto|].
  intros Hc. apply (topo_closed P HP b a (IH Hc)). now apply mirror.
Qed.

Lemma topo_no_cycle P : topo P -> NoDup P -> forall v, In v P -> ~ reachp E v v.
Proof.
  induction 1 as [|P c HP IH Hc]; intros Hnd v Hv Hcyc; [destruct Hv|].
  assert (HcP : ~ In c P).
  { apply NoDup_remove_2 in Hnd. now rewrite app_nil_r in Hnd. }
  assert (HndP : NoDup P).
  { apply NoDup_remove_1 in Hnd. now rewrite app_nil_r in Hnd. }
  apply in_app_iff in Hv. destruct Hv as [Hv | [<- | []]].
  - exact (IH HndP v Hv Hcyc).
  - destruct (reachp_last _ _ _ Hcyc) as [b [Hcb Hbc]].
    apply HcP. apply (topo_ancestors P c b HP Hcb). apply Hc. now apply mirror.
Qed.

(** Nothing on or downstream of a cycle is ever dequeued. *)
Lemma KInv_cycle P st v x :
  KInv P st -> reachp E v v -> reach E v x -> ~ In x (P ++ queue st).
Proof.
  intros HI Hcyc Hvx Hx.
  assert (Hready : forall y, In y (P ++ queue st) -> forall p, In p (parents y) -> In p P).
  { intros y Hy. apply unprocessed_zero, (ki_ready _ _ HI); [|assumption].
    now apply (ki_inK _ _ HI). }
  assert (Hanc : forall y, In y (P ++ queue st) -> forall a, reachp E a y -> In a P).
  { intros y Hy a Ha. destruct (reachp_last _ _ _ Ha) as [b [Hab Hby]].
    apply (topo_ancestors P a b (ki_topo _ _ HI) Hab).
    apply (Hready y Hy). now apply mirror. }
  assert (HvP : In v P).
  { apply (Hanc x Hx). eapply reachp_reach_r; eauto. }
  apply (topo_no_cycle P (ki_topo _ _ HI)) with (v := v); [|assumption|assumption].
  pose proof (ki_nodup _ _ HI) as Hnd. apply NoDup_app_remove_r in Hnd. assumption.
Qed.

(** Without cycles every id is dequeued. *)
Lemma KInv_all_processed P st :
  KInv P st -> queue st = [] -> acyclic E -> forall v, In v K -> In v P.
Proof.
  intros HI Hq Hac.
  apply (acyclic_induction (fun v p => In p (parents v)) K).
  - intros a b Hab. eapply parents_K; eauto.
  - intros v Hv. apply (acyclic_flip E Hac v).
    destruct Hv as [b [Hvb Hbv]]. exists b. split; [now apply mirror|].
    revert Hbv. apply reach_ext. intros x y Hxy. now apply mirror.
  - intros v Hv Hall. apply (ki_ready _ _ HI) in Hv.
    rewrite Hq, app_nil_r in Hv. apply Hv, unprocessed_zero. exact Hall.
Qed.

End KahnInvariant.

(** ** The scheduler of dag.ts *)

Module DagScheduler.
Import Dag DagFacts.

(** The ids dequeued by the [while] loop of
    [calculateEarliestStartTimes], in order. *)
Definition dequeued (s : TodoDAG) : list Z :=
  match initTables (rev s) (mvalues (idToTodo s)) (mkTables [] [] []) with
  | Ok t => kahnTrace (getChildrenOf s) (tDuration t) (kahnFuel s)
              (mkKahn (rootNodes s) (tIndegree t) (tEarliestStart t))
  | _ => []
  end.

(** Edges all point from a smaller id to a larger one (a sufficient,
    computable condition for acyclicity). *)
Definition increasing (s : TodoDAG) : bool :=
  forallb (fun e => forallb (fun b => fst e <? b) (snd e)) (adj s).

Definition durationsNonnegb (s : TodoDAG) : bool :=
  forallb (fun e => 0 <=? duration (snd e)) (idToTodo s).

Lemma initTables_length r todos : forall t0 t,
  initTables r todos t0 = Ok t ->
  (length (tIndegree t) <= length (tIndegree t0) + length todos)%nat.
Proof.
  induction todos as [|todo todos IH]; intros t0 t; simpl.
  - intros [= <-]. lia.
  - destruct (mget r (id todo)); [|discriminate]. intros H.
    apply IH in H. simpl in H.
    pose proof (length_mset_le (tIndegree t0) (id todo)
                  (Num (Z.of_nat (length j)))). lia.
Qed.

Lemma initTables_not_fuel r todos : forall t0, initTables r todos t0 <> OutOfFuel.
Proof.
  induction todos as [|todo todos IH]; intros t0; simpl; [discriminate|].
  destruct (mget r (id todo)); [apply IH | discriminate].
Qed.

Lemma rootNodes_length s : (length (rootNodes s) <= length (rev s))%nat.
Proof.
  unfold rootNodes. rewrite length_map. apply filter_length_le.
Qed.

(** The loop bound of the model is never reached. *)
Lemma earliestStarts_not_fuel s : earliestStarts s <> OutOfFuel.
Proof.
  unfold earliestStarts.
  destruct (initTables (rev s) (mvalues (idToTodo s)) (mkTables [] [] [])) as [t| |] eqn:Ei;
    simpl; try discriminate.
  - destruct (kahnLoop_total (getChildrenOf s) (tDuration t) (kahnFuel s)
               (mkKahn (rootNodes s) (tIndegree t) (tEarliestStart t))) as [st' ->];
      [|discriminate].
    unfold potential, kahnFuel. simpl.
    pose proof (rootNodes_length s). pose proof (pending_le_length (tIndegree t)).
    apply initTables_length in Ei. simpl in Ei. unfold mvalues in Ei.
    rewrite length_map in Ei. lia.
  - exfalso. eapply initTables_not_fuel; eauto.
Qed.

Lemma calculate_not_fuel s : calculateEarliestStartTimes s <> OutOfFuel.
Proof.
  unfold calculateEarliestStartTimes. pose proof (earliestStarts_not_fuel s).
  destruct (earliestStarts s); simpl; congruence.
Qed.

(** *** The tables built by the first [forEach] *)

Lemma initTables_get r todos : forall t0 t,
  initTables r todos t0 = Ok t ->
  forall v,
    (~ In v (map id todos) ->
       getN (tIndegree t) v = getN (tIndegree t0) v /\
       getN (tDuration t) v = getN (tDuration t0) v /\
       getN (tEarliestStart t) v = getN (tEarliestStart t0) v) /\
    (In v (map id todos) ->
       getN (tIndegree t) v = Num (Z.of_nat (length (nb r v))) /\
       getN (tEarliestStart t) v = Num 0).
Proof.
  induction todos as [|todo todos IH]; intros t0 t; simpl.
  - intros [= <-] v. split; [auto | intros []].
  - destruct (mget r (id todo)) as [incoming|] eqn:Er; [|discriminate].
    intros H v. destruct (IH _ _ H v) as [IH1 IH2]. simpl in IH1.
    rewrite !getN_mset in IH1. split.
    + intros Hn. destruct (id todo =? v) eqn:E.
      * apply Z.eqb_eq in E. tauto.
      * apply IH1. tauto.
    + intros Hv. destruct (in_dec Z.eq_dec v (map id todos)) as [Hin | Hnin]; [auto|].
      destruct Hv as [Hv | Hv]; [|contradiction].
      destruct (IH1 Hnin) as [-> [_ ->]]. rewrite Hv, Z.eqb_refl.
      unfold nb. rewrite <- Hv, Er. auto.
Qed.

Lemma initTables_duration r todos : forall t0 t,
  initTables r todos t0 = Ok t -> NoDup (map id todos) ->
  forall todo, In todo todos -> getN (tDuration t) (id todo) = Num (duration todo).
Proof.
  induction todos as [|a todos IH]; intros t0 t; simpl; [intros _ _ ? []|].
  destruct (mget r (id a)) as [incoming|] eqn:Er; [|discriminate].
  intros H Hnd todo Hin. inversion Hnd as [|x l Hx Hl]; subst.
  destruct Hin as [<- | Hin].
  - destruct (initTables_get _ _ _ _ H (id a)) as [H1 _].
    destruct (H1 Hx) as [_ [-> _]]. simpl. now rewrite getN_mset, Z.eqb_refl.
  - eapply IH; eauto.
Qed.

Lemma initTables_total r todos : forall t0,
  (forall todo, In todo todos -> In (id todo) (mkeys r)) ->
  exists t, initTables r todos t0 = Ok t.
Proof.
  induction todos as [|a todos IH]; intros t0 H; simpl; [eauto|].
  destruct (mget_keys_Some r (id a) (H a (or_introl eq_refl))) as [incoming ->].
  apply IH. intros todo Hin. apply H. now right.
Qed.

(** *** Stored todos are keyed by their own id *)

Lemma wf_entries s k t : wf s -> In (k, t) (idToTodo s) -> id t = k.
Proof.
  intros Hwf Hin. apply (wf_ids _ Hwf). apply In_mget; [apply (wf_todo_keys _ Hwf) | assumption].
Qed.

Lemma wf_values_ids s : wf s -> map id (mvalues (idToTodo s)) = mkeys (idToTodo s).
Proof.
  intros Hwf. pose proof (wf_entries s) as H. unfold mvalues, mkeys. rewrite map_map.
  apply map_ext_in. intros [k t] Hin. simpl. eauto.
Qed.

Lemma wf_value_get s todo :
  wf s -> In todo (mvalues (idToTodo s)) -> mget (idToTodo s) (id todo) = Some todo.
Proof.
  intros Hwf Hin. unfold mvalues in Hin. apply in_map_iff in Hin.
  destruct Hin as [[k t] [<- Hin]]. simpl.
  rewrite (wf_entries s k t Hwf Hin).
  apply In_mget; [apply (wf_todo_keys _ Hwf) | assumption].
Qed.

Lemma rootNodes_In s v :
  NoDup (mkeys (rev s)) -> (In v (rootNodes s) <-> mget (rev s) v = Some []).
Proof.
  intros Hnd. unfold rootNodes. rewrite in_map_iff. split.
  - intros [[k l] [<- Hin]]. apply filter_In in Hin. destruct Hin as [Hin Hl].
    simpl in *. apply Nat.eqb_eq, length_zero_iff_nil in Hl. subst.
    now apply In_mget.
  - intros Hg. exists (v, []). split; [reflexivity|].
    apply filter_In. split; [now apply mget_Some_In | reflexivity].
Qed.

Lemma rootNodes_NoDup s : NoDup (mkeys (rev s)) -> NoDup (rootNodes s).
Proof.
  unfold rootNodes, mkeys. generalize (rev s). intros m.
  induction m as [|[k l] m IH]; simpl; [constructor|].
  intros Hnd. inversion Hnd; subst.
  destruct (length l =? 0)%nat; simpl; [|auto].
  constructor; [|auto]. intros Hin. apply H1.
  apply in_map_iff in Hin. destruct Hin as [e [He Hin]].
  apply filter_In in Hin. apply in_map_iff. exists e. tauto.
Qed.

(** *** The loop invariant holds initially, hence at the end *)

Section Run.

Variable s : TodoDAG.
Hypothesis Hwf : wf s.

Let K := mkeys (idToTodo s).

Lemma wf_rev_NoDup : NoDup (mkeys (rev s)).
Proof. rewrite (wf_keys_rev _ Hwf). apply (wf_todo_keys _ Hwf). Qed.

Lemma wf_parents_K a b : In a (getParentIds s b) -> In a K.
Proof.
  intros H. apply (wf_mirror _ Hwf) in H. rewrite getChildrenOf_nb in H.
  apply nb_In_keys in H. unfold K. now rewrite <- (wf_keys_adj _ Hwf).
Qed.

Lemma wf_children_NoDup a : NoDup (getChildrenOf s a).
Proof. rewrite getChildrenOf_nb. apply nb_NoDup, (wf_sets_adj _ Hwf). Qed.

Lemma wf_parents_NoDup a : NoDup (getParentIds s a).
Proof. rewrite getParentIds_nb. apply nb_NoDup, (wf_sets_rev _ Hwf). Qed.

Lemma scheduler_run :
  exists t st',
    initTables (rev s) (mvalues (idToTodo s)) (mkTables [] [] []) = Ok t /\
    kahnLoop (getChildrenOf s) (tDuration t) (kahnFuel s)
      (mkKahn (rootNodes s) (tIndegree t) (tEarliestStart t)) = Some st' /\
    queue st' = [] /\
    KInv (getParentIds s) K (durationOf s) (dequeued s) st' /\
    earliestStarts s = Ok (earliestStart st').
Proof.
  pose proof (wf_values_ids s Hwf) as Hids.
  destruct (initTables_total (rev s) (mvalues (idToTodo s)) (mkTables [] [] [])) as [t Ht].
  { intros todo Hin. rewrite (wf_keys_rev _ Hwf), <- Hids. now apply in_map. }
  assert (Hfuel : earliestStarts s <> OutOfFuel) by apply earliestStarts_not_fuel.
  unfold earliestStarts in *. unfold dequeued. rewrite Ht in *. simpl in *.
  destruct (kahnLoop _ _ _ _) as [st'|] eqn:Hloop; [|congruence].
  exists t, st'. split; [reflexivity|]. split; [exact Hloop|].
  assert (Hinit : KInv (getParentIds s) K (durationOf s) []
                    (mkKahn (rootNodes s) (tIndegree t) (tEarliestStart t))).
  { constructor; simpl.
    - apply rootNodes_NoDup, wf_rev_NoDup.
    - intros v Hv. apply (rootNodes_In s v wf_rev_NoDup) in Hv.
      apply mget_Some_keys in Hv. unfold K. now rewrite <- (wf_keys_rev _ Hwf).
    - intros v Hv. unfold K in Hv. rewrite <- Hids in Hv.
      destruct (initTables_get _ _ _ _ Ht v) as [_ H2]. destruct (H2 Hv) as [-> _].
      now rewrite unprocessed_nil.
    - intros v Hv. rewrite unprocessed_nil, (rootNodes_In s v wf_rev_NoDup).
      rewrite length_zero_iff_nil, getParentIds_nb. unfold nb.
      unfold K in Hv. rewrite <- (wf_keys_rev _ Hwf) in Hv.
      destruct (mget_keys_Some _ _ Hv) as [l ->].
      split; [intros [= ->]; reflexivity | intros ->; reflexivity].
    - intros v Hv. unfold K in Hv. rewrite <- Hids in Hv.
      destruct (initTables_get _ _ _ _ Ht v) as [_ H2]. destruct (H2 Hv) as [_ ->].
      now rewrite propagated_none.
    - constructor. }
  destruct (KInv_loop (getChildrenOf s) (getParentIds s) K (tDuration t) (durationOf s))
    with (fuel := kahnFuel s) (P := @nil Z)
         (st := mkKahn (rootNodes s) (tIndegree t) (tEarliestStart t)) (st' := st')
    as [HI Hq]; try assumption.
  - apply (wf_mirror _ Hwf).
  - apply (wf_closed _ Hwf).
  - apply wf_children_NoDup.
  - apply wf_parents_NoDup.
  - intros v Hv. unfold K in Hv. destruct (mget_keys_Some _ _ Hv) as [todo Hg].
    assert (Hin : In todo (mvalues (idToTodo s))).
    { unfold mvalues. apply in_map_iff. exists (v, todo). split; [reflexivity|].
      now apply mget_Some_In. }
    pose proof (initTables_duration _ _ _ _ Ht) as Hd.
    rewrite Hids in Hd. specialize (Hd (wf_todo_keys _ Hwf) todo Hin).
    rewrite (wf_ids _ Hwf _ _ Hg) in Hd. rewrite Hd.
    unfold durationOf. now rewrite Hg.
  - auto.
Qed.

End Run.

(** What the loop leaves behind on a well-formed state, cyclic or not. *)
Lemma scheduler_values s :
  wf s ->
  exists es, earliestStarts s = Ok es /\
    NoDup (dequeued s) /\
    (forall v, In v (dequeued s) -> In v (allTodoIds s)) /\
    topo (getParentIds s) (dequeued s) /\
    (forall v, In v (allTodoIds s) ->
       (In v (dequeued s) <-> forall p, In p (getParentIds s v) -> In p (dequeued s))) /\
    (forall c v, reachp (edge s) c c -> reach (edge s) c v -> ~ In v (dequeued s)) /\
    (acyclic (edge s) -> forall v, In v (allTodoIds s) -> In v (dequeued s)) /\
    (forall v, In v (allTodoIds s) ->
       getN es v = Num (propagated (shas (dequeued s))
                          (finish (durationOf s) es) (getParentIds s v))).
Proof.
  intros Hwf. destruct (scheduler_run s Hwf) as [t [st' [Ht [Hloop [Hq [HI He]]]]]].
  exists (earliestStart st'). split; [assumption|].
  pose proof (ki_nodup _ _ _ _ _ HI) as H1.
  pose proof (ki_inK _ _ _ _ _ HI) as H2.
  pose proof (ki_ready _ _ _ _ _ HI) as H4.
  rewrite Hq, app_nil_r in *.
  repeat split; auto.
  - apply (ki_topo _ _ _ _ _ HI).
  - intros Hin. apply unprocessed_zero, H4; assumption.
  - intros Hall. apply H4; [assumption|]. now apply unprocessed_zero.
  - intros c v Hc Hv Hin.
    apply (KInv_cycle (getChildrenOf s) (getParentIds s) (allTodoIds s) (durationOf s)
             (wf_mirror _ Hwf) (dequeued s) st' c v HI Hc Hv).
    now rewrite Hq, app_nil_r.
  - intros Hac. apply (KInv_all_processed (getChildrenOf s) (getParentIds s)
                         (allTodoIds s) (durationOf s) (wf_mirror _ Hwf)
                         (wf_parents_K s Hwf) (dequeued s) st' HI Hq Hac).
  - apply (ki_es _ _ _ _ _ HI).
Qed.

(** The state after the call, read through [earliestStartOf]. *)
Lemma after_calculate s es v :
  wf s -> In v (allTodoIds s) ->
  earliestStartOf (mkDag (adj s) (rev s) (safeTargetsCache s)
                         (mupdateAll (setMinimumHours es) (idToTodo s))) v
  = valueAt es v.
Proof.
  intros Hwf Hv. unfold earliestStartOf. simpl. rewrite mget_mupdateAll.
  destruct (mget_keys_Some _ _ Hv) as [t Hg]. rewrite Hg. simpl.
  now rewrite (wf_ids _ Hwf _ _ Hg).
Qed.

Lemma after_duration s es v :
  durationOf (mkDag (adj s) (rev s) (safeTargetsCache s)
                    (mupdateAll (setMinimumHours es) (idToTodo s))) v
  = durationOf s v.
Proof.
  unfold durationOf. simpl. rewrite mget_mupdateAll.
  now destruct (mget (idToTodo s) v).
Qed.

Lemma durationOf_nonneg s v : durationsNonneg s -> 0 <= durationOf s v.
Proof.
  intros H. unfold durationOf. destruct (mget (idToTodo s) v) eqn:E; [eauto | lia].
Qed.

Lemma wf_edge_K s p d :
  wf s -> edge s p d -> In p (allTodoIds s) /\ In d (allTodoIds s).
Proof.
  intros Hwf He. split; [|apply (wf_closed _ Hwf _ _ He)].
  unfold edge in He. rewrite getChildrenOf_nb in He. apply nb_In_keys in He.
  unfold allTodoIds. now rewrite <- (wf_keys_adj _ Hwf).
Qed.

(** *** Sufficient computable conditions, for concrete states *)

Lemma increasing_edge s : increasing s = true -> forall a b, edge s a b -> a < b.
Proof.
  unfold increasing, edge, getChildrenOf. intros H a b.
  destruct (mget (adj s) a) as [l|] eqn:E; [|intros []].
  apply mget_Some_In in E. rewrite forallb_forall in H. specialize (H _ E).
  simpl in H. rewrite forallb_forall in H. intros Hb. now apply Z.ltb_lt, H.
Qed.

Lemma increasing_acyclic s : increasing s = true -> acyclic (edge s).
Proof.
  intros H v [b [Hvb Hbv]]. pose proof (increasing_edge s H v b Hvb) as Hlt.
  assert (Hle : b <= v).
  { clear Hvb Hlt. induction Hbv as [|a b c Hab Hbc IH]; [lia|].
    pose proof (increasing_edge s H a b Hab). lia. }
  lia.
Qed.

Lemma durationsNonnegb_spec s : durationsNonnegb s = true -> durationsNonneg s.
Proof.
  unfold durationsNonnegb, durationsNonneg. intros H k t Hg.
  apply mget_Some_In in Hg. rewrite forallb_forall in H.
  specialize (H _ Hg). simpl in H. now apply Z.leb_le.
Qed.

(** Scenario 2 of the specification: A(2), B(3), C(4) with A→C and B→C. *)
Definition scenarioABC : list Op :=
  [AddTodo (mkTodo 1 2 0); AddTodo (mkTodo 2 3 0); AddTodo (mkTodo 3 4 0);
   AddDependency 1 3; AddDependency 2 3].

(** C5. On every acyclic state the public interface can build (durations
    non-negative, as the data model has them), the call returns and
    afterwards: every edge prerequisite→dependent has
    earliestStart[dependent] >= earliestStart[prerequisite] +
    duration[prerequisite]; a todo without prerequisites has
    earliestStart 0; a todo with prerequisites attains equality on one of
    its incoming edges.  With A(2), B(3), C(4) and edges A→C, B→C the
    earliest start of C is 3. *)
Theorem C5_scheduler_correct :
  (forall s, wf s -> acyclic (edge s) -> durationsNonneg s ->
     exists s', calculateEarliestStartTimes s = Ok s' /\
       (forall p d, edge s' p d ->
          earliestStartOf s' p + durationOf s' p <= earliestStartOf s' d) /\
       (forall v, hasTodo s' v = true -> getParentIds s' v = [] ->
          earliestStartOf s' v = 0) /\
       (forall d, hasTodo s' d = true -> getParentIds s' d <> [] ->
          exists p, edge s' p d /\
            earliestStartOf s' d = earliestStartOf s' p + durationOf s' p)) /\
  (s <- run scenarioABC emptyDag ;;
   s' <- calculateEarliestStartTimes s ;;
   Ok (earliestStartOf s' 3)) = Ok 3.
Proof.
  split; [|reflexivity].
  intros s Hwf Hac Hdur.
  destruct (scheduler_values s Hwf) as [es [He [_ [_ [_ [_ [_ [Hall Hes]]]]]]]].
  specialize (Hall Hac).
  unfold calculateEarliestStartTimes. rewrite He. simpl.
  eexists. split; [reflexivity|].
  assert (Hval : forall v, In v (allTodoIds s) ->
            valueAt es v = propagated (shas (dequeued s))
                             (finish (durationOf s) es) (getParentIds s v)).
  { intros v Hv. apply valueAt_getN, Hes, Hv. }
  assert (Hproc : forall v p, In p (getParentIds s v) -> shas (dequeued s) p = true).
  { intros v p Hp. apply shas_In, Hall. eapply wf_parents_K; eauto. }
  repeat split.
  - intros p d Hpd. change (edge s p d) in Hpd.
    destruct (wf_edge_K s p d Hwf Hpd) as [Hp Hd].
    rewrite !after_calculate, after_duration by assumption.
    rewrite (Hval d Hd).
    apply (wf_mirror _ Hwf) in Hpd.
    apply (propagated_ge (shas (dequeued s)) (finish (durationOf s) es) _ p Hpd).
    eapply Hproc; eauto.
  - intros v Hv Hroot. change (getParentIds s v = []) in Hroot.
    apply mhas_In in Hv. simpl in Hv. rewrite mkeys_mupdateAll in Hv.
    rewrite after_calculate, (Hval v Hv), Hroot by assumption. reflexivity.
  - intros d Hd Hnr. change (getParentIds s d <> []) in Hnr.
    apply mhas_In in Hd. simpl in Hd. rewrite mkeys_mupdateAll in Hd.
    destruct (propagated_attained (shas (dequeued s)) (finish (durationOf s) es)
                (getParentIds s d)) as [p [Hp [_ Heq]]].
    + intros p Hp _. unfold finish.
      assert (HpK : In p (allTodoIds s)) by (eapply wf_parents_K; eauto).
      rewrite (Hval p HpK).
      pose proof (propagated_nonneg (shas (dequeued s)) (finish (durationOf s) es)
                    (getParentIds s p)).
      pose proof (durationOf_nonneg s p Hdur). lia.
    + destruct (getParentIds s d) as [|p l] eqn:E; [congruence|].
      exists p. split; [now left|]. apply (Hproc d). rewrite E. now left.
    + exists p. split; [now apply (wf_mirror _ Hwf)|].
      assert (HpK : In p (allTodoIds s)) by (eapply wf_parents_K; eauto).
      rewrite !after_calculate, after_duration by assumption.
      rewrite (Hval d Hd). exact Heq.
Qed.

(** Witness for C5: the state of scenario 2. *)
Lemma C5_scheduler_correct_witness :
  exists s, run scenarioABC emptyDag = Ok s /\
    exists s', calculateEarliestStartTimes s = Ok s' /\
      (forall p d, edge s' p d ->
         earliestStartOf s' p + durationOf s' p <= earliestStartOf s' d).
Proof.
  eexists. split; [evaluate|].
  destruct (proj1 C5_scheduler_correct
              (mkDag [(1, [3]); (2, [3]); (3, [])] [(1, []); (2, []); (3, [1; 2])] []
                     [(1, mkTodo 1 2 0); (2, mkTodo 2 3 0); (3, mkTodo 3 4 0)]))
    as [s' [Hc [H1 _]]].
  - apply reachable_wf. exists scenarioABC. evaluate.
  - apply increasing_acyclic. evaluate.
  - apply durationsNonnegb_spec. evaluate.
  - exists s'. split; assumption.
Defined.

(** *** Idempotence *)

Lemma initTables_setMinimumHours r es todos : forall t0,
  initTables r (map (setMinimumHours es) todos) t0 = initTables r todos t0.
Proof.
  induction todos as [|todo todos IH]; intros t0; simpl; [reflexivity|].
  destruct (mget r (id todo)); [apply IH | reflexivity].
Qed.

Lemma mvalues_mupdateAll {V : Type} (f : V -> V) (m : JsMap V) :
  mvalues (mupdateAll f m) = map f (mvalues m).
Proof. unfold mvalues, mupdateAll. rewrite !map_map. reflexivity. Qed.

Lemma earliestStarts_minimumHours s es :
  earliestStarts (mkDag (adj s) (rev s) (safeTargetsCache s)
                        (mupdateAll (setMinimumHours es) (idToTodo s)))
  = earliestStarts s.
Proof.
  unfold earliestStarts, kahnFuel, rootNodes, getChildrenOf. simpl.
  rewrite mvalues_mupdateAll, initTables_setMinimumHours.
  unfold mupdateAll. rewrite length_map. reflexivity.
Qed.

Lemma mupdateAll_setMinimumHours es (m : JsMap Todo) :
  mupdateAll (setMinimumHours es) (mupdateAll (setMinimumHours es) m)
  = mupdateAll (setMinimumHours es) m.
Proof.
  unfold mupdateAll. rewrite map_map. apply map_ext. intros [k t]. reflexivity.
Qed.

(** C7. Calling calculateEarliestStartTimes a second time, with no
    mutation in between, leaves the state (hence every minimumHours)
    exactly as the first call left it; this holds on every state. *)
Theorem C7_calculate_idempotent (s : TodoDAG) :
  (s1 <- calculateEarliestStartTimes s ;; calculateEarliestStartTimes s1)
  = calculateEarliestStartTimes s.
Proof.
  unfold calculateEarliestStartTimes.
  destruct (earliestStarts s) as [es| |] eqn:He; simpl; try reflexivity.
  rewrite earliestStarts_minimumHours, He.
  simpl. now rewrite mupdateAll_setMinimumHours.
Qed.

(** *** Termination and the fate of cyclic parts *)

(** C10. calculateEarliestStartTimes returns on every state (the loop
    bound of the model is never hit).  On every state the public
    interface can build, cyclic ones included, no id is dequeued twice, an
    id is dequeued exactly when all its prerequisites have been, ids on or
    downstream of a cycle are never dequeued, and the earliestStart left
    on any todo is the maximum of 0 and the finish times of its dequeued
    prerequisites. *)
Theorem C10_scheduler_terminates :
  (forall s, calculateEarliestStartTimes s <> OutOfFuel) /\
  (forall s, wf s ->
     exists s', calculateEarliestStartTimes s = Ok s' /\
       NoDup (dequeued s) /\
       (forall v, In v (dequeued s) -> hasTodo s v = true) /\
       (forall v, hasTodo s v = true ->
          (In v (dequeued s) <-> forall p, edge s p v -> In p (dequeued s))) /\
       (forall c v, reachp (edge s) c c -> reach (edge s) c v -> ~ In v (dequeued s)) /\
       (forall v, hasTodo s v = true ->
          earliestStartOf s' v =
          propagated (shas (dequeued s))
            (fun p => earliestStartOf s' p + durationOf s' p) (getParentIds s v))).
Proof.
  split; [apply calculate_not_fuel|].
  intros s Hwf.
  destruct (scheduler_values s Hwf) as [es [He [H1 [H2 [_ [H4 [H5 [_ Hes]]]]]]]].
  unfold calculateEarliestStartTimes. rewrite He. simpl.
  eexists. split; [reflexivity|]. repeat split; auto.
  - intros v Hv. now apply mhas_In, H2.
  - intros Hin p Hp. apply mhas_In in H. apply (H4 v H); [assumption|].
    now apply (wf_mirror _ Hwf).
  - intros Hall. apply mhas_In in H. apply (H4 v H). intros p Hp.
    apply Hall. now apply (wf_mirror _ Hwf).
  - intros v Hv. apply mhas_In in Hv.
    rewrite after_calculate by assumption.
    rewrite (valueAt_getN _ _ _ (Hes v Hv)).
    apply propagated_ext; [reflexivity|].
    intros p Hp _. unfold finish.
    rewrite after_calculate, after_duration; [reflexivity | assumption |].
    eapply wf_parents_K; eauto.
Qed.

(** Witness for C10: the two-todo cycle 1→2→1, reached through
    [addDependency]. *)
Lemma C10_scheduler_terminates_witness :
  exists s', calculateEarliestStartTimes
               (mkDag [(1, [2]); (2, [1])] [(1, [2]); (2, [1])] []
                      [(1, mkTodo 1 1 0); (2, mkTodo 2 1 0)]) = Ok s' /\
             earliestStartOf s' 1 = 0.
Proof.
  destruct (proj2 C10_scheduler_terminates
              (mkDag [(1, [2]); (2, [1])] [(1, [2]); (2, [1])] []
                     [(1, mkTodo 1 1 0); (2, mkTodo 2 1 0)]))
    as [s' [Hc _]].
  - apply reachable_wf.
    exists [AddTodo (mkTodo 1 1 0); AddTodo (mkTodo 2 1 0);
            AddDependency 1 2; AddDependency 2 1].
    evaluate.
  - exists s'. split; [assumption|].
    vm_compute in Hc. injection Hc as <-. reflexivity.
Defined.

Lemma calculate_total s : wf s -> exists s', calculateEarliestStartTimes s = Ok s'.
Proof.
  intros Hwf. destruct (scheduler_values s Hwf) as [es [He _]].
  unfold calculateEarliestStartTimes. rewrite He. simpl. eauto.
Qed.

Lemma calculate_consistent s s' :
  calculateEarliestStartTimes s = Ok s' -> scheduleConsistent s'.
Proof.
  intros Hc. destruct (calculate_inv _ _ Hc) as [es [He ->]].
  exists es. split; [now rewrite earliestStarts_minimumHours|].
  simpl. intros k t. rewrite mget_mupdateAll.
  destruct (mget (idToTodo s) k) as [t0|]; simpl; [|discriminate].
  now intros [= <-].
Qed.

Lemma calculate_graph s s' :
  calculateEarliestStartTimes s = Ok s' ->
  adj s' = adj s /\ rev s' = rev s /\ safeTargetsCache s' = safeTargetsCache s /\
  allTodoIds s' = allTodoIds s /\
  (forall k t, getTodoWithId s k = Some t ->
     exists t', getTodoWithId s' k = Some t' /\ id t' = id t /\ duration t' = duration t).
Proof.
  intros Hc. destruct (calculate_inv _ _ Hc) as [es [He ->]].
  unfold allTodoIds, getTodoWithId. simpl. rewrite mkeys_mupdateAll.
  repeat split. intros k t Hg. rewrite mget_mupdateAll, Hg. simpl. eauto.
Qed.

End DagScheduler.

(** ** The mutators of dag.ts *)

Module DagMutators.
Import Dag DagFacts DagScheduler.

Definition todoA : Todo := mkTodo 1 3 0.
Definition todoB : Todo := mkTodo 2 5 0.

(** Scenario 1 of the specification: A(3), B(5), edge A→B, recomputed. *)
Definition scenarioAB : TodoDAG :=
  mkDag [(1, [2]); (2, [])] [(1, []); (2, [1])] []
        [(1, mkTodo 1 3 0); (2, mkTodo 2 5 3)].

Lemma scenarioAB_reachable : reachable scenarioAB.
Proof.
  exists [AddTodo todoA; AddTodo todoB; AddDependency 1 2; CalculateEarliestStartTimes].
  evaluate.
Qed.

(** C1 (the code at the failing input).  With todos 1 and 2 stored and
    the edge 1→2 present, [addDependency 2 1] reports success and
    commits the edge: todo 1 is then reachable from itself.  The same
    happens for the self-edge [addDependency 1 1]. *)
Theorem C1_addDependency_commits_cycle :
  (exists s s',
     run [AddTodo todoA; AddTodo todoB; AddDependency 1 2] emptyDag = Ok s /\
     addDependency s 2 1 = Ok (true, s') /\
     edge s' 1 2 /\ edge s' 2 1 /\ reachp (edge s') 1 1) /\
  (exists s s',
     run [AddTodo todoA] emptyDag = Ok s /\
     addDependency s 1 1 = Ok (true, s') /\ reachp (edge s') 1 1).
Proof.
  split.
  - eexists. eexists. split; [evaluate|]. split; [evaluate|].
    assert (H12 : edge (mkDag [(1, [2]); (2, [1])] [(1, [2]); (2, [1])] []
                              [(1, mkTodo 1 3 0); (2, mkTodo 2 5 0)]) 1 2)
      by (now left).
    assert (H21 : edge (mkDag [(1, [2]); (2, [1])] [(1, [2]); (2, [1])] []
                              [(1, mkTodo 1 3 0); (2, mkTodo 2 5 0)]) 2 1)
      by (now left).
    repeat split; try assumption.
    exists 2. split; [assumption|].
    eapply reach_step; [exact H21 | apply reach_refl].
  - eexists. eexists. split; [evaluate|]. split; [evaluate|].
    exists 1. split; [now left | apply reach_refl].
Qed.

(** The guard of [addDependency] is the existence of both endpoints and
    nothing else. *)
Lemma addDependency_unguarded s from to :
  wf s -> hasTodo s from = true -> hasTodo s to = true ->
  exists s', addDependency s from to = Ok (true, s') /\ edge s' from to.
Proof.
  intros Hwf Hf Ht. unfold addDependency. rewrite Hf, Ht. simpl.
  assert (Ha : In from (mkeys (adj s))).
  { rewrite (wf_keys_adj _ Hwf). now apply mhas_In. }
  assert (Hr : In to (mkeys (rev s))).
  { rewrite (wf_keys_rev _ Hwf). now apply mhas_In. }
  destruct (mget_keys_Some _ _ Ha) as [targets ->].
  destruct (mget_keys_Some _ _ Hr) as [sources ->].
  eexists. split; [reflexivity|].
  unfold edge. rewrite getChildrenOf_nb. simpl. rewrite nb_mset, Z.eqb_refl.
  apply sadd_In. now left.
Qed.

(** C4 (the code at the failing input).  After [addTodo 1],
    [getSafeTargets 1], [addTodo 2], the cached answer for todo 1 is
    still the empty list, although todo 1 is not reachable from todo 2:
    [addTodo] does not clear the cache. *)
Theorem C4_stale_safe_targets :
  exists s s',
    run [AddTodo todoA; GetSafeTargets 1; AddTodo todoB] emptyDag = Ok s /\
    hasTodo s 1 = true /\ hasTodo s 2 = true /\
    ~ reach (edge s) 2 1 /\
    getSafeTargets s 1 = Ok ([], s').
Proof.
  eexists. eexists. split; [evaluate|].
  split; [evaluate|]. split; [evaluate|]. split; [|evaluate].
  intros H. inversion H as [|a b c Hab Hbc]; subst. destruct Hab.
Qed.

(** On a cache miss the answer of [getSafeTargets] is exactly the
    todos from which [from] cannot be reached. *)
Lemma getSafeTargets_fresh s from :
  wf s -> mget (safeTargetsCache s) from = None ->
  exists r s', getSafeTargets s from = Ok (r, s') /\
    forall d, In d r <-> hasTodo s d = true /\ ~ reach (edge s) d from.
Proof.
  intros Hwf Hmiss. unfold getSafeTargets. rewrite Hmiss.
  destruct (computeSafeTargets_total s from) as [r Hr]. rewrite Hr. simpl.
  eexists. eexists. split; [reflexivity|].
  intros d. rewrite (computeSafeTargets_spec s from r Hwf Hr d).
  unfold hasTodo. now rewrite mhas_In.
Qed.

(** *** Recomputation discipline (C3) *)

(** C3 as stated fails: [addDependency] returns without recomputing.
    After A(3), B(5) are added and [addDependency 1 2] succeeds, B still
    carries minimumHours 0 while the scheduler's value on the new edge
    set is 3. *)
Lemma C3_counterexample :
  exists s s',
    run [AddTodo todoA; AddTodo todoB] emptyDag = Ok s /\
    addDependency s 1 2 = Ok (true, s') /\
    ~ scheduleConsistent s'.
Proof.
  eexists. eexists. split; [evaluate|]. split; [evaluate|].
  intros [es [He H]]. vm_compute in He. injection He as <-.
  specialize (H 2 (mkTodo 2 5 0) eq_refl). vm_compute in H. discriminate.
Qed.

(** C3, amended.  On every state the public interface can build:
    [addTodo] recomputes before returning; [deleteDependency] changes
    nothing when the edge from→to does not exist, and when it exists
    clears the safe-target cache and recomputes before returning;
    [deleteNode] clears the safe-target cache and recomputes before
    returning; a successful [addDependency] clears the cache and leaves
    every stored todo as it was, and the values are consistent again as
    soon as [calculateEarliestStartTimes] is called. *)
Theorem C3_recompute_discipline (s : TodoDAG) (Hwf : wf s) :
  (forall todo, exists s', addTodo s todo = Ok s' /\ scheduleConsistent s') /\
  (forall from to, exists s', deleteDependency s from to = Ok s' /\
     (~ edge s from to -> s' = s) /\
     (edge s from to -> safeTargetsCache s' = [] /\ scheduleConsistent s')) /\
  (forall node, exists s', deleteNode s node = Ok s' /\
     safeTargetsCache s' = [] /\ scheduleConsistent s') /\
  (forall from to s', addDependency s from to = Ok (true, s') ->
     safeTargetsCache s' = [] /\ idToTodo s' = idToTodo s /\
     exists s'', calculateEarliestStartTimes s' = Ok s'' /\ scheduleConsistent s'').
Proof.
  repeat split.
  - intros todo. unfold addTodo.
    destruct (calculate_total _ (wf_storeTodo s todo Hwf)) as [s' Hs'].
    exists s'. split; [assumption | eapply calculate_consistent; eauto].
  - intros from to.
    assert (Hno : hasTodo s from = false \/ hasTodo s to = false -> ~ edge s from to).
    { intros H He. destruct (wf_edge_K s from to Hwf He) as [Hp Hd].
      apply mhas_In in Hp, Hd. unfold hasTodo in H. destruct H; congruence. }
    unfold deleteDependency, hasDependency.
    destruct (hasTodo s from) eqn:Hf; simpl.
    2:{ exists s. split; [reflexivity|]. split; [reflexivity|].
        intros He. exfalso. apply Hno; auto. }
    destruct (hasTodo s to) eqn:Ht; simpl.
    2:{ exists s. split; [reflexivity|]. split; [reflexivity|].
        intros He. exfalso. apply Hno; auto. }
    assert (Ha : In from (mkeys (adj s))).
    { rewrite (wf_keys_adj _ Hwf). now apply mhas_In. }
    assert (Hr : In to (mkeys (rev s))).
    { rewrite (wf_keys_rev _ Hwf). now apply mhas_In. }
    destruct (mget (adj s) from) as [targets|] eqn:Ea;
      [|apply mget_None in Ea; contradiction].
    destruct (mget (rev s) to) as [sources|] eqn:Er;
      [|apply mget_None in Er; contradiction].
    assert (Hedge : edge s from to <-> In to targets).
    { unfold edge, getChildrenOf. now rewrite Ea. }
    simpl. destruct (shas targets to) eqn:Hpresent; simpl.
    2:{ apply shas_false in Hpresent. exists s.
        split; [reflexivity|]. split; [reflexivity|].
        intros He. apply Hedge in He. contradiction. }
    apply shas_In in Hpresent.
    pose proof (wf_removeEdge s from to Hwf Ha Hr) as Hwf'.
    unfold nb in Hwf'. rewrite Ea, Er in Hwf'.
    destruct (calculate_total _ Hwf') as [s' Hs'].
    exists s'. split; [assumption|]. split.
    { intros Hn. exfalso. now apply Hn, Hedge. }
    intros _. split; [|eapply calculate_consistent; eauto].
    now destruct (calculate_graph _ _ Hs') as [_ [_ [-> _]]].
  - intros node. unfold deleteNode.
    destruct (calculate_total _ (wf_removeNode s node Hwf)) as [s' Hs'].
    exists s'. split; [assumption|].
    split; [|eapply calculate_consistent; eauto].
    now destruct (calculate_graph _ _ Hs') as [_ [_ [-> _]]].
  - destruct (addDependency_inv _ _ _ _ _ H) as [[Hb _] | [_ [_ [_ [-> _]]]]];
      [discriminate | reflexivity].
  - destruct (addDependency_inv _ _ _ _ _ H) as [[Hb _] | [_ [_ [_ [-> _]]]]];
      [discriminate | reflexivity].
  - destruct (calculate_total s') as [s'' Hs''].
    + eapply wf_addDependency; eauto.
    + exists s''. split; [assumption | eapply calculate_consistent; eauto].
Qed.

(** Witness for C3: scenario 1, deleting its dependency 1→2. *)
Lemma C3_recompute_discipline_witness :
  exists s', deleteDependency scenarioAB 1 2 = Ok s' /\
             safeTargetsCache s' = [] /\ scheduleConsistent s'.
Proof.
  destruct (proj1 (proj2 (C3_recompute_discipline scenarioAB
                            (reachable_wf _ scenarioAB_reachable))) 1 2)
    as [s' [Hd [_ Hyes]]].
  exists s'. split; [exact Hd|]. apply Hyes. unfold edge. vm_compute. auto.
Defined.

(** *** addTodo on a stored id (C9) *)

(** C9 as stated fails: on scenario 1, [addTodo] with id 1 and duration
    7 replaces the stored todo 1 and moves the earliest start of todo 2
    from 3 to 7. *)
Lemma C9_counterexample :
  hasTodo scenarioAB 1 = true /\
  exists s', addTodo scenarioAB (mkTodo 1 7 0) = Ok s' /\
    getTodoWithId scenarioAB 1 = Some (mkTodo 1 3 0) /\
    getTodoWithId s' 1 = Some (mkTodo 1 7 0) /\
    getTodoWithId scenarioAB 2 = Some (mkTodo 2 5 3) /\
    getTodoWithId s' 2 = Some (mkTodo 2 5 7).
Proof.
  split; [evaluate|]. eexists. split; [evaluate|]. repeat split.
Qed.

(** C9, amended.  When the id is already stored, [addTodo] leaves both
    adjacency maps, the safe-target cache and the set of ids unchanged
    (no existing edge is lost) and every other todo keeps its id and
    duration; the stored todo of that id is replaced by the one passed
    in, and minimumHours of every todo is recomputed. *)
Theorem C9_addTodo_existing (s : TodoDAG) (todo : Todo)
    (Hwf : wf s) (Hhas : hasTodo s (id todo) = true) :
  exists s', addTodo s todo = Ok s' /\
    adj s' = adj s /\ rev s' = rev s /\
    safeTargetsCache s' = safeTargetsCache s /\
    allTodoIds s' = allTodoIds s /\
    (exists t', getTodoWithId s' (id todo) = Some t' /\
       id t' = id todo /\ duration t' = duration todo) /\
    (forall k t, k <> id todo -> getTodoWithId s k = Some t ->
       exists t', getTodoWithId s' k = Some t' /\
         id t' = id t /\ duration t' = duration t) /\
    scheduleConsistent s'.
Proof.
  pose proof (wf_storeTodo s todo Hwf) as Hwf1.
  destruct (calculate_total _ Hwf1) as [s' Hs'].
  exists s'. split; [exact Hs'|].
  destruct (calculate_graph _ _ Hs') as [Ha [Hr [Hc [Hk Ht]]]].
  assert (Hin : In (id todo) (mkeys (idToTodo s))) by now apply mhas_In.
  assert (Hadj : mhas (adj s) (id todo) = true).
  { apply mhas_In. now rewrite (wf_keys_adj _ Hwf). }
  unfold addNode in *. simpl in *. rewrite Hadj in *. simpl in *.
  repeat split; try assumption.
  - rewrite Hk. unfold allTodoIds. simpl. now apply mkeys_mset_has.
  - apply (Ht (id todo) todo). unfold getTodoWithId. simpl. apply mget_mset_eq.
  - intros k t Hne Hg. apply (Ht k t). unfold getTodoWithId in *. simpl.
    rewrite mget_mset_neq; auto.
  - eapply calculate_consistent; eauto.
Qed.

(** Witness for C9: scenario 1 and a todo with id 1. *)
Lemma C9_addTodo_existing_witness :
  exists s', addTodo scenarioAB (mkTodo 1 7 0) = Ok s' /\ adj s' = adj scenarioAB.
Proof.
  destruct (C9_addTodo_existing scenarioAB (mkTodo 1 7 0)
              (reachable_wf _ scenarioAB_reachable) eq_refl)
    as [s' [H1 [H2 _]]].
  exists s'. split; assumption.
Defined.

End DagMutators.

(** ** The memoised longest-path search *)

Section MaxPath.

Variable entriesOf : Z -> option (list (Z * Z)).

(** Neighbours and edge weights as the search sees them. *)
Definition nbrsOf (n : Z) : list Z :=
  match entriesOf n with
  | Some es => map fst es
  | None => []
  end.

Definition weightOf (a b : Z) : Z :=
  match entriesOf a with
  | Some es => match mget es b with
               | Some x => x
               | None => 0
               end
  | None => 0
  end.

Let E (a b : Z) : Prop := In b (nbrsOf a).

(** A forward path that cannot be extended: consecutive ids are edges
    and the last id has no neighbours. *)
Fixpoint fullPath (l : list Z) : Prop :=
  match l with
  | [] => False
  | a :: l' =>
    match l' with
    | [] => nbrsOf a = []
    | b :: _ => E a b /\ fullPath l'
    end
  end.

(** [r] is a correct answer for [n]: a maximal-weight full path from [n]. *)
Definition good (n : Z) (r : PathResult) : Prop :=
  hd_error (path r) = Some n /\
  fullPath (path r) /\
  weight r = Fin (pathWeight weightOf (path r)) /\
  forall l, hd_error l = Some n -> fullPath l ->
    pathWeight weightOf l <= pathWeight weightOf (path r).

Definition memoOk (memo : Memo) : Prop :=
  forall n r, mget memo n = Some r -> good n r.

(** State of the [for] loop after the entries [done]. *)
Definition loopInv (done : list (Z * Z)) (maxWeight : weightT) (bestPath : list Z) : Prop :=
  (done = [] /\ maxWeight = NegInf) \/
  (exists b x, In (b, x) done /\ hd_error bestPath = Some b /\ fullPath bestPath /\
     maxWeight = Fin (x + pathWeight weightOf bestPath) /\
     forall b' x' l', In (b', x') done -> hd_error l' = Some b' -> fullPath l' ->
       x' + pathWeight weightOf l' <= x + pathWeight weightOf bestPath).

Definition solves (rec : Z -> Memo -> result (PathResult * Memo)) (b : Z) : Prop :=
  forall memo, memoOk memo ->
    exists r memo', rec b memo = Ok (r, memo') /\ good b r /\ memoOk memo'.

Lemma memoOk_mset memo n r : memoOk memo -> good n r -> memoOk (mset memo n r).
Proof.
  intros Hm Hg k r'. rewrite mget_mset. destruct (n =? k) eqn:E0.
  - apply Z.eqb_eq in E0. subst. now intros [= <-].
  - apply Hm.
Qed.

Lemma maxLoop_spec rec : forall es done maxWeight bestPath memo,
  (forall b x, In (b, x) es -> solves rec b) ->
  memoOk memo -> loopInv done maxWeight bestPath ->
  exists mw bp memo',
    maxLoop rec es maxWeight bestPath memo = Ok (mw, bp, memo') /\
    memoOk memo' /\ loopInv (done ++ es) mw bp.
Proof.
  induction es as [|[b x] es IH]; intros done mw bp memo Hrec Hm Hinv; simpl.
  - rewrite app_nil_r. eauto 6.
  - destruct (Hrec b x (or_introl eq_refl) memo Hm) as [r [memo1 [Hr [Hg Hm1]]]].
    rewrite Hr. simpl.
    destruct Hg as [G1 [G2 [G3 G4]]].
    assert (Hrec' : forall b0 x0, In (b0, x0) es -> solves rec b0).
    { intros b0 x0 Hin. apply (Hrec b0 x0). now right. }
    assert (Hnext : forall mw1 bp1, loopInv (done ++ [(b, x)]) mw1 bp1 ->
              exists mw2 bp2 memo2,
                maxLoop rec es mw1 bp1 memo1 = Ok (mw2, bp2, memo2) /\
                memoOk memo2 /\ loopInv (done ++ (b, x) :: es) mw2 bp2).
    { intros mw1 bp1 Hi.
      destruct (IH (done ++ [(b, x)]) mw1 bp1 memo1 Hrec' Hm1 Hi)
        as [mw2 [bp2 [memo2 [H1 [H2 H3]]]]].
      rewrite <- app_assoc in H3. simpl in H3. eauto 6. }
    rewrite G3. simpl.
    destruct Hinv as [[Hd Hw] | [b0 [x0 [I1 [I2 [I3 [Hw I5]]]]]]]; rewrite Hw; simpl.
    + apply Hnext. right. exists b, x. subst done.
      repeat split; auto; [now left|].
      intros b' x' l' [[= <- <-] | []] Hh Hf. specialize (G4 l' Hh Hf). lia.
    + destruct (x0 + pathWeight weightOf bp <? x + pathWeight weightOf (path r)) eqn:Hlt.
      * apply Z.ltb_lt in Hlt. apply Hnext. right. exists b, x.
        repeat split; auto; [apply in_or_app; right; now left|].
        intros b' x' l' Hin Hh Hf. apply in_app_iff in Hin.
        destruct Hin as [Hin | [[= <- <-] | []]].
        -- specialize (I5 b' x' l' Hin Hh Hf). lia.
        -- specialize (G4 l' Hh Hf). lia.
      * apply Z.ltb_ge in Hlt. apply Hnext. right. exists b0, x0.
        repeat split; auto; [apply in_or_app; now left|].
        intros b' x' l' Hin Hh Hf. apply in_app_iff in Hin.
        destruct Hin as [Hin | [[= <- <-] | []]].
        -- exact (I5 b' x' l' Hin Hh Hf).
        -- specialize (G4 l' Hh Hf). lia.
Qed.

Hypothesis entries_NoDup : forall n es, entriesOf n = Some es -> NoDup (mkeys es).

Lemma weightOf_entry a es b x :
  entriesOf a = Some es -> In (b, x) es -> weightOf a b = x.
Proof.
  intros He Hin. unfold weightOf. rewrite He.
  now rewrite (In_mget es b x (entries_NoDup a es He) Hin).
Qed.

Lemma findMaxPath_step f v :
  (forall c, E v c -> solves (findMaxPath entriesOf f) c) ->
  solves (findMaxPath entriesOf (S f)) v.
Proof.
  intros Hrec memo Hm. simpl.
  destruct (mget memo v) as [r|] eqn:Hhit.
  { exists r, memo. auto. }
  assert (Hleaf : nbrsOf v = [] ->
            good v (mkPath (Fin 0) [v])).
  { intros Hn. repeat split; simpl; auto.
    intros l Hh Hf. destruct l as [|a [|b l]]; simpl in *; try lia.
    injection Hh as ->. destruct Hf as [Hab _]. unfold E in Hab.
    rewrite Hn in Hab. destruct Hab. }
  destruct (entriesOf v) as [[|[b0 x0] es]|] eqn:He.
  - eexists. eexists. split; [reflexivity|].
    assert (Hg : good v (mkPath (Fin 0) [v])) by (apply Hleaf; unfold nbrsOf; now rewrite He).
    split; [assumption | now apply memoOk_mset].
  - destruct (maxLoop_spec (findMaxPath entriesOf f) ((b0, x0) :: es) [] NegInf [] memo)
      as [mw [bp [memo' [Hl [Hm' Hinv]]]]].
    + intros b x Hin. apply Hrec. unfold E, nbrsOf. rewrite He.
      change b with (fst (b, x)). now apply in_map.
    + assumption.
    + left. auto.
    + rewrite Hl. simpl. eexists. eexists. split; [reflexivity|].
      destruct Hinv as [[Hnil _] | [b [x [I1 [I2 [I3 [-> I5]]]]]]]; [discriminate|].
      simpl in I1.
      assert (Hg : good v (mkPath (Fin (x + pathWeight weightOf bp)) (v :: bp))).
      { destruct bp as [|b' bp]; [discriminate|]. injection I2 as ->.
        assert (Hvb : E v b).
        { unfold E, nbrsOf. rewrite He. change b with (fst (b, x)). now apply in_map. }
        repeat split; simpl; auto.
        - now rewrite (weightOf_entry v _ b x He I1).
        - intros l Hh Hf. destruct l as [|a [|c l]]; simpl in *; try discriminate.
          + injection Hh as ->. unfold nbrsOf in Hf. rewrite He in Hf. discriminate.
          + injection Hh as ->. destruct Hf as [Hvc Hf].
            unfold E, nbrsOf in Hvc. rewrite He in Hvc.
            apply in_map_iff in Hvc. destruct Hvc as [[c' xc] [Hc Hin]].
            simpl in Hc. subst c'.
            rewrite (weightOf_entry v _ c xc He Hin).
            rewrite (weightOf_entry v _ b x He I1).
            exact (I5 c xc (c :: l) Hin eq_refl Hf). }
      split; [assumption | now apply memoOk_mset].
  - eexists. eexists. split; [reflexivity|].
    assert (Hg : good v (mkPath (Fin 0) [v])) by (apply Hleaf; unfold nbrsOf; now rewrite He).
    split; [assumption | now apply memoOk_mset].
Qed.

Variable K : list Z.
Hypothesis closed : forall a b, E a b -> In b K.
Hypothesis acyc : acyclic E.

(** With no cycle the search returns within depth [length K]. *)
Lemma findMaxPath_good root :
  In root K ->
  exists r memo', findMaxPath entriesOf (S (length K)) root [] = Ok (r, memo') /\
    good root r.
Proof.
  intros Hroot.
  assert (H : solves (findMaxPath entriesOf (S (length K))) root).
  { apply (bounded_descent E K closed acyc
             (fun f v => solves (findMaxPath entriesOf f) v))
      with (anc := []); try assumption.
    - intros f v _ Hc. now apply findMaxPath_step.
    - constructor.
    - intros x [].
    - intros a [].
    - simpl. lia. }
  destruct (H []) as [r [memo' [Hr [Hg _]]]]; [intros n r; discriminate|].
  eauto.
Qed.

Lemma fullPath_chain l : fullPath l -> chain E l /\ nbrsOf (last l 0) = [].
Proof.
  induction l as [|a l IH]; simpl; [tauto|].
  destruct l as [|b l]; [auto|].
  intros [Hab Hf]. destruct (IH Hf) as [H1 H2]. auto.
Qed.

End MaxPath.

Lemma acyclic_ext (E E' : Z -> Z -> Prop) :
  (forall a b, E' a b -> E a b) -> acyclic E -> acyclic E'.
Proof.
  intros H Hac v [b [Hvb Hbv]]. apply (Hac v). exists b. split; [auto|].
  revert Hbv. now apply reach_ext.
Qed.

Lemma chain_ext (E E' : Z -> Z -> Prop) :
  (forall a b, E a b -> E' a b) -> forall l, chain E l -> chain E' l.
Proof.
  intros H l. induction l as [|a l IH]; simpl; [auto|].
  destruct l as [|b l]; [auto|]. intros [Hab Hc]. split; auto.
Qed.

Lemma last_default (l : list Z) (d d' : Z) : l <> [] -> last l d = last l d'.
Proof.
  induction l as [|a l IH]; [congruence|]. intros _. simpl.
  destruct l as [|b l]; [reflexivity|]. apply IH. discriminate.
Qed.

(** ** The critical-path finder of dag.ts *)

Module DagCriticalPath.
Import Dag DagFacts.

Lemma nbrsOf_entriesOf s n : nbrsOf (entriesOf s) n = getChildrenOf s n.
Proof.
  unfold nbrsOf, entriesOf, getChildrenOf. destruct (mget (adj s) n) as [l|]; [|reflexivity].
  rewrite map_map. simpl. apply map_id.
Qed.

(** In dag.ts the weight the search adds for an edge is the id of its
    target. *)
Lemma weightOf_entriesOf s a b : edge s a b -> weightOf (entriesOf s) a b = b.
Proof.
  unfold edge, weightOf, entriesOf, getChildrenOf.
  destruct (mget (adj s) a) as [l|]; [|intros []].
  induction l as [|c l IH]; simpl; [intros []|].
  destruct (c =? b) eqn:E0.
  - apply Z.eqb_eq in E0. now subst.
  - apply Z.eqb_neq in E0. intros [H | H]; [contradiction | auto].
Qed.

(** The diamond of scenario 5, the todos created in the order A, C, B, D:
    A = 1 (duration 1), C = 2 (duration 5), B = 3 (duration 2),
    D = 4 (duration 1); edges A→B, A→C, B→D, C→D. *)
Definition diamond : list Op :=
  [AddTodo (mkTodo 1 1 0); AddTodo (mkTodo 2 5 0); AddTodo (mkTodo 3 2 0);
   AddTodo (mkTodo 4 1 0);
   AddDependency 1 3; AddDependency 1 2; AddDependency 3 4; AddDependency 2 4;
   CalculateEarliestStartTimes].

(** Sum, along a path, of the duration of the source of every edge. *)
Definition durationWeight (s : TodoDAG) (l : list Z) : Z :=
  pathWeight (fun a _ => durationOf s a) l.

(** C2 (the code at the failing input).  On the diamond above
    [getCriticalPath 1] returns the path through B (id 3), whose
    cumulative duration weight is 1+2 = 3, although the path through C
    (id 2) is a forward path of weight 1+5 = 6: the weights the search
    adds are the ids of the targets, not the durations of the sources. *)
Theorem C2_critical_path_on_diamond :
  exists s, run diamond emptyDag = Ok s /\
    getCriticalPath s 1 = Ok [1; 3; 4] /\
    chain (edge s) [1; 2; 4] /\ getChildrenOf s 4 = [] /\
    durationWeight s [1; 3; 4] = 3 /\
    durationWeight s [1; 2; 4] = 6.
Proof.
  eexists. split; [evaluate|]. split; [evaluate|].
  repeat split; try evaluate; unfold edge; vm_compute; auto.
Qed.

(** C8. On every acyclic state the public interface can build,
    [getCriticalPath root] is the empty sequence when [root] is not
    stored; when it is stored the call returns a non-empty sequence that
    starts with [root], whose consecutive ids are forward edges, and
    whose last id has no dependents. *)
Theorem C8_critical_path_shape (s : TodoDAG) (root : Z)
    (Hwf : wf s) (Hac : acyclic (edge s)) :
  (hasTodo s root = false -> getCriticalPath s root = Ok []) /\
  (hasTodo s root = true ->
     exists p, getCriticalPath s root = Ok p /\
       hd_error p = Some root /\
       chain (edge s) p /\
       getChildrenOf s (last p root) = []).
Proof.
  unfold getCriticalPath, hasTodo. split; intros Hhas; rewrite Hhas; [reflexivity|].
  cbn [negb].
  destruct (findMaxPath_good (entriesOf s)) with (K := mkeys (adj s)) (root := root)
    as [r [memo' [Hr [H1 [H2 _]]]]].
  - intros n es. unfold entriesOf. destruct (mget (adj s) n) as [l|] eqn:E0; [|discriminate].
    intros [= <-]. unfold mkeys. rewrite map_map. simpl. rewrite map_id.
    eapply (wf_sets_adj _ Hwf); eauto.
  - intros a b. rewrite nbrsOf_entriesOf, (wf_keys_adj _ Hwf). apply (wf_closed _ Hwf).
  - revert Hac. apply acyclic_ext. intros a b. now rewrite nbrsOf_entriesOf.
  - rewrite (wf_keys_adj _ Hwf). now apply mhas_In.
  - unfold mkeys in Hr. rewrite length_map in Hr. rewrite Hr.
    exists (path r). split; [reflexivity|]. split; [assumption|].
    destruct (fullPath_chain _ _ H2) as [Hc Hl]. split.
    + revert Hc. apply chain_ext. intros a b. now rewrite nbrsOf_entriesOf.
    + rewrite nbrsOf_entriesOf in Hl. rewrite (last_default _ root 0); [assumption|].
      intros Hnil. rewrite Hnil in H1. discriminate.
Qed.

(** Witness for C8: the diamond, from its source. *)
Lemma C8_critical_path_shape_witness :
  exists p, getCriticalPath
              (mkDag [(1, [3; 2]); (2, [4]); (3, [4]); (4, [])]
                     [(1, []); (2, [1]); (3, [1]); (4, [3; 2])] []
                     [(1, mkTodo 1 1 0); (2, mkTodo 2 5 1); (3, mkTodo 3 2 1);
                      (4, mkTodo 4 1 6)]) 1 = Ok p /\
            hd_error p = Some 1.
Proof.
  destruct (C8_critical_path_shape
              (mkDag [(1, [3; 2]); (2, [4]); (3, [4]); (4, [])]
                     [(1, []); (2, [1]); (3, [1]); (4, [3; 2])] []
                     [(1, mkTodo 1 1 0); (2, mkTodo 2 5 1); (3, mkTodo 3 2 1);
                      (4, mkTodo 4 1 6)]) 1) as [_ H].
  - apply reachable_wf. exists diamond. evaluate.
  - apply DagScheduler.increasing_acyclic. evaluate.
  - destruct (H eq_refl) as [p [Hp [Hh _]]]. exists p. split; assumption.
Defined.

End DagCriticalPath.

(** ** The two cycle guards *)

Lemma mget_map_values {V W : Type} (f : V -> W) (m : JsMap V) (k : Z) :
  mget (map (fun e => (fst e, f (snd e))) m) k = option_map f (mget m k).
Proof.
  induction m as [|[k' v] m IH]; simpl; [reflexivity|].
  destruct (k' =? k); [reflexivity | exact IH].
Qed.

Lemma mkeys_map_values {V W : Type} (f : V -> W) (m : JsMap V) :
  mkeys (map (fun e => (fst e, f (snd e))) m) = mkeys m.
Proof. unfold mkeys. rewrite map_map. reflexivity. Qed.

Module CycleGuards.

(** The same ids, the same reverse adjacency, and the same forward
    adjacency once the stored weights are dropped. *)
Definition sameGraph (s : Dag.TodoDAG) (w : Weighted.TodoDAG) : Prop :=
  Dag.allTodoIds s = Weighted.allTodoIds w /\
  Dag.rev s = Weighted.rev w /\
  Dag.adj s = map (fun e => (fst e, mkeys (snd e))) (Weighted.adj w).

Definition degreesW (m : JsMap (JsMap Z)) : JsMap nat :=
  map (fun e => (fst e, length (snd e))) m.

Lemma degreeIn_degreesW w k :
  degreeIn (degreesW (Weighted.adj w)) k = length (Weighted.getChildrenOf w k).
Proof.
  unfold degreeIn, degreesW, Weighted.getChildrenOf.
  rewrite (mget_map_values (fun l : JsMap Z => length l)).
  destruct (mget (Weighted.adj w) k); simpl; [|reflexivity].
  unfold mkeys. now rewrite length_map.
Qed.

Lemma remaining_degreesW m : remaining (degreesW m) [] = Weighted.edgeCount m.
Proof.
  unfold degreesW, Weighted.edgeCount. induction m as [|[k l] m IH]; simpl; [reflexivity|].
  now rewrite IH.
Qed.

Lemma isReachable_total w start target :
  exists b, Weighted.isReachable w start target = Some b.
Proof.
  unfold Weighted.isReachable.
  apply (reachLoop_total (Weighted.getChildrenOf w) (degreesW (Weighted.adj w))).
  - intros k. rewrite degreeIn_degreesW. lia.
  - rewrite remaining_degreesW. simpl. lia.
Qed.

Lemma isReachable_spec w start target b :
  Weighted.isReachable w start target = Some b ->
  (b = true <-> reach (Weighted.edge w) start target).
Proof. unfold Weighted.isReachable. apply reachLoop_reach. Qed.

Lemma safeLoop_spec w from : forall candidates safe,
  exists r, Weighted.safeLoop w from candidates safe = Ok r /\
    forall d, In d r <->
      In d safe \/ (In d candidates /\ d <> from /\ ~ reach (Weighted.edge w) d from).
Proof.
  induction candidates as [|c cs IH]; intros safe; simpl.
  - exists safe. split; [reflexivity|]. intros d. tauto.
  - destruct (c =? from) eqn:Ec.
    + apply Z.eqb_eq in Ec. subst c. destruct (IH safe) as [r [Hr Hspec]].
      exists r. split; [assumption|]. intros d. rewrite Hspec.
      intuition (subst; congruence).
    + apply Z.eqb_neq in Ec.
      destruct (isReachable_total w c from) as [b Hb]. rewrite Hb.
      pose proof (isReachable_spec w c from b Hb) as Hs. destruct b.
      * destruct (IH safe) as [r [Hr Hspec]].
        exists r. split; [assumption|]. intros d. rewrite Hspec.
        assert (reach (Weighted.edge w) c from) by now apply Hs.
        intuition (subst; tauto).
      * destruct (IH (safe ++ [c])) as [r [Hr Hspec]].
        exists r. split; [assumption|]. intros d. rewrite Hspec, in_app_iff. simpl.
        assert (~ reach (Weighted.edge w) c from).
        { intros Hr'. apply Hs in Hr'. discriminate. }
        intuition (subst; tauto).
Qed.

(** The probe method, on any state: the stored ids other than [from]
    from which [from] is not reachable. *)
Lemma probe_spec w from :
  exists r, Weighted.computeSafeTargets w from = Ok r /\
    forall d, In d r <->
      In d (mkeys (Weighted.adj w)) /\ d <> from /\ ~ reach (Weighted.edge w) d from.
Proof.
  unfold Weighted.computeSafeTargets.
  destruct (safeLoop_spec w from (mkeys (Weighted.adj w)) []) as [r [Hr Hs]].
  exists r. split; [assumption|]. intros d. rewrite Hs. simpl. tauto.
Qed.

Lemma sameGraph_children s w k :
  sameGraph s w -> Dag.getChildrenOf s k = Weighted.getChildrenOf w k.
Proof.
  intros [_ [_ Ha]]. unfold Dag.getChildrenOf, Weighted.getChildrenOf.
  rewrite Ha, mget_map_values. now destruct (mget (Weighted.adj w) k).
Qed.

Lemma sameGraph_reach s w a b :
  sameGraph s w -> (reach (Dag.edge s) a b <-> reach (Weighted.edge w) a b).
Proof.
  intros H. split; apply reach_ext; intros x y; unfold Dag.edge, Weighted.edge;
    now rewrite (sameGraph_children s w x H).
Qed.

(** C6. On every state the public interface can build, the safe-target
    list computed by the ancestor walk over reverse adjacency (dag.ts)
    and the one computed by the per-candidate forward-reachability probe
    (weighted revision) are both produced and hold the same ids. *)
Theorem C6_cycle_guards_agree (s : Dag.TodoDAG) (w : Weighted.TodoDAG) (p : Z)
    (Hwf : Dag.wf s) (Hsame : sameGraph s w) :
  exists byAncestors byProbe,
    Dag.computeSafeTargets s p = Ok byAncestors /\
    Weighted.computeSafeTargets w p = Ok byProbe /\
    forall d, In d byAncestors <-> In d byProbe.
Proof.
  destruct (DagFacts.computeSafeTargets_total s p) as [ra Hra].
  destruct (probe_spec w p) as [rp [Hrp Hp]].
  exists ra, rp. split; [assumption|]. split; [assumption|].
  intros d. rewrite (DagFacts.computeSafeTargets_spec s p ra Hwf Hra d), Hp.
  rewrite (sameGraph_reach s w d p Hsame).
  assert (Hk : mkeys (Weighted.adj w) = Dag.allTodoIds s).
  { destruct Hsame as [_ [_ Ha]]. unfold Dag.allTodoIds.
    rewrite <- (Dag.wf_keys_adj _ Hwf), Ha. now rewrite mkeys_map_values. }
  rewrite Hk. split; [|tauto].
  intros [H1 H2]. repeat split; try assumption.
  intros ->. apply H2, reach_refl.
Qed.

(** Witness for C6: scenario 1 in both representations. *)
Lemma C6_cycle_guards_agree_witness :
  exists byAncestors byProbe,
    Dag.computeSafeTargets DagMutators.scenarioAB 2 = Ok byAncestors /\
    Weighted.computeSafeTargets
      (Weighted.mkDag [(1, [(2, 3)]); (2, [])] [(1, []); (2, [1])] []
         [(1, Weighted.mkTodo 1 3 (Num 0)); (2, Weighted.mkTodo 2 5 (Num 3))]) 2
      = Ok byProbe /\
    forall d, In d byAncestors <-> In d byProbe.
Proof.
  apply C6_cycle_guards_agree.
  - apply DagFacts.reachable_wf, DagMutators.scenarioAB_reachable.
  - repeat split.
Defined.

End CycleGuards.

(** * Further properties of the engine *)

(** ** Public operations of dag.ts: what they never do *)

Module DagOperations.
Import Dag DagFacts DagScheduler.

Lemma foldM_total {S A : Type} (f : S -> A -> result S) (P : S -> Prop) :
  (forall s a, P s -> exists s', f s a = Ok s' /\ P s') ->
  forall l s, P s ->
    exists s', fold_left (fun acc a => x <- acc ;; f x a) l (Ok s) = Ok s' /\ P s'.
Proof.
  intros Hf l. induction l as [|a l IH]; intros s Hs.
  - exists s. auto.
  - rewrite foldM_cons. destruct (Hf s a Hs) as [s1 [-> H1]]. simpl. now apply IH.
Qed.

Lemma addDependency_total s from to :
  wf s -> exists b s', addDependency s from to = Ok (b, s') /\ wf s'.
Proof.
  intros Hwf. unfold addDependency.
  destruct (hasTodo s from) eqn:Hf; simpl; [|eauto].
  destruct (hasTodo s to) eqn:Ht; simpl; [|eauto].
  assert (Ha : In from (mkeys (adj s))).
  { rewrite (wf_keys_adj _ Hwf). now apply mhas_In. }
  assert (Hr : In to (mkeys (rev s))).
  { rewrite (wf_keys_rev _ Hwf). now apply mhas_In. }
  pose proof (wf_addEdge s from to Hwf Ht Ha Hr) as Hwf'. unfold nb in Hwf'.
  destruct (mget_keys_Some _ _ Ha) as [targets Ea].
  destruct (mget_keys_Some _ _ Hr) as [sources Er].
  rewrite Ea, Er in *. eauto.
Qed.

Lemma deleteDependency_total s from to :
  wf s -> exists s', deleteDependency s from to = Ok s'.
Proof.
  intros Hwf. unfold deleteDependency, hasDependency.
  destruct (hasTodo s from) eqn:Hf; simpl; [|eauto].
  destruct (hasTodo s to) eqn:Ht; simpl; [|eauto].
  assert (Ha : In from (mkeys (adj s))).
  { rewrite (wf_keys_adj _ Hwf). now apply mhas_In. }
  assert (Hr : In to (mkeys (rev s))).
  { rewrite (wf_keys_rev _ Hwf). now apply mhas_In. }
  pose proof (wf_removeEdge s from to Hwf Ha Hr) as Hwf'. unfold nb in Hwf'.
  destruct (mget_keys_Some _ _ Ha) as [targets Ea].
  destruct (mget_keys_Some _ _ Hr) as [sources Er].
  rewrite Ea, Er in *. simpl. destruct (shas targets to); simpl; [|eauto].
  now apply calculate_total.
Qed.

Lemma initialize_total todos : exists s, initialize todos = Ok s.
Proof.
  unfold initialize.
  set (s1 := fold_left _ todos emptyDag).
  assert (H1 : wf s1).
  { subst s1. generalize wf_empty. generalize emptyDag.
    induction todos as [|t todos IH]; simpl; [auto|].
    intros s Hs. apply IH. apply (wf_storeTodo s (newTodo t) Hs). }
  destruct (foldM_total addDependencies wf) with (l := todos) (s := s1)
    as [s2 [E2 H2]]; [|assumption|].
  - intros s todo Hs. unfold addDependencies.
    apply (foldM_total (fun s dep => r <- addDependency s dep (schemaId todo) ;; Ok (snd r)) wf);
      [|assumption].
    intros s0 dep H0. destruct (addDependency_total s0 dep (schemaId todo) H0)
      as [b [s' [-> Hs']]]. simpl. eauto.
  - rewrite E2. simpl. now apply calculate_total.
Qed.

Lemma step_total s o : wf s -> exists s', step s o = Ok s'.
Proof.
  intros Hwf. destruct o; simpl.
  - apply calculate_total, wf_storeTodo, Hwf.
  - destruct (addDependency_total s from to Hwf) as [b [s' [-> _]]]. simpl. eauto.
  - now apply deleteDependency_total.
  - apply calculate_total, wf_removeNode, Hwf.
  - apply initialize_total.
  - unfold getSafeTargets. destruct (mget (safeTargetsCache s) from); simpl; [eauto|].
    destruct (computeSafeTargets_total s from) as [r ->]. simpl. eauto.
  - now apply calculate_total.
Qed.

(** X1. Whatever sequence of public operations is applied to the empty
    graph, the state keeps the representation invariant: forward and
    reverse adjacency mirror each other, every edge endpoint is a stored
    todo, the three maps have the same keys, every todo is stored under
    its own id, and no set holds an id twice. *)
Theorem X1_operations_keep_invariant (ops : list Op) (s : TodoDAG)
    (Hrun : run ops emptyDag = Ok s) :
  (forall a b, In b (getChildrenOf s a) <-> In a (getParentIds s b)) /\
  (forall a b, edge s a b -> hasTodo s a = true /\ hasTodo s b = true) /\
  mkeys (adj s) = allTodoIds s /\ mkeys (rev s) = allTodoIds s /\
  NoDup (allTodoIds s) /\
  (forall k t, getTodoWithId s k = Some t -> id t = k) /\
  (forall k, NoDup (getChildrenOf s k) /\ NoDup (getParentIds s k)).
Proof.
  assert (Hwf : wf s) by (apply reachable_wf; now exists ops).
  repeat split.
  - apply (wf_mirror _ Hwf).
  - apply (wf_mirror _ Hwf).
  - apply mhas_In. now destruct (wf_edge_K s a b Hwf H).
  - apply mhas_In. now destruct (wf_edge_K s a b Hwf H).
  - apply (wf_keys_adj _ Hwf).
  - apply (wf_keys_rev _ Hwf).
  - apply (wf_todo_keys _ Hwf).
  - apply (wf_ids _ Hwf).
  - now apply wf_children_NoDup.
  - now apply wf_parents_NoDup.
Qed.

(** Witness for X1: scenario 2. *)
Lemma X1_operations_keep_invariant_witness :
  mkeys (adj (mkDag [(1, [3]); (2, [3]); (3, [])] [(1, []); (2, []); (3, [1; 2])] []
                    [(1, mkTodo 1 2 0); (2, mkTodo 2 3 0); (3, mkTodo 3 4 0)]))
  = [1; 2; 3].
Proof.
  refine (proj1 (proj2 (proj2 (X1_operations_keep_invariant scenarioABC _ _)))).
  evaluate.
Defined.

(** X2. No sequence of [addTodo], [addDependency], [deleteDependency],
    [deleteNode], [initialize], [getSafeTargets] and
    [calculateEarliestStartTimes] calls applied to the empty graph ever
    throws (no [!] assertion meets [undefined]) or fails to return: every
    run ends in a state.  [getCriticalPath] is not among these calls: it
    does not return once a cycle is within reach of its root. *)
Theorem X2_operations_never_throw (ops : list Op) :
  exists s, run ops emptyDag = Ok s.
Proof.
  unfold run.
  destruct (foldM_total step wf) with (l := ops) (s := emptyDag) as [s [Hs _]].
  - intros s o Hs. destruct (step_total s o Hs) as [s' Hs'].
    exists s'. split; [assumption | eapply wf_step; eauto].
  - apply wf_empty.
  - eauto.
Qed.

(** *** Effect of the edge and node mutators *)

Lemma mset_same {V : Type} (m : JsMap V) (k : Z) (v : V) :
  mget m k = Some v -> mset m k v = m.
Proof.
  induction m as [|[k' v'] m IH]; simpl; [discriminate|].
  destruct (k' =? k) eqn:E.
  - now intros [= ->].
  - intros H. now rewrite IH.
Qed.


Lemma sadd_present (l : JsSet) (x : Z) : In x l -> sadd l x = l.
Proof. intros H. unfold sadd. apply shas_In in H. now rewrite H. Qed.

Lemma sdelete_absent (l : JsSet) (x : Z) : ~ In x l -> sdelete l x = l.
Proof. apply filter_neq_notin. Qed.


Lemma nb_get (m : JsMap JsSet) (k : Z) : In k (mkeys m) -> mget m k = Some (nb m k).
Proof.
  intros H. unfold nb. now destruct (mget_keys_Some _ _ H) as [l ->].
Qed.

Lemma hasTodo_keys s k :
  wf s -> hasTodo s k = true -> In k (mkeys (adj s)) /\ In k (mkeys (rev s)).
Proof.
  intros Hwf H. apply mhas_In in H.
  rewrite (wf_keys_adj _ Hwf), (wf_keys_rev _ Hwf). auto.
Qed.

Lemma addDependency_ok s from to :
  wf s -> hasTodo s from = true -> hasTodo s to = true ->
  addDependency s from to =
  Ok (true, mkDag (mset (adj s) from (sadd (nb (adj s) from) to))
                  (mset (rev s) to (sadd (nb (rev s) to) from)) [] (idToTodo s)).
Proof.
  intros Hwf Hf Ht. unfold addDependency. rewrite Hf, Ht. simpl.
  destruct (hasTodo_keys s from Hwf Hf) as [Ha _].
  destruct (hasTodo_keys s to Hwf Ht) as [_ Hr].
  now rewrite (nb_get _ _ Ha), (nb_get _ _ Hr).
Qed.

(** X3. [addDependency] fails, leaving the state untouched, exactly
    when an endpoint is not stored; otherwise it succeeds, the edge set
    becomes the old one plus from→to, the safe-target cache is emptied
    and no todo is modified.  Adding an edge that is already there
    changes neither adjacency map. *)
Theorem X3_addDependency_effect (s : TodoDAG) (from to : Z) (Hwf : wf s) :
  exists b s', addDependency s from to = Ok (b, s') /\
    b = (hasTodo s from && hasTodo s to)%bool /\
    (b = false -> s' = s) /\
    (b = true ->
       (forall a c, edge s' a c <-> edge s a c \/ (a = from /\ c = to)) /\
       safeTargetsCache s' = [] /\ idToTodo s' = idToTodo s /\
       (edge s from to -> adj s' = adj s /\ rev s' = rev s)).
Proof.
  destruct (hasTodo s from) eqn:Hf; [destruct (hasTodo s to) eqn:Ht|].
  - rewrite (addDependency_ok s from to Hwf Hf Ht).
    eexists. eexists. split; [reflexivity|]. split; [reflexivity|].
    split; [discriminate|]. intros _.
    destruct (hasTodo_keys s from Hwf Hf) as [Ha _].
    destruct (hasTodo_keys s to Hwf Ht) as [_ Hr].
    repeat split.
    + unfold edge. rewrite !getChildrenOf_nb. simpl. rewrite nb_mset.
      destruct (from =? a) eqn:E.
      * apply Z.eqb_eq in E. subst a. rewrite sadd_In. intros [-> | H]; auto.
      * auto.
    + unfold edge. rewrite !getChildrenOf_nb. simpl. rewrite nb_mset.
      destruct (from =? a) eqn:E.
      * apply Z.eqb_eq in E. subst a. rewrite sadd_In. intros [H | [_ ->]]; auto.
      * apply Z.eqb_neq in E. intros [H | [-> _]]; [assumption | congruence].
    + simpl. unfold edge in H. rewrite getChildrenOf_nb in H.
      rewrite (sadd_present _ _ H). apply mset_same. now apply nb_get.
    + simpl. unfold edge in H. apply (wf_mirror _ Hwf) in H.
      rewrite getParentIds_nb in H.
      rewrite (sadd_present _ _ H). apply mset_same. now apply nb_get.
  - unfold addDependency. rewrite Hf, Ht. simpl.
    eexists. eexists. split; [reflexivity|]. repeat split; discriminate.
  - unfold addDependency. rewrite Hf. simpl.
    eexists. eexists. split; [reflexivity|]. repeat split; discriminate.
Qed.

(** Witness for X3: scenario 1. *)
Lemma X3_addDependency_effect_witness :
  exists b s', addDependency DagMutators.scenarioAB 1 2 = Ok (b, s') /\ b = true.
Proof.
  destruct (X3_addDependency_effect DagMutators.scenarioAB 1 2
              (reachable_wf _ DagMutators.scenarioAB_reachable))
    as [b [s' [H1 [H2 _]]]].
  exists b, s'. split; [assumption|]. rewrite H2. evaluate.
Defined.

Lemma edge_false_unstored s a b :
  wf s -> hasTodo s a = false \/ hasTodo s b = false -> ~ edge s a b.
Proof.
  intros Hwf H He. destruct (wf_edge_K s a b Hwf He) as [Ha Hb].
  apply mhas_In in Ha, Hb. unfold hasTodo in H. destruct H; congruence.
Qed.

(** X4. [deleteDependency] returns on every reachable state.  When the
    edge from→to is absent (in particular when an endpoint is unknown)
    the state is returned unchanged, cache included; when it is present,
    exactly that edge disappears from both adjacency maps, the stored ids
    stay, the safe-target cache is emptied and minimumHours is recomputed. *)
Theorem X4_deleteDependency_effect (s : TodoDAG) (from to : Z) (Hwf : wf s) :
  exists s', deleteDependency s from to = Ok s' /\
    (~ edge s from to -> s' = s) /\
    (edge s from to ->
       (forall a b, edge s' a b <-> edge s a b /\ ~ (a = from /\ b = to)) /\
       (forall a b, In a (getParentIds s' b) <-> edge s' a b) /\
       allTodoIds s' = allTodoIds s /\
       safeTargetsCache s' = [] /\ scheduleConsistent s').
Proof.
  unfold deleteDependency, hasDependency.
  destruct (hasTodo s from) eqn:Hf; simpl.
  2:{ exists s. split; [reflexivity|]. split; [reflexivity|].
      intros He. exfalso.
      exact (edge_false_unstored s from to Hwf (or_introl Hf) He). }
  destruct (hasTodo s to) eqn:Ht; simpl.
  2:{ exists s. split; [reflexivity|]. split; [reflexivity|].
      intros He. exfalso.
      exact (edge_false_unstored s from to Hwf (or_intror Ht) He). }
  destruct (hasTodo_keys s from Hwf Hf) as [Ha _].
  destruct (hasTodo_keys s to Hwf Ht) as [_ Hr].
  rewrite (nb_get _ _ Ha), (nb_get _ _ Hr). simpl.
  destruct (shas (nb (adj s) from) to) eqn:Hpresent; simpl.
  2:{ apply shas_false in Hpresent. exists s.
      split; [reflexivity|]. split; [reflexivity|].
      intros He. contradiction. }
  apply shas_In in Hpresent.
  pose proof (wf_removeEdge s from to Hwf Ha Hr) as Hwf1.
  destruct (calculate_total _ Hwf1) as [s' Hs'].
  exists s'. split; [assumption|]. split.
  { intros Hn. exfalso. apply Hn. exact Hpresent. }
  intros _. destruct (calculate_graph _ _ Hs') as [Ea [Er [Ec [Ek _]]]].
  assert (Hedge : forall a b, edge s' a b <-> edge s a b /\ ~ (a = from /\ b = to)).
  { intros a b. unfold edge. rewrite !getChildrenOf_nb, Ea. simpl. rewrite nb_mset.
    destruct (from =? a) eqn:E.
    - apply Z.eqb_eq in E. subst a. rewrite sdelete_In. intuition congruence.
    - apply Z.eqb_neq in E. intuition congruence. }
  split; [exact Hedge|]. split.
  { intros a b. symmetry. apply (wf_mirror _ (wf_calculate _ _ Hwf1 Hs')). }
  split; [exact Ek|]. split; [exact Ec|].
  eapply calculate_consistent; eauto.
Qed.

(** Witness for X4: scenario 1. *)
Lemma X4_deleteDependency_effect_witness :
  exists s', deleteDependency DagMutators.scenarioAB 1 2 = Ok s'.
Proof.
  destruct (X4_deleteDependency_effect DagMutators.scenarioAB 1 2
              (reachable_wf _ DagMutators.scenarioAB_reachable)) as [s' [H _]].
  now exists s'.
Defined.

Lemma mdelete_absent {V : Type} (m : JsMap V) (k : Z) :
  ~ In k (mkeys m) -> mdelete m k = m.
Proof.
  unfold mdelete, mkeys. induction m as [|[k' v] m IH]; simpl; [reflexivity|].
  intros H. destruct (k' =? k) eqn:E.
  - apply Z.eqb_eq in E. tauto.
  - simpl. rewrite IH; tauto.
Qed.

Lemma mupdateAll_id {V : Type} (f : V -> V) (m : JsMap V) :
  (forall k v, In (k, v) m -> f v = v) -> mupdateAll f m = m.
Proof.
  unfold mupdateAll. induction m as [|[k v] m IH]; simpl; [reflexivity|].
  intros H. rewrite (H k v) by now left. rewrite IH; [reflexivity|].
  intros k' v' Hin. apply (H k' v'). now right.
Qed.

(** X5. [deleteNode] returns on every reachable state: the todo is no
    longer stored, the edges left are exactly the old edges touching
    neither end at [node], every other todo keeps its id and duration,
    the safe-target cache is emptied and minimumHours is recomputed.
    For an id that is not stored both adjacency maps are left as they
    were (the cache is still emptied and the recomputation still runs). *)
Theorem X5_deleteNode_effect (s : TodoDAG) (node : Z) (Hwf : wf s) :
  exists s', deleteNode s node = Ok s' /\
    hasTodo s' node = false /\
    allTodoIds s' = filter (fun k => negb (k =? node)) (allTodoIds s) /\
    (forall a b, edge s' a b <-> edge s a b /\ a <> node /\ b <> node) /\
    (forall k t, k <> node -> getTodoWithId s k = Some t ->
       exists t', getTodoWithId s' k = Some t' /\
         id t' = id t /\ duration t' = duration t) /\
    safeTargetsCache s' = [] /\ scheduleConsistent s' /\
    (hasTodo s node = false -> adj s' = adj s /\ rev s' = rev s).
Proof.
  unfold deleteNode.
  pose proof (wf_removeNode s node Hwf) as Hwf1.
  destruct (calculate_total _ Hwf1) as [s' Hs'].
  exists s'. split; [assumption|].
  destruct (calculate_graph _ _ Hs') as [Ea [Er [Ec [Ek Ht]]]].
  unfold allTodoIds in *. simpl in *.
  split.
  { apply mhas_false. rewrite Ek, mkeys_mdelete, filter_In, Z.eqb_refl.
    intros [_ H]. discriminate. }
  split; [now rewrite Ek, mkeys_mdelete|].
  split.
  { intros a b. unfold edge. rewrite !getChildrenOf_nb, Ea.
    rewrite nb_sdeleteAll, nb_mdelete.
    destruct (node =? a) eqn:E.
    - apply Z.eqb_eq in E. subst a. simpl. tauto.
    - apply Z.eqb_neq in E. intuition congruence. }
  split.
  { intros k t Hne Hg. apply (Ht k t). unfold getTodoWithId in *. simpl.
    rewrite mget_mdelete. apply Z.eqb_neq in Hne. now rewrite Z.eqb_sym, Hne. }
  split; [exact Ec|].
  split; [eapply calculate_consistent; eauto|].
  intros Habs. apply mhas_false in Habs.
  assert (Hno : forall a b, edge s a b -> a <> node /\ b <> node).
  { intros a b He. destruct (wf_edge_K s a b Hwf He) as [H1 H2].
    split; intros ->; contradiction. }
  rewrite Ea, Er. split.
  - rewrite mdelete_absent by (now rewrite (wf_keys_adj _ Hwf)).
    apply mupdateAll_id. intros k l Hin. apply sdelete_absent. intros Hn.
    assert (He : edge s k node).
    { unfold edge, getChildrenOf.
      rewrite (In_mget (adj s) k l); [assumption| |assumption].
      rewrite (wf_keys_adj _ Hwf). apply (wf_todo_keys _ Hwf). }
    now destruct (Hno _ _ He).
  - rewrite mdelete_absent by (now rewrite (wf_keys_rev _ Hwf)).
    apply mupdateAll_id. intros k l Hin. apply sdelete_absent. intros Hn.
    assert (He : edge s node k).
    { apply (wf_mirror _ Hwf). unfold getParentIds.
      rewrite (In_mget (rev s) k l); [assumption| |assumption].
      rewrite (wf_keys_rev _ Hwf). apply (wf_todo_keys _ Hwf). }
    now destruct (Hno _ _ He).
Qed.

(** Witness for X5: scenario 1, removing B. *)
Lemma X5_deleteNode_effect_witness :
  exists s', deleteNode DagMutators.scenarioAB 2 = Ok s' /\ hasTodo s' 2 = false.
Proof.
  destruct (X5_deleteNode_effect DagMutators.scenarioAB 2
              (reachable_wf _ DagMutators.scenarioAB_reachable)) as [s' [H1 [H2 _]]].
  exists s'. split; assumption.
Defined.

(** *** Root todos and lookups *)

Lemma acyclic_parents s :
  wf s -> acyclic (edge s) -> acyclic (fun v p => In p (getParentIds s v)).
Proof.
  intros Hwf Hac. apply (acyclic_ext (fun x y => edge s y x)).
  - intros a b H. now apply (wf_mirror _ Hwf).
  - now apply acyclic_flip.
Qed.

(** X6. On every reachable state [rootNodes] lists, without
    repetition, exactly the stored todos that have no prerequisite; when
    the graph is acyclic every stored todo can be reached from one of
    them along forward edges, so the hierarchical list of the page, which
    starts from the roots and expands dependents, shows every todo. *)
Theorem X6_rootNodes (s : TodoDAG) (Hwf : wf s) :
  (forall v, In v (rootNodes s) <-> hasTodo s v = true /\ getParentIds s v = []) /\
  NoDup (rootNodes s) /\
  (acyclic (edge s) ->
   forall v, hasTodo s v = true -> exists r, In r (rootNodes s) /\ reach (edge s) r v).
Proof.
  assert (Hroot : forall v, In v (rootNodes s) <->
                    hasTodo s v = true /\ getParentIds s v = []).
  { intros v. rewrite (rootNodes_In s v (wf_rev_NoDup s Hwf)).
    unfold hasTodo. rewrite mhas_In, <- (wf_keys_rev _ Hwf). unfold getParentIds. split.
    - intros H. rewrite H. split; [eapply mget_Some_keys; eauto | reflexivity].
    - intros [Hk Hn]. destruct (mget_keys_Some _ _ Hk) as [l Hl].
      rewrite Hl in *. now subst. }
  split; [exact Hroot|]. split; [apply rootNodes_NoDup, wf_rev_NoDup, Hwf|].
  intros Hac v Hv. apply mhas_In in Hv. revert v Hv.
  apply (acyclic_induction (fun v p => In p (getParentIds s v)) (mkeys (idToTodo s))).
  - intros a b H. eapply wf_parents_K; eauto.
  - now apply acyclic_parents.
  - intros v Hv IH. destruct (getParentIds s v) as [|p l] eqn:Ep.
    + exists v. split; [|apply reach_refl]. apply Hroot. split; [now apply mhas_In | assumption].
    + destruct (IH p (or_introl eq_refl)) as [r [Hr Hrp]].
      exists r. split; [assumption|]. eapply reach_snoc; [eassumption|].
      apply (wf_mirror _ Hwf). rewrite Ep. now left.
Qed.

(** Witness for X6: scenario 1 has the single root A. *)
Lemma X6_rootNodes_witness :
  In 1 (rootNodes DagMutators.scenarioAB) <->
  hasTodo DagMutators.scenarioAB 1 = true /\ getParentIds DagMutators.scenarioAB 1 = [].
Proof.
  exact (proj1 (X6_rootNodes DagMutators.scenarioAB
                  (reachable_wf _ DagMutators.scenarioAB_reachable)) 1).
Defined.

Lemma lookupAll_keys {V : Type} (m : JsMap V) :
  NoDup (mkeys m) ->
  flat_map (fun i => match mget m i with Some t => [t] | None => [] end) (mkeys m)
  = mvalues m.
Proof.
  unfold mkeys, mvalues. induction m as [|[k v] m IH]; simpl; [reflexivity|].
  intros Hnd. inversion Hnd as [|x l Hk Hm]; subst.
  rewrite Z.eqb_refl. simpl. f_equal. rewrite <- IH by assumption.
  rewrite !flat_map_concat_map. f_equal. apply map_ext_in. intros i Hi.
  destruct (k =? i) eqn:E; [|reflexivity].
  apply Z.eqb_eq in E. subst. contradiction.
Qed.

(** X7. [getTodosByIds] returns, in the order of the ids given, the
    stored todo of every known id and silently drops unknown ids; applied
    to [allTodoIds] on a reachable state it returns every stored todo
    exactly once, in insertion order. *)
Theorem X7_getTodosByIds :
  (forall s ids t,
     In t (getTodosByIds s ids) <-> exists i, In i ids /\ getTodoWithId s i = Some t) /\
  (forall s ids, (length (getTodosByIds s ids) <= length ids)%nat) /\
  (forall s ids, (forall i, In i ids -> hasTodo s i = false) -> getTodosByIds s ids = []) /\
  (forall s, wf s -> getTodosByIds s (allTodoIds s) = mvalues (idToTodo s)).
Proof.
  repeat split.
  - unfold getTodosByIds, getTodoWithId. rewrite in_flat_map.
    intros [i [Hi Ht]]. exists i. split; [assumption|].
    destruct (mget (idToTodo s) i); [|destruct Ht].
    destruct Ht as [-> | []]. reflexivity.
  - unfold getTodosByIds, getTodoWithId. rewrite in_flat_map.
    intros [i [Hi Ht]]. exists i. split; [assumption|]. rewrite Ht. now left.
  - intros s ids. unfold getTodosByIds. induction ids as [|i ids IH]; simpl; [lia|].
    rewrite length_app. destruct (mget (idToTodo s) i); simpl; lia.
  - intros s ids H. unfold getTodosByIds. induction ids as [|i ids IH]; simpl; [reflexivity|].
    pose proof (H i (or_introl eq_refl)) as Hi. unfold hasTodo, mhas in Hi.
    destruct (mget (idToTodo s) i); [discriminate|]. simpl. apply IH.
    intros j Hj. apply H. now right.
  - intros s Hwf. unfold getTodosByIds, allTodoIds.
    apply lookupAll_keys, (wf_todo_keys _ Hwf).
Qed.

(** Witness for X7: scenario 1. *)
Lemma X7_getTodosByIds_witness :
  getTodosByIds DagMutators.scenarioAB (allTodoIds DagMutators.scenarioAB)
  = [mkTodo 1 3 0; mkTodo 2 5 3].
Proof.
  exact (proj2 (proj2 (proj2 X7_getTodosByIds)) DagMutators.scenarioAB
           (reachable_wf _ DagMutators.scenarioAB_reachable)).
Defined.

(** *** The cycle guard as the form uses it *)

Lemma reach_added_edge (E : Z -> Z -> Prop) (p d : Z) a b :
  reach (fun x y => E x y \/ (x = p /\ y = d)) a b ->
  reach E a b \/ (reach E a p /\ reach E d b).
Proof.
  induction 1 as [a | a x b Hax Hxb IH]; [left; apply reach_refl|].
  destruct Hax as [Hax | [-> ->]].
  - destruct IH as [IH | [IH1 IH2]].
    + left. eapply reach_step; eauto.
    + right. split; [eapply reach_step; eauto | assumption].
  - right. split; [apply reach_refl|]. destruct IH as [IH | [_ IH]]; assumption.
Qed.

(** X8. On an acyclic reachable state, for stored todos [p] and [d],
    a freshly computed [getSafeTargets p] contains [d] exactly when the
    graph obtained by [addDependency p d] is still acyclic: adding an
    edge to an offered target never closes a cycle, and every stored
    target that is not offered would close one. *)
Theorem X8_safe_targets_keep_acyclic (s : TodoDAG) (p d : Z)
    (Hwf : wf s) (Hac : acyclic (edge s))
    (Hp : hasTodo s p = true) (Hd : hasTodo s d = true) :
  exists safe s',
    computeSafeTargets s p = Ok safe /\
    addDependency s p d = Ok (true, s') /\
    (In d safe <-> acyclic (edge s')).
Proof.
  destruct (computeSafeTargets_total s p) as [safe Hsafe].
  rewrite (addDependency_ok s p d Hwf Hp Hd).
  eexists. eexists. split; [exact Hsafe|]. split; [reflexivity|].
  rewrite (computeSafeTargets_spec s p safe Hwf Hsafe d).
  set (s' := mkDag _ _ _ _).
  assert (Hedge : forall a c, edge s' a c <-> edge s a c \/ (a = p /\ c = d)).
  { intros a c. unfold edge. rewrite !getChildrenOf_nb. subst s'. simpl. rewrite nb_mset.
    destruct (p =? a) eqn:E.
    - apply Z.eqb_eq in E. subst a. rewrite sadd_In. intuition congruence.
    - apply Z.eqb_neq in E. intuition congruence. }
  split.
  - intros [_ Hn] v [x [Hvx Hxv]].
    apply (reach_ext _ (fun x y => edge s x y \/ (x = p /\ y = d))) in Hxv;
      [|intros a c; apply Hedge].
    apply reach_added_edge in Hxv. apply Hedge in Hvx.
    destruct Hvx as [Hvx | [-> ->]].
    + destruct Hxv as [Hxv | [Hxp Hdv]].
      * apply (Hac v). exists x. auto.
      * apply Hn. eapply reach_trans; [exact Hdv|]. eapply reach_step; eauto.
    + destruct Hxv as [Hxv | [Hxv _]]; exact (Hn Hxv).
  - intros Hac'. split; [now apply mhas_In|]. intros Hr.
    apply (Hac' p). exists d. split; [apply Hedge; auto|].
    revert Hr. apply reach_ext. intros a c H. apply Hedge. now left.
Qed.

(** Witness for X8: in scenario 1, B→A is refused and would close a cycle. *)
Lemma X8_safe_targets_keep_acyclic_witness :
  exists safe s',
    computeSafeTargets DagMutators.scenarioAB 2 = Ok safe /\
    addDependency DagMutators.scenarioAB 2 1 = Ok (true, s') /\
    (In 1 safe <-> acyclic (edge s')).
Proof.
  apply X8_safe_targets_keep_acyclic.
  - apply reachable_wf, DagMutators.scenarioAB_reachable.
  - apply increasing_acyclic. evaluate.
  - evaluate.
  - evaluate.
Defined.

(** *** When cached safe targets are right *)

(** Every cached list is the exact safe-target set of its key. *)
Definition cacheCoherent (s : TodoDAG) : Prop :=
  forall p r, mget (safeTargetsCache s) p = Some r ->
    forall d, In d r <-> hasTodo s d = true /\ ~ reach (edge s) d p.

Lemma cacheCoherent_same s s' :
  adj s' = adj s -> safeTargetsCache s' = safeTargetsCache s ->
  allTodoIds s' = allTodoIds s -> cacheCoherent s -> cacheCoherent s'.
Proof.
  intros Ha Hc Hk H p r. rewrite Hc. intros Hg d. rewrite (H p r Hg d).
  assert (Hh : hasTodo s' d = hasTodo s d).
  { unfold hasTodo. destruct (mhas (idToTodo s) d) eqn:E.
    - apply mhas_In. apply mhas_In in E. unfold allTodoIds in Hk. now rewrite Hk.
    - apply mhas_false. apply mhas_false in E. unfold allTodoIds in Hk. now rewrite Hk. }
  rewrite Hh.
  assert (He : forall a b, edge s' a b <-> edge s a b).
  { intros a b. unfold edge, getChildrenOf. now rewrite Ha. }
  split; intros [H1 H2]; (split; [assumption|]); intros Hr; apply H2;
    revert Hr; apply reach_ext; intros a b; apply He.
Qed.

Lemma cacheCoherent_empty s : safeTargetsCache s = [] -> cacheCoherent s.
Proof. intros H p r. rewrite H. discriminate. Qed.

Lemma addDependencies_cache s todo s' :
  safeTargetsCache s = [] -> addDependencies s todo = Ok s' -> safeTargetsCache s' = [].
Proof.
  unfold addDependencies.
  apply (foldM_inv (fun s dep => r <- addDependency s dep (schemaId todo) ;; Ok (snd r))
           (fun s => safeTargetsCache s = [])).
  intros s0 dep s1 H0. unfold addDependency.
  destruct (negb (hasTodo s0 dep) || negb (hasTodo s0 (schemaId todo)))%bool; simpl.
  - now intros [= <-].
  - destruct (mget (adj s0) dep); [|discriminate].
    destruct (mget (rev s0) (schemaId todo)); [|discriminate].
    simpl. now intros [= <-].
Qed.

Lemma initialize_cache todos s : initialize todos = Ok s -> safeTargetsCache s = [].
Proof.
  unfold initialize. set (s1 := fold_left _ todos emptyDag).
  assert (H1 : safeTargetsCache s1 = []).
  { subst s1. assert (H0 : safeTargetsCache emptyDag = []) by reflexivity.
    revert H0. generalize emptyDag.
    induction todos as [|t todos IH]; simpl; [auto|].
    intros s0 H0. apply IH. unfold addNode. simpl.
    now destruct (mhas (adj s0) (schemaId t)). }
  destruct (fold_left _ todos (Ok s1)) as [s2| |] eqn:E; simpl; try discriminate.
  intros Hc. destruct (calculate_graph _ _ Hc) as [_ [_ [-> _]]].
  eapply (foldM_inv addDependencies (fun s => safeTargetsCache s = [])); [|exact H1|exact E].
  intros; eapply addDependencies_cache; eauto.
Qed.

(** X9. Call the cache coherent when every cached list is the exact
    safe-target set of its key.  Every public operation keeps the cache
    coherent, except [addTodo] of an id that is not yet stored while the
    cache is non-empty; and on a coherent state [getSafeTargets], cached
    or not, answers exactly the stored todos from which [from] cannot be
    reached. *)
Theorem X9_cache_coherence (s : TodoDAG) (Hwf : wf s) (Hco : cacheCoherent s) :
  (forall o s', step s o = Ok s' ->
     (forall todo, o = AddTodo todo ->
        hasTodo s (id todo) = true \/ safeTargetsCache s = []) ->
     cacheCoherent s') /\
  (forall from, exists r s', getSafeTargets s from = Ok (r, s') /\
     forall d, In d r <-> hasTodo s d = true /\ ~ reach (edge s) d from).
Proof.
  assert (Hget : forall from r s', getSafeTargets s from = Ok (r, s') ->
            cacheCoherent s' /\
            forall d, In d r <-> hasTodo s d = true /\ ~ reach (edge s) d from).
  { intros from r s'. unfold getSafeTargets.
    destruct (mget (safeTargetsCache s) from) as [cached|] eqn:Ehit.
    - intros [= <- <-]. split; [assumption | apply (Hco from cached Ehit)].
    - destruct (computeSafeTargets s from) as [safe| |] eqn:Ec; simpl; try discriminate.
      intros [= <- <-].
      assert (Hs : forall d, In d safe <-> hasTodo s d = true /\ ~ reach (edge s) d from).
      { intros d. rewrite (computeSafeTargets_spec s from safe Hwf Ec d).
        unfold hasTodo. now rewrite mhas_In. }
      split; [|exact Hs]. intros p r. simpl. rewrite mget_mset.
      destruct (from =? p) eqn:E.
      + apply Z.eqb_eq in E. subst p. intros [= <-]. exact Hs.
      + apply (Hco p r). }
  split.
  - intros o s' Hstep Hadd. destruct o; simpl in Hstep.
    + destruct (Hadd todo eq_refl) as [Hhas | Hempty].
      * unfold addTodo in Hstep.
        destruct (calculate_graph _ _ Hstep) as [Ea [_ [Ec [Ek _]]]].
        assert (Hadj : mhas (adj s) (id todo) = true).
        { apply mhas_In. rewrite (wf_keys_adj _ Hwf). now apply mhas_In. }
        unfold addNode in *. simpl in *. rewrite Hadj in *. simpl in *.
        apply (cacheCoherent_same s s'); try assumption.
        rewrite Ek. unfold allTodoIds. simpl. apply mkeys_mset_has. now apply mhas_In.
      * apply cacheCoherent_empty. unfold addTodo in Hstep.
        destruct (calculate_graph _ _ Hstep) as [_ [_ [-> _]]].
        unfold addNode. simpl. now destruct (mhas (adj s) (id todo)).
    + destruct (addDependency s from to) as [[b s1]| |] eqn:E; simpl in Hstep;
        try discriminate.
      injection Hstep as <-.
      destruct (addDependency_inv _ _ _ _ _ E) as [[_ [-> _]] | [_ [_ [_ [-> _]]]]];
        [assumption | now apply cacheCoherent_empty].
    + destruct (deleteDependency_inv _ _ _ _ Hwf Hstep) as [-> | [_ [_ Hc]]];
        [assumption|].
      apply cacheCoherent_empty. now destruct (calculate_graph _ _ Hc) as [_ [_ [-> _]]].
    + apply cacheCoherent_empty. unfold deleteNode in Hstep.
      now destruct (calculate_graph _ _ Hstep) as [_ [_ [-> _]]].
    + apply cacheCoherent_empty. now apply (initialize_cache todos).
    + destruct (getSafeTargets s from) as [[r s1]| |] eqn:E; simpl in Hstep;
        try discriminate.
      injection Hstep as <-. now destruct (Hget from r s1 E).
    + destruct (calculate_graph _ _ Hstep) as [Ea [_ [Ec [Ek _]]]].
      now apply (cacheCoherent_same s s').
  - intros from. destruct (step_total s (GetSafeTargets from) Hwf) as [s' Hs'].
    simpl in Hs'. destruct (getSafeTargets s from) as [[r s1]| |] eqn:E; simpl in Hs';
      try discriminate.
    exists r, s1. split; [reflexivity|]. now destruct (Hget from r s1 E).
Qed.

(** Witness for X9: scenario 1, whose cache is empty. *)
Lemma X9_cache_coherence_witness :
  exists r s', getSafeTargets DagMutators.scenarioAB 1 = Ok (r, s') /\
    forall d, In d r <->
      hasTodo DagMutators.scenarioAB d = true /\
      ~ reach (edge DagMutators.scenarioAB) d 1.
Proof.
  refine (proj2 (X9_cache_coherence DagMutators.scenarioAB
                   (reachable_wf _ DagMutators.scenarioAB_reachable) _) 1).
  apply cacheCoherent_empty. reflexivity.
Defined.

End DagOperations.

(** ** What the computed values mean *)

Lemma chain_snoc (E : Z -> Z -> Prop) (l : list Z) (v d : Z) :
  l <> [] -> chain E l -> E (last l d) v -> chain E (l ++ [v]).
Proof.
  induction l as [|a l IH]; [congruence|]. intros _ Hc He.
  destruct l as [|b l]; simpl in *; [auto|].
  destruct Hc as [Hab Hc]. split; [assumption|].
  apply IH; [discriminate | assumption | assumption].
Qed.

Lemma pathWeight_snoc (w : Z -> Z -> Z) (l : list Z) (v d : Z) :
  l <> [] -> pathWeight w (l ++ [v]) = pathWeight w l + w (last l d) v.
Proof.
  induction l as [|a l IH]; [congruence|]. intros _.
  destruct l as [|b l]; simpl in *; [lia|].
  rewrite IH by discriminate. lia.
Qed.

Lemma pathWeight_ext (E : Z -> Z -> Prop) (w w' : Z -> Z -> Z) (l : list Z) :
  (forall a b, E a b -> w a b = w' a b) -> chain E l ->
  pathWeight w l = pathWeight w' l.
Proof.
  intros H. induction l as [|a l IH]; [reflexivity|].
  destruct l as [|b l]; [reflexivity|]. intros [Hab Hc].
  change (w a b + pathWeight w (b :: l) = w' a b + pathWeight w' (b :: l)).
  rewrite (H a b Hab), (IH Hc). reflexivity.
Qed.

Lemma last_snoc (l : list Z) (v d : Z) : last (l ++ [v]) d = v.
Proof. apply last_last. Qed.

Module DagMeaning.
Import Dag DagFacts DagScheduler.

(** On an acyclic reachable state the stored value of every todo is the
    maximum of 0 and the finish times of its prerequisites. *)
Lemma calculate_recurrence s :
  wf s -> acyclic (edge s) ->
  exists s', calculateEarliestStartTimes s = Ok s' /\
    adj s' = adj s /\ rev s' = rev s /\ allTodoIds s' = allTodoIds s /\
    (forall v, durationOf s' v = durationOf s v) /\
    (forall v, In v (allTodoIds s) ->
       earliestStartOf s' v =
       propagated (fun _ => true)
         (fun p => earliestStartOf s' p + durationOf s' p) (getParentIds s v)).
Proof.
  intros Hwf Hac.
  destruct (scheduler_values s Hwf) as [es [He [_ [_ [_ [_ [_ [Hall Hes]]]]]]]].
  specialize (Hall Hac).
  unfold calculateEarliestStartTimes. rewrite He. simpl.
  eexists. split; [reflexivity|]. simpl.
  split; [reflexivity|]. split; [reflexivity|].
  split; [unfold allTodoIds; simpl; apply mkeys_mupdateAll|].
  split; [intros v; apply after_duration|].
  intros v Hv. rewrite after_calculate by assumption.
  rewrite (valueAt_getN _ _ _ (Hes v Hv)).
  apply propagated_ext.
  - intros p Hp. apply shas_In, Hall. eapply wf_parents_K; eauto.
  - intros p Hp _. unfold finish.
    rewrite after_calculate, after_duration; [reflexivity | assumption |].
    eapply wf_parents_K; eauto.
Qed.

Lemma earliestStartOf_unstored s v : hasTodo s v = false -> earliestStartOf s v = 0.
Proof.
  unfold hasTodo, mhas, earliestStartOf. now destruct (mget (idToTodo s) v).
Qed.

(** X10. On an acyclic reachable state with non-negative durations,
    after [calculateEarliestStartTimes] the minimumHours of a todo is the
    length of its longest prerequisite chain: no forward chain ending at
    the todo has a larger total duration of the todos before it, and some
    chain starting at a root todo attains the value. *)
Theorem X10_earliest_start_is_longest_chain (s : TodoDAG)
    (Hwf : wf s) (Hac : acyclic (edge s)) (Hdur : durationsNonneg s) :
  exists s', calculateEarliestStartTimes s = Ok s' /\
    (forall l, l <> [] -> chain (edge s') l ->
       DagCriticalPath.durationWeight s' l <= earliestStartOf s' (last l 0)) /\
    (forall v, hasTodo s' v = true ->
       exists l, l <> [] /\ chain (edge s') l /\ last l 0 = v /\
         getParentIds s' (hd 0 l) = [] /\
         DagCriticalPath.durationWeight s' l = earliestStartOf s' v).
Proof.
  destruct (calculate_recurrence s Hwf Hac) as [s' [Hc [Ea [Er [Ek [Hd Hrec]]]]]].
  exists s'. split; [assumption|].
  assert (Hwf' : wf s') by (eapply wf_calculate; eauto).
  assert (Hedge : forall a b, edge s' a b <-> edge s a b).
  { intros a b. unfold edge, getChildrenOf. now rewrite Ea. }
  assert (Hpar : forall v, getParentIds s' v = getParentIds s v).
  { intros v. unfold getParentIds. now rewrite Er. }
  assert (Hnn : forall v, 0 <= earliestStartOf s' v).
  { intros v. destruct (hasTodo s' v) eqn:Hv.
    - apply mhas_In in Hv. fold (allTodoIds s') in Hv. rewrite Ek in Hv.
      rewrite (Hrec v Hv). apply propagated_nonneg.
    - rewrite earliestStartOf_unstored by assumption. lia. }
  assert (Hstep : forall p d, edge s' p d ->
            earliestStartOf s' p + durationOf s' p <= earliestStartOf s' d).
  { intros p d Hpd. apply Hedge in Hpd.
    destruct (wf_edge_K s p d Hwf Hpd) as [_ HdK]. rewrite (Hrec d HdK).
    apply (propagated_ge (fun _ => true)
             (fun p => earliestStartOf s' p + durationOf s' p)); [|reflexivity].
    now apply (wf_mirror _ Hwf). }
  split.
  - intros l Hne Hch.
    assert (H : earliestStartOf s' (hd 0 l) + DagCriticalPath.durationWeight s' l
                <= earliestStartOf s' (last l 0)).
    { clear Hne. unfold DagCriticalPath.durationWeight.
      induction l as [|a l IH]; [simpl; lia|].
      destruct l as [|b l]; [simpl; lia|].
      destruct Hch as [Hab Hch]. specialize (IH Hch).
      pose proof (Hstep a b Hab).
      change (pathWeight (fun a0 _ => durationOf s' a0) (a :: b :: l))
        with (durationOf s' a + pathWeight (fun a0 _ => durationOf s' a0) (b :: l)).
      change (last (a :: b :: l) 0) with (last (b :: l) 0).
      simpl hd in *. lia. }
    pose proof (Hnn (hd 0 l)). lia.
  - intros v Hv. apply mhas_In in Hv. fold (allTodoIds s') in Hv. rewrite Ek in Hv.
    revert v Hv.
    apply (acyclic_induction (fun v p => In p (getParentIds s v)) (allTodoIds s)).
    + intros a b H. eapply wf_parents_K; eauto.
    + now apply DagOperations.acyclic_parents.
    + intros v Hv IH. destruct (getParentIds s v) as [|p0 ps] eqn:Ep.
      * exists [v]. split; [discriminate|]. simpl. repeat split; auto.
        -- now rewrite Hpar.
        -- unfold DagCriticalPath.durationWeight. simpl. rewrite (Hrec v Hv), Ep. reflexivity.
      * destruct (propagated_attained (fun _ => true)
                    (fun p => earliestStartOf s' p + durationOf s' p)
                    (getParentIds s v)) as [p [Hp [_ Heq]]].
        -- intros p _ _. pose proof (Hnn p). rewrite Hd.
           pose proof (durationOf_nonneg s p Hdur). lia.
        -- exists p0. rewrite Ep. split; [now left | reflexivity].
        -- rewrite <- Ep in IH.
           destruct (IH p Hp) as [l [Hne [Hch [Hlast [Hroot Hw]]]]].
           exists (l ++ [v]). split; [now destruct l|]. split.
           ++ apply (chain_snoc _ l v 0 Hne Hch). rewrite Hlast. apply Hedge.
              now apply (wf_mirror _ Hwf).
           ++ split; [apply last_snoc|]. split.
              ** destruct l; [congruence | exact Hroot].
              ** unfold DagCriticalPath.durationWeight in *.
                 rewrite (pathWeight_snoc _ l v 0 Hne), Hlast, Hw.
                 rewrite (Hrec v Hv). symmetry. exact Heq.
Qed.

(** Witness for X10: the diamond of scenario 5. *)
Lemma X10_earliest_start_is_longest_chain_witness :
  exists s', calculateEarliestStartTimes
               (mkDag [(1, [3; 2]); (2, [4]); (3, [4]); (4, [])]
                      [(1, []); (2, [1]); (3, [1]); (4, [3; 2])] []
                      [(1, mkTodo 1 1 0); (2, mkTodo 2 5 1); (3, mkTodo 3 2 1);
                       (4, mkTodo 4 1 6)]) = Ok s' /\
    DagCriticalPath.durationWeight s' [1; 2; 4] <= earliestStartOf s' 4.
Proof.
  destruct (X10_earliest_start_is_longest_chain
              (mkDag [(1, [3; 2]); (2, [4]); (3, [4]); (4, [])]
                     [(1, []); (2, [1]); (3, [1]); (4, [3; 2])] []
                     [(1, mkTodo 1 1 0); (2, mkTodo 2 5 1); (3, mkTodo 3 2 1);
                      (4, mkTodo 4 1 6)])) as [s' [Hc [H1 _]]].
  - apply reachable_wf. exists DagCriticalPath.diamond. evaluate.
  - apply increasing_acyclic. evaluate.
  - apply durationsNonnegb_spec. evaluate.
  - exists s'. split; [assumption|].
    apply (H1 [1; 2; 4]); [discriminate|].
    vm_compute in Hc. injection Hc as <-. vm_compute. auto.
Defined.

Lemma chain_fullPath (entriesOf : Z -> option (list (Z * Z))) (l : list Z) (d : Z) :
  l <> [] -> chain (fun a b => In b (nbrsOf entriesOf a)) l ->
  nbrsOf entriesOf (last l d) = [] -> fullPath entriesOf l.
Proof.
  induction l as [|a l IH]; [congruence|]. intros _ Hc Hl.
  destruct l as [|b l]; [exact Hl|].
  destruct Hc as [Hab Hc]. split; [exact Hab|].
  apply IH; [discriminate | assumption | exact Hl].
Qed.

(** Sum of the ids of the targets of the edges of a path. *)
Definition idWeight (l : list Z) : Z := pathWeight (fun _ b => b) l.

(** X11. What [getCriticalPath] of dag.ts maximises: on an acyclic
    reachable state and for a stored [root], the returned sequence is a
    forward path from [root] to a todo without dependents whose sum of
    target ids (every id on the path except the first) is at least that
    of every other such path.  Durations play no part. *)
Theorem X11_critical_path_maximises_target_ids (s : TodoDAG) (root : Z)
    (Hwf : wf s) (Hac : acyclic (edge s)) (Hroot : hasTodo s root = true) :
  exists p, getCriticalPath s root = Ok p /\
    hd_error p = Some root /\ chain (edge s) p /\
    getChildrenOf s (last p root) = [] /\
    forall l, hd_error l = Some root -> chain (edge s) l ->
      getChildrenOf s (last l root) = [] -> idWeight l <= idWeight p.
Proof.
  unfold getCriticalPath. unfold hasTodo in Hroot. rewrite Hroot. cbn [negb].
  destruct (findMaxPath_good (entriesOf s)) with (K := mkeys (adj s)) (root := root)
    as [r [memo' [Hr [H1 [H2 [_ H4]]]]]].
  - intros n es. unfold entriesOf. destruct (mget (adj s) n) as [l|] eqn:E0; [|discriminate].
    intros [= <-]. unfold mkeys. rewrite map_map. simpl. rewrite map_id.
    eapply (wf_sets_adj _ Hwf); eauto.
  - intros a b. rewrite DagCriticalPath.nbrsOf_entriesOf, (wf_keys_adj _ Hwf).
    apply (wf_closed _ Hwf).
  - revert Hac. apply acyclic_ext. intros a b.
    now rewrite DagCriticalPath.nbrsOf_entriesOf.
  - rewrite (wf_keys_adj _ Hwf). now apply mhas_In.
  - unfold mkeys in Hr. rewrite length_map in Hr. rewrite Hr.
    exists (path r). split; [reflexivity|]. split; [assumption|].
    destruct (fullPath_chain _ _ H2) as [Hc Hl].
    assert (Hc' : chain (edge s) (path r)).
    { revert Hc. apply chain_ext. intros a b. now rewrite DagCriticalPath.nbrsOf_entriesOf. }
    assert (Hw : forall l, chain (edge s) l ->
              pathWeight (weightOf (entriesOf s)) l = idWeight l).
    { intros l. apply pathWeight_ext. intros a b Hab.
      now apply DagCriticalPath.weightOf_entriesOf. }
    split; [assumption|]. split.
    + rewrite DagCriticalPath.nbrsOf_entriesOf in Hl.
      rewrite (last_default _ root 0); [assumption|].
      intros Hnil. rewrite Hnil in H1. discriminate.
    + intros l Hh Hch Hleaf. rewrite <- (Hw l Hch), <- (Hw _ Hc').
      apply H4; [assumption|].
      apply (chain_fullPath (entriesOf s) l root).
      * intros ->. discriminate.
      * revert Hch. apply chain_ext. intros a b.
        now rewrite DagCriticalPath.nbrsOf_entriesOf.
      * now rewrite DagCriticalPath.nbrsOf_entriesOf.
Qed.

(** Witness for X11: the diamond, from its source. *)
Lemma X11_critical_path_maximises_target_ids_witness :
  exists p, getCriticalPath
              (mkDag [(1, [3; 2]); (2, [4]); (3, [4]); (4, [])]
                     [(1, []); (2, [1]); (3, [1]); (4, [3; 2])] []
                     [(1, mkTodo 1 1 0); (2, mkTodo 2 5 1); (3, mkTodo 3 2 1);
                      (4, mkTodo 4 1 6)]) 1 = Ok p /\
            idWeight [1; 2; 4] <= idWeight p.
Proof.
  destruct (X11_critical_path_maximises_target_ids
              (mkDag [(1, [3; 2]); (2, [4]); (3, [4]); (4, [])]
                     [(1, []); (2, [1]); (3, [1]); (4, [3; 2])] []
                     [(1, mkTodo 1 1 0); (2, mkTodo 2 5 1); (3, mkTodo 3 2 1);
                      (4, mkTodo 4 1 6)]) 1) as [p [Hp [_ [_ [_ Hmax]]]]].
  - apply reachable_wf. exists DagCriticalPath.diamond. evaluate.
  - apply increasing_acyclic. evaluate.
  - evaluate.
  - exists p. split; [assumption|].
    apply Hmax; [reflexivity | vm_compute; auto | reflexivity].
Defined.

End DagMeaning.

(** ** Bulk load *)

Module DagInitialize.
Import Dag DagFacts DagScheduler.

(** The first loop of [initialize]. *)
Definition storeAll (todos : list TodoSchema) (s0 : TodoDAG) : TodoDAG :=
  fold_left (fun s todo =>
               addNode (mkDag (adj s) (rev s) (safeTargetsCache s)
                              (mset (idToTodo s) (schemaId todo) (newTodo todo)))
                       (schemaId todo)) todos s0.

Lemma storeOne_edge s t a b :
  edge (addNode (mkDag (adj s) (rev s) (safeTargetsCache s)
                       (mset (idToTodo s) (schemaId t) (newTodo t))) (schemaId t)) a b
  <-> edge s a b.
Proof.
  unfold addNode, edge. simpl. destruct (mhas (adj s) (schemaId t)) eqn:E; [reflexivity|].
  rewrite !getChildrenOf_nb. simpl. rewrite nb_mset.
  destruct (schemaId t =? a) eqn:Ea; [|reflexivity].
  apply Z.eqb_eq in Ea. subst a. unfold nb. unfold mhas in E.
  destruct (mget (adj s) (schemaId t)); [discriminate | reflexivity].
Qed.

Lemma storeOne_idToTodo s t :
  idToTodo (addNode (mkDag (adj s) (rev s) (safeTargetsCache s)
                           (mset (idToTodo s) (schemaId t) (newTodo t))) (schemaId t))
  = mset (idToTodo s) (schemaId t) (newTodo t).
Proof. unfold addNode. simpl. now destruct (mhas (adj s) (schemaId t)). Qed.

Lemma storeAll_spec todos : forall s0,
  wf s0 ->
  wf (storeAll todos s0) /\
  (forall a b, edge (storeAll todos s0) a b <-> edge s0 a b) /\
  (forall k, hasTodo (storeAll todos s0) k = true <->
             hasTodo s0 k = true \/ In k (map schemaId todos)) /\
  (forall k, ~ In k (map schemaId todos) ->
             getTodoWithId (storeAll todos s0) k = getTodoWithId s0 k) /\
  (NoDup (map schemaId todos) -> forall t, In t todos ->
     getTodoWithId (storeAll todos s0) (schemaId t) = Some (newTodo t)).
Proof.
  unfold storeAll. induction todos as [|t todos IH]; intros s0 Hwf; simpl.
  - split; [assumption|]. split; [tauto|]. split; [tauto|]. split; [reflexivity|].
    intros _ t [].
  - set (s1 := addNode _ (schemaId t)).
    assert (Hwf1 : wf s1) by apply (wf_storeTodo s0 (newTodo t) Hwf).
    destruct (IH s1 Hwf1) as [H1 [H2 [H3 [H4 H5]]]].
    assert (Hhas1 : forall k, hasTodo s1 k = true <-> k = schemaId t \/ hasTodo s0 k = true).
    { intros k. unfold hasTodo. rewrite !mhas_In. subst s1.
      rewrite storeOne_idToTodo. apply mkeys_mset_In. }
    split; [assumption|]. split.
    { intros a b. rewrite H2. apply storeOne_edge. }
    split.
    { intros k. rewrite H3, Hhas1. intuition. }
    split.
    { intros k Hk. rewrite H4 by tauto. unfold getTodoWithId. subst s1.
      rewrite storeOne_idToTodo. apply mget_mset_neq. tauto. }
    intros Hnd t' Ht'. inversion Hnd as [|x l Hx Hl]; subst.
    destruct Ht' as [<- | Ht'].
    + rewrite H4 by assumption. unfold getTodoWithId. subst s1.
      rewrite storeOne_idToTodo. apply mget_mset_eq.
    + now apply H5.
Qed.

Lemma addDependency_edges s from to b s' :
  wf s -> addDependency s from to = Ok (b, s') ->
  idToTodo s' = idToTodo s /\
  forall a c, edge s' a c <->
    edge s a c \/ (a = from /\ c = to /\ hasTodo s from = true /\ hasTodo s to = true).
Proof.
  intros Hwf H. destruct (addDependency_inv _ _ _ _ _ H)
    as [[_ [-> Hno]] | [_ [Hf [Ht [-> _]]]]].
  - split; [reflexivity|]. intros a c. split; [auto|].
    intros [He | [_ [_ [H1 H2]]]]; [assumption|]. destruct Hno; congruence.
  - split; [reflexivity|]. intros a c. unfold edge. rewrite !getChildrenOf_nb.
    simpl. rewrite nb_mset. destruct (from =? a) eqn:E.
    + apply Z.eqb_eq in E. subst a. rewrite sadd_In. intuition.
    + apply Z.eqb_neq in E. intuition congruence.
Qed.

Lemma hasTodo_idToTodo s s' k : idToTodo s' = idToTodo s -> hasTodo s' k = hasTodo s k.
Proof. unfold hasTodo. now intros ->. Qed.

Lemma addDependencies_edges todo : forall deps s s',
  wf s ->
  fold_left (fun acc dep => s' <- acc ;;
                            r <- addDependency s' dep (schemaId todo) ;; Ok (snd r))
            deps (Ok s) = Ok s' ->
  wf s' /\ idToTodo s' = idToTodo s /\
  forall a c, edge s' a c <->
    edge s a c \/ (c = schemaId todo /\ In a deps /\
                   hasTodo s a = true /\ hasTodo s c = true).
Proof.
  induction deps as [|dep deps IH]; intros s s' Hwf.
  - simpl. intros [= <-]. split; [assumption|]. split; [reflexivity|].
    intros a c. split; [auto|]. intros [H | [_ [[] _]]]. exact H.
  - rewrite (foldM_cons (fun s dep => r <- addDependency s dep (schemaId todo) ;; Ok (snd r))).
    destruct (addDependency s dep (schemaId todo)) as [[b s1]| |] eqn:E; simpl;
      try discriminate.
    intros Hrest.
    destruct (addDependency_edges _ _ _ _ _ Hwf E) as [Hid1 He1].
    destruct (IH s1 s' (wf_addDependency _ _ _ _ _ Hwf E) Hrest) as [Hwf' [Hid He]].
    split; [assumption|]. split; [congruence|].
    intros a c. rewrite He, He1, !(hasTodo_idToTodo s s1) by assumption. simpl.
    intuition (subst; auto).
Qed.

Lemma addAll_edges : forall todos s s',
  wf s ->
  fold_left (fun acc todo => x <- acc ;; addDependencies x todo) todos (Ok s) = Ok s' ->
  wf s' /\ idToTodo s' = idToTodo s /\
  forall a c, edge s' a c <->
    edge s a c \/ (exists t, In t todos /\ c = schemaId t /\ In a (dependencies t) /\
                             hasTodo s a = true /\ hasTodo s c = true).
Proof.
  induction todos as [|t todos IH]; intros s s' Hwf.
  - simpl. intros [= <-]. split; [assumption|]. split; [reflexivity|].
    intros a c. split; [auto|]. intros [H | [t [[] _]]]. exact H.
  - rewrite foldM_cons.
    destruct (addDependencies s t) as [s1| |] eqn:E; simpl; try discriminate.
    intros Hrest. unfold addDependencies in E.
    destruct (addDependencies_edges t _ _ _ Hwf E) as [Hwf1 [Hid1 He1]].
    destruct (IH s1 s' Hwf1 Hrest) as [Hwf' [Hid He]].
    split; [assumption|]. split; [congruence|].
    assert (Hh : forall k, hasTodo s1 k = hasTodo s k)
      by (intros k; now apply hasTodo_idToTodo).
    intros a c. rewrite He, He1. split.
    + intros [[H | [H0 [H1 [H2 H3]]]] | [t' [H1 [H2 [H3 [H4 H5]]]]]].
      * now left.
      * right. exists t. split; [now left|]. auto.
      * right. exists t'. rewrite Hh in H4, H5. split; [now right|]. auto.
    + intros [H | [t' [[H0 | H1] [H2 [H3 [H4 H5]]]]]].
      * left. now left.
      * subst t'. left. right. auto.
      * right. exists t'. rewrite !Hh. auto.
Qed.

(** X12. [initialize] never throws, whatever list it is given.  The
    todos stored afterwards are exactly the ids of the list; the edge
    a→b is present exactly when some entry with id b lists a among its
    dependencies and a is itself an id of the list (dependencies on
    unknown ids are dropped silently, and no cycle check is made); with
    distinct ids every todo carries the duration of its entry; the
    safe-target cache is empty and minimumHours is freshly computed. *)
Theorem X12_initialize (todos : list TodoSchema) :
  exists s, initialize todos = Ok s /\
    (forall k, hasTodo s k = true <-> In k (map schemaId todos)) /\
    (forall a b, edge s a b <->
       In a (map schemaId todos) /\
       exists t, In t todos /\ schemaId t = b /\ In a (dependencies t)) /\
    (NoDup (map schemaId todos) -> forall t, In t todos ->
       durationOf s (schemaId t) = schemaDuration t) /\
    safeTargetsCache s = [] /\ scheduleConsistent s.
Proof.
  destruct (DagOperations.initialize_total todos) as [s Hs].
  exists s. split; [assumption|].
  pose proof (DagOperations.initialize_cache todos s Hs) as Hcache.
  unfold initialize in Hs. fold (storeAll todos emptyDag) in Hs.
  destruct (storeAll_spec todos emptyDag wf_empty) as [Hwf1 [He1 [Hh1 [_ Hd1]]]].
  destruct (fold_left _ todos (Ok (storeAll todos emptyDag))) as [s2| |] eqn:E2;
    simpl in Hs; try discriminate.
  destruct (addAll_edges todos _ _ Hwf1 E2) as [Hwf2 [Hid2 He2]].
  destruct (calculate_graph _ _ Hs) as [Ea [_ [_ [Ek Ht]]]].
  assert (Hhas : forall k, hasTodo s k = true <-> In k (map schemaId todos)).
  { intros k. unfold hasTodo. rewrite mhas_In. fold (allTodoIds s). rewrite Ek.
    unfold allTodoIds. rewrite Hid2, <- mhas_In. fold (hasTodo (storeAll todos emptyDag) k).
    rewrite Hh1. split; [intros [H | H]; [discriminate | assumption] | auto]. }
  split; [exact Hhas|]. split.
  { intros a b. unfold edge at 1. unfold getChildrenOf. rewrite Ea.
    fold (getChildrenOf s2 a). fold (edge s2 a b). rewrite He2, He1. split.
    - intros [[] | [t [H1 [-> [H3 [H4 _]]]]]].
      split; [apply Hh1 in H4; destruct H4 as [H4 | H4]; [discriminate | assumption]|].
      exists t. auto.
    - intros [Ha [t [H1 [<- H3]]]]. right. exists t.
      repeat split; auto; apply Hh1; right; [assumption|]. now apply in_map. }
  split.
  { intros Hnd t Hin. specialize (Hd1 Hnd t Hin).
    unfold getTodoWithId in Hd1. rewrite <- Hid2 in Hd1.
    destruct (Ht _ _ Hd1) as [t' [Hg [_ Hdur]]]. unfold durationOf.
    unfold getTodoWithId in Hg. now rewrite Hg, Hdur. }
  split; [assumption | eapply calculate_consistent; eauto].
Qed.

(** Witness for X12: scenario 1 as stored by the server. *)
Lemma X12_initialize_witness :
  exists s, initialize [mkSchema 1 3 []; mkSchema 2 5 [1; 9]] = Ok s /\
    durationOf s 2 = 5.
Proof.
  destruct (X12_initialize [mkSchema 1 3 []; mkSchema 2 5 [1; 9]])
    as [s [Hs [_ [_ [Hd _]]]]].
  exists s. split; [assumption|].
  apply (Hd ltac:(repeat constructor; simpl; intuition lia) (mkSchema 2 5 [1; 9])).
  right. now left.
Defined.

End DagInitialize.

(** ** The weighted revision against dag.ts *)

Lemma mkeys_mset_congr {V W : Type} (m : JsMap V) (m' : JsMap W) (k : Z) (v : V) (v' : W) :
  mkeys m = mkeys m' -> mkeys (mset m k v) = mkeys (mset m' k v').
Proof.
  intros H. destruct (in_dec Z.eq_dec k (mkeys m)) as [Hin | Hnin].
  - rewrite !mkeys_mset_has; congruence.
  - rewrite !mkeys_mset_new; congruence.
Qed.

Lemma mhas_congr {V W : Type} (m : JsMap V) (m' : JsMap W) (k : Z) :
  mkeys m = mkeys m' -> mhas m k = mhas m' k.
Proof.
  intros H. destruct (mhas m' k) eqn:E.
  - apply mhas_In. apply mhas_In in E. congruence.
  - apply mhas_false. apply mhas_false in E. congruence.
Qed.

Lemma mkeys_mset_sadd (m : JsMap Z) (k x : Z) : mkeys (mset m k x) = sadd (mkeys m) k.
Proof.
  unfold sadd. destruct (shas (mkeys m) k) eqn:E.
  - apply shas_In in E. now apply mkeys_mset_has.
  - apply shas_false in E. now apply mkeys_mset_new.
Qed.

Lemma mkeys_mdelete_sdelete (m : JsMap Z) (k : Z) : mkeys (mdelete m k) = sdelete (mkeys m) k.
Proof. apply mkeys_mdelete. Qed.

Lemma mhas_shas (m : JsMap Z) (k : Z) : mhas m k = shas (mkeys m) k.
Proof.
  destruct (shas (mkeys m) k) eqn:E.
  - apply mhas_In. now apply shas_In.
  - apply mhas_false. now apply shas_false.
Qed.

(** Forward adjacency with the weights dropped. *)
Definition dropWeights (m : JsMap (JsMap Z)) : JsMap JsSet :=
  map (fun e => (fst e, mkeys (snd e))) m.

Lemma dropWeights_mset m k v : dropWeights (mset m k v) = mset (dropWeights m) k (mkeys v).
Proof.
  unfold dropWeights. induction m as [|[k' v'] m IH]; simpl; [reflexivity|].
  destruct (k' =? k); simpl; [reflexivity | now rewrite IH].
Qed.

Lemma dropWeights_mdelete m k : dropWeights (mdelete m k) = mdelete (dropWeights m) k.
Proof.
  unfold dropWeights, mdelete. induction m as [|[k' v'] m IH]; simpl; [reflexivity|].
  destruct (k' =? k); simpl; now rewrite IH.
Qed.

Lemma dropWeights_mupdateAll m x :
  dropWeights (mupdateAll (fun edges => mdelete edges x) m)
  = mupdateAll (fun targets => sdelete targets x) (dropWeights m).
Proof.
  unfold dropWeights, mupdateAll. rewrite !map_map. apply map_ext.
  intros [k v]. simpl. now rewrite mkeys_mdelete_sdelete.
Qed.

Lemma dropWeights_get m k : mget (dropWeights m) k = option_map mkeys (mget m k).
Proof. unfold dropWeights. apply (mget_map_values (fun v : JsMap Z => mkeys v)). Qed.

Lemma dropWeights_keys m : mkeys (dropWeights m) = mkeys m.
Proof. unfold dropWeights. apply mkeys_map_values. Qed.

Module Simulation.
Import CycleGuards.

(** The operation of dag.ts that corresponds to one of the weighted
    revision. *)
Definition dagTodo (t : Weighted.Todo) : Dag.Todo :=
  Dag.mkTodo (Weighted.id t) (Weighted.duration t) 0.

Definition dagOp (o : Weighted.Op) : Dag.Op :=
  match o with
  | Weighted.AddTodo todo => Dag.AddTodo (dagTodo todo)
  | Weighted.AddDependency from to => Dag.AddDependency from to
  | Weighted.DeleteDependency from to => Dag.DeleteDependency from to
  | Weighted.DeleteNode node => Dag.DeleteNode node
  | Weighted.GetSafeTargets from => Dag.GetSafeTargets from
  | Weighted.CalculateEarliestStartTimes => Dag.CalculateEarliestStartTimes
  end.

Lemma sameGraph_intro s w :
  mkeys (Dag.idToTodo s) = mkeys (Weighted.idToTodo w) ->
  Dag.rev s = Weighted.rev w ->
  Dag.adj s = dropWeights (Weighted.adj w) -> sameGraph s w.
Proof. intros H1 H2 H3. repeat split; assumption. Qed.

Lemma storeMinimumHours_keys es : forall m,
  mkeys (fold_left Weighted.storeMinimumHours es m) = mkeys m.
Proof.
  induction es as [|e es IH]; intros m; simpl; [reflexivity|].
  rewrite IH. unfold Weighted.storeMinimumHours.
  destruct (mget m (fst e)) eqn:E; [|reflexivity].
  apply mkeys_mset_has. eapply mget_Some_keys; eauto.
Qed.

Lemma weighted_calculate_graph w w' :
  Weighted.calculateEarliestStartTimes w = Ok w' ->
  Weighted.adj w' = Weighted.adj w /\ Weighted.rev w' = Weighted.rev w /\
  Weighted.safeTargetsCache w' = Weighted.safeTargetsCache w /\
  mkeys (Weighted.idToTodo w') = mkeys (Weighted.idToTodo w).
Proof.
  unfold Weighted.calculateEarliestStartTimes.
  destruct (Weighted.earliestStarts w) as [es| |]; simpl; try discriminate.
  intros [= <-]. simpl. repeat split. apply storeMinimumHours_keys.
Qed.

Lemma sameGraph_calculate s w s' w' :
  sameGraph s w ->
  Dag.calculateEarliestStartTimes s = Ok s' ->
  Weighted.calculateEarliestStartTimes w = Ok w' -> sameGraph s' w'.
Proof.
  intros [H1 [H2 H3]] Hs Hw.
  destruct (DagScheduler.calculate_graph _ _ Hs) as [Ea [Er [_ [Ek _]]]].
  destruct (weighted_calculate_graph _ _ Hw) as [Wa [Wr [_ Wk]]].
  apply sameGraph_intro.
  - fold (Dag.allTodoIds s'). rewrite Ek, Wk. exact H1.
  - congruence.
  - rewrite Ea, Wa. exact H3.
Qed.

Lemma sameGraph_step s w o w' :
  Dag.wf s -> sameGraph s w -> Weighted.step w o = Ok w' ->
  exists s', Dag.step s (dagOp o) = Ok s' /\ sameGraph s' w'.
Proof.
  intros Hwf Hsame Hw.
  destruct (DagOperations.step_total s (dagOp o) Hwf) as [s' Hs].
  exists s'. split; [assumption|].
  pose proof Hsame as [H1 [H2 H3]]. unfold Dag.allTodoIds, Weighted.allTodoIds in H1.
  assert (Hkeys : mkeys (Dag.adj s) = mkeys (Weighted.adj w)).
  { rewrite H3. apply dropWeights_keys. }
  assert (Hhas : forall k, Dag.hasTodo s k = Weighted.hasTodo w k).
  { intros k. unfold Dag.hasTodo, Weighted.hasTodo. now apply mhas_congr. }
  destruct o; simpl in Hw, Hs.
  - (* addTodo *)
    unfold Dag.addTodo in Hs. unfold Weighted.addTodo in Hw.
    eapply sameGraph_calculate; [|exact Hs|exact Hw].
    unfold Dag.addNode, Weighted.addNode. simpl.
    rewrite (mhas_congr _ _ (Weighted.id todo) Hkeys).
    destruct (mhas (Weighted.adj w) (Weighted.id todo)); apply sameGraph_intro; simpl;
      try assumption; try (now apply mkeys_mset_congr); try congruence.
    rewrite dropWeights_mset. now rewrite H3.
  - (* addDependency *)
    unfold Dag.addDependency in Hs. unfold Weighted.addDependency in Hw.
    rewrite !Hhas in Hs.
    destruct (negb (Weighted.hasTodo w from) || negb (Weighted.hasTodo w to))%bool.
    + simpl in *. injection Hs as <-. injection Hw as <-. assumption.
    + destruct (Weighted.getTodoWithId w from) as [source|]; [|discriminate].
      rewrite H3, dropWeights_get in Hs.
      destruct (mget (Weighted.adj w) from) as [targets|]; [|discriminate].
      simpl in Hs.
      rewrite <- H2 in Hw.
      destruct (mget (Dag.rev s) to) as [sources|]; [|discriminate].
      simpl in *. injection Hs as <-. injection Hw as <-.
      apply sameGraph_intro; simpl; try assumption; try reflexivity.
      now rewrite dropWeights_mset, mkeys_mset_sadd.
  - (* deleteDependency *)
    unfold Dag.deleteDependency, Dag.hasDependency in Hs.
    unfold Weighted.deleteDependency, Weighted.hasDependency in Hw.
    rewrite !Hhas in Hs.
    destruct (negb (Weighted.hasTodo w from) || negb (Weighted.hasTodo w to))%bool.
    + simpl in *. injection Hs as <-. injection Hw as <-. assumption.
    + rewrite H3, dropWeights_get in Hs. rewrite <- H2 in Hw.
      destruct (mget (Weighted.adj w) from) as [targets|]; [|discriminate].
      simpl in Hs, Hw. rewrite <- mhas_shas in Hs.
      destruct (mhas targets to); simpl in Hs, Hw.
      * eapply sameGraph_calculate; [|exact Hs|exact Hw].
        apply sameGraph_intro; simpl; try assumption; try reflexivity.
        now rewrite dropWeights_mset, mkeys_mdelete_sdelete.
      * injection Hs as <-. injection Hw as <-. assumption.
  - (* deleteNode *)
    unfold Dag.deleteNode in Hs. unfold Weighted.deleteNode in Hw.
    eapply sameGraph_calculate; [|exact Hs|exact Hw].
    apply sameGraph_intro; simpl.
    + rewrite !mkeys_mdelete. congruence.
    + congruence.
    + now rewrite dropWeights_mupdateAll, dropWeights_mdelete, H3.
  - (* getSafeTargets *)
    destruct (Dag.getSafeTargets s from) as [[r s1]| |] eqn:Es; simpl in Hs;
      try discriminate.
    injection Hs as <-.
    destruct (Weighted.getSafeTargets w from) as [[r' w1]| |] eqn:Ew; simpl in Hw;
      try discriminate.
    injection Hw as <-.
    destruct (DagFacts.getSafeTargets_state _ _ _ _ Es) as [c ->].
    unfold Weighted.getSafeTargets in Ew.
    destruct (mget (Weighted.safeTargetsCache w) from).
    + injection Ew as _ <-. apply sameGraph_intro; assumption.
    + destruct (Weighted.computeSafeTargets w from); simpl in Ew; try discriminate.
      injection Ew as _ <-. apply sameGraph_intro; assumption.
  - eapply sameGraph_calculate; eauto.
Qed.

Lemma sameGraph_run ops : forall s w w',
  Dag.wf s -> sameGraph s w -> Weighted.run ops w = Ok w' ->
  exists s', Dag.run (map dagOp ops) s = Ok s' /\ Dag.wf s' /\ sameGraph s' w'.
Proof.
  unfold Weighted.run, Dag.run.
  induction ops as [|o ops IH]; intros s w w' Hwf Hsame.
  - simpl. intros [= <-]. eauto.
  - rewrite (DagFacts.foldM_cons Weighted.step). simpl map.
    rewrite (DagFacts.foldM_cons Dag.step).
    destruct (Weighted.step w o) as [w1| |] eqn:Ew; simpl; try discriminate.
    destruct (sameGraph_step s w o w1 Hwf Hsame Ew) as [s1 [Es Hs1]].
    rewrite Es. simpl. apply IH; [eapply DagFacts.wf_step; eauto | assumption].
Qed.

End Simulation.

(** ** The scheduler of the weighted revision *)

Module WeightedScheduler.
Import Weighted.

(** [minimumHours] of the todo stored under [k], read as an integer. *)
Definition startOf (w : TodoDAG) (k : Z) : Z :=
  match mget (idToTodo w) k with
  | Some t => match minimumHours t with Num z => z | NaN => 0 end
  | None => 0
  end.

Definition durationsNonneg (w : TodoDAG) : Prop :=
  forall k t, mget (idToTodo w) k = Some t -> 0 <= duration t.

Lemma sim_wf s w : Dag.wf s -> CycleGuards.sameGraph s w -> wf w.
Proof.
  intros Hwf Hsame. pose proof Hsame as [H1 [H2 H3]].
  unfold Dag.allTodoIds, allTodoIds in H1. fold (dropWeights (adj w)) in H3.
  assert (Hc : forall k, getChildrenOf w k = Dag.getChildrenOf s k).
  { intros k. symmetry. now apply CycleGuards.sameGraph_children. }
  assert (Hp : forall k, getParentIds w k = Dag.getParentIds s k).
  { intros k. unfold getParentIds, Dag.getParentIds. now rewrite H2. }
  constructor.
  - rewrite <- H1. apply (Dag.wf_todo_keys _ Hwf).
  - rewrite <- H1, <- (Dag.wf_keys_adj _ Hwf), H3. symmetry. apply dropWeights_keys.
  - rewrite <- H1, <- (Dag.wf_keys_rev _ Hwf). now rewrite H2.
  - intros k ns Hg. apply (Dag.wf_sets_adj _ Hwf k).
    now rewrite H3, dropWeights_get, Hg.
  - intros k ns Hg. apply (Dag.wf_sets_rev _ Hwf k). now rewrite H2.
  - intros a b. rewrite Hc, Hp. apply (Dag.wf_mirror _ Hwf).
  - intros a b. unfold edge. rewrite Hc, <- H1. apply (Dag.wf_closed _ Hwf).
Qed.

(** Every state the weighted revision can reach is well formed. *)
Lemma weighted_reachable_wf w : reachable w -> wf w.
Proof.
  intros [ops Hrun].
  destruct (Simulation.sameGraph_run ops Dag.emptyDag emptyDag w) as [s [_ [Hwf Hs]]].
  - apply DagFacts.wf_empty.
  - repeat split.
  - assumption.
  - eapply sim_wf; eauto.
Qed.

Section Tables.

Variable w : TodoDAG.
Hypothesis Hwf : wf w.

Let ids := allTodoIds w.
Let parents := getParentIds w.

Lemma parents_ids a b : In a (parents b) -> In a ids /\ In b ids.
Proof.
  intros H. split.
  - apply (wf_mirror _ Hwf) in H. unfold getChildrenOf in H.
    destruct (mget (adj w) a) eqn:E; [|destruct H].
    unfold ids, allTodoIds. rewrite <- (wf_keys_adj _ Hwf). eapply mget_Some_keys; eauto.
  - unfold parents, getParentIds in H. destruct (mget (rev w) b) eqn:E; [|destruct H].
    unfold ids, allTodoIds. rewrite <- (wf_keys_rev _ Hwf). eapply mget_Some_keys; eauto.
Qed.

Lemma parents_NoDup b : NoDup (parents b).
Proof.
  unfold parents, getParentIds. destruct (mget (rev w) b) eqn:E; [|constructor].
  eapply (wf_sets_rev _ Hwf); eauto.
Qed.

(** One step of the first loop. *)
Definition initOne (t : Tables) (todoId : Z) : Tables :=
  mkTables (mset (tGraph t) todoId [])
           (mset (tIndegree t) todoId (Num 0))
           (mset (tDuration t) todoId
              (Num match getTodoWithId w todoId with
                   | Some task => duration task
                   | None => 0
                   end))
           (mset (tEarliestStart t) todoId (Num 0)).

Definition fresh (t : Tables) (v : Z) : Prop :=
  mget (tGraph t) v = Some [] /\ getN (tIndegree t) v = Num 0 /\
  getN (tDuration t) v = Num (durationOf w v) /\ getN (tEarliestStart t) v = Num 0.

Lemma initOne_fresh t k v : k = v \/ fresh t v -> fresh (initOne t k) v.
Proof.
  unfold fresh, initOne. simpl. rewrite !getN_mset, mget_mset.
  destruct (k =? v) eqn:E.
  - apply Z.eqb_eq in E. subst. intros _.
    split; [reflexivity|]. split; [reflexivity|]. split; reflexivity.
  - apply Z.eqb_neq in E. intros [H | H]; [contradiction | exact H].
Qed.

Lemma init_fold_fresh l : forall t v,
  In v l \/ fresh t v -> fresh (fold_left initOne l t) v.
Proof.
  induction l as [|k l IH]; intros t v; simpl.
  - intros [[] | H]. exact H.
  - intros H. apply IH. destruct (in_dec Z.eq_dec v l) as [Hin | Hnin]; [now left|].
    right. apply initOne_fresh. destruct H as [[H | H] | H]; auto. contradiction.
Qed.

Lemma init_fold_keys l : forall t,
  NoDup (mkeys (tGraph t) ++ l) -> mkeys (tIndegree t) = mkeys (tGraph t) ->
  mkeys (tEarliestStart t) = mkeys (tGraph t) ->
  mkeys (tGraph (fold_left initOne l t)) = mkeys (tGraph t) ++ l /\
  mkeys (tIndegree (fold_left initOne l t)) = mkeys (tGraph t) ++ l /\
  mkeys (tEarliestStart (fold_left initOne l t)) = mkeys (tGraph t) ++ l.
Proof.
  induction l as [|k l IH]; intros t Hnd Hi He; simpl.
  - rewrite app_nil_r. auto.
  - assert (Hk : ~ In k (mkeys (tGraph t))).
    { apply NoDup_remove_2 in Hnd. intros H. apply Hnd, in_or_app. now left. }
    assert (Hg : mkeys (tGraph (initOne t k)) = mkeys (tGraph t) ++ [k]).
    { simpl. now apply mkeys_mset_new. }
    destruct (IH (initOne t k)) as [H1 [H2 H3]].
    + rewrite Hg, <- app_assoc. exact Hnd.
    + rewrite Hg. simpl. rewrite mkeys_mset_new; congruence.
    + rewrite Hg. simpl. rewrite mkeys_mset_new; congruence.
    + rewrite H1, H2, H3, Hg, <- app_assoc. auto.
Qed.

Lemma initTables_spec :
  (forall v, In v ids -> fresh (initTables w) v) /\
  mkeys (tGraph (initTables w)) = ids /\
  mkeys (tIndegree (initTables w)) = ids /\
  mkeys (tEarliestStart (initTables w)) = ids.
Proof.
  change (initTables w) with (fold_left initOne ids (mkTables [] [] [] [])).
  split.
  - intros v Hv. apply init_fold_fresh. now left.
  - apply (init_fold_keys ids (mkTables [] [] [] [])); simpl; auto.
    apply (wf_todo_keys _ Hwf).
Qed.

(** *** The second loop *)

(** Tables whose graph and in-degree entries hold what the processed
    todos contributed. *)
Definition built (done : list Z) (t : Tables) : Prop :=
  mkeys (tGraph t) = ids /\ mkeys (tIndegree t) = ids /\
  tDuration t = tDuration (initTables w) /\
  tEarliestStart t = tEarliestStart (initTables w) /\
  (forall a, In a ids ->
     mget (tGraph t) a = Some (filter (fun b => shas (parents b) a) done)) /\
  (forall v, In v ids ->
     getN (tIndegree t) v =
     Num (if shas done v then Z.of_nat (length (parents v)) else 0)).

Lemma addIncoming_fold todoId : forall ps t z0,
  NoDup ps -> (forall p, In p ps -> In p (mkeys (tGraph t))) ->
  getN (tIndegree t) todoId = Num z0 ->
  exists t', fold_left (addIncoming todoId) ps (Ok t) = Ok t' /\
    mkeys (tGraph t') = mkeys (tGraph t) /\
    mkeys (tIndegree t') = mkeys (tIndegree t) /\
    tDuration t' = tDuration t /\ tEarliestStart t' = tEarliestStart t /\
    (forall a, mget (tGraph t') a =
       option_map (fun l => l ++ if shas ps a then [todoId] else []) (mget (tGraph t) a)) /\
    getN (tIndegree t') todoId = Num (z0 + Z.of_nat (length ps)) /\
    (forall v, v <> todoId -> getN (tIndegree t') v = getN (tIndegree t) v).
Proof.
  induction ps as [|p ps IH]; intros t z0 Hnd Hin Hz.
  - exists t. split; [reflexivity|]. repeat split; try reflexivity.
    + intros a. simpl. destruct (mget (tGraph t) a); simpl; [now rewrite app_nil_r | reflexivity].
    + rewrite Hz. simpl. now rewrite Z.add_0_r.
  - inversion Hnd as [|x l Hp Hnd']; subst.
    destruct (mget_keys_Some _ _ (Hin p (or_introl eq_refl))) as [deps Hdeps].
    cbn [fold_left]. unfold addIncoming at 2. simpl. rewrite Hdeps.
    set (t1 := mkTables _ _ _ _).
    assert (Hz1 : getN (tIndegree t1) todoId = Num (z0 + 1)).
    { subst t1. simpl. rewrite getN_mset, Z.eqb_refl. unfold incr.
      fold (valueAt (tIndegree t) todoId). now rewrite (valueAt_getN _ _ _ Hz). }
    assert (Hg1 : mkeys (tGraph t1) = mkeys (tGraph t)).
    { subst t1. simpl. apply mkeys_mset_has. eapply mget_Some_keys; eauto. }
    assert (Hi1 : mkeys (tIndegree t1) = mkeys (tIndegree t)).
    { subst t1. simpl. apply mkeys_mset_has. unfold getN in Hz.
      destruct (mget (tIndegree t) todoId) eqn:E; [|discriminate].
      eapply mget_Some_keys; eauto. }
    destruct (IH t1 (z0 + 1) Hnd') as [t' [Hf [H1 [H2 [H3 [H4 [H5 [H6 H7]]]]]]]].
    { intros q Hq. rewrite Hg1. apply Hin. now right. }
    { exact Hz1. }
    exists t'. split; [exact Hf|]. split; [congruence|]. split; [congruence|].
    split; [now rewrite H3|]. split; [now rewrite H4|]. split; [|split].
    + intros a. rewrite H5. subst t1. cbn [tGraph]. rewrite mget_mset.
      destruct (p =? a) eqn:E.
      * apply Z.eqb_eq in E. subst a. rewrite Hdeps, Z.eqb_refl.
        apply shas_false in Hp. rewrite Hp. simpl. now rewrite app_nil_r.
      * rewrite Z.eqb_sym, E. reflexivity.
    + rewrite H6. f_equal. simpl length. lia.
    + intros v Hv. rewrite (H7 v Hv). subst t1. simpl. rewrite getN_mset.
      destruct (todoId =? v) eqn:E; [|reflexivity].
      apply Z.eqb_eq in E. congruence.
Qed.

Lemma buildGraph_fold : forall l done t,
  NoDup (done ++ l) -> (forall x, In x l -> In x ids) -> built done t ->
  exists t',
    fold_left (fun acc todoId => fold_left (addIncoming todoId) (getParentIds w todoId) acc)
              l (Ok t) = Ok t' /\
    built (done ++ l) t'.
Proof.
  induction l as [|k l IH]; intros done t Hnd Hin Hb.
  - exists t. rewrite app_nil_r. auto.
  - destruct Hb as [Bg [Bi [Bd [Be [Bgr Bind]]]]].
    assert (Hk : In k ids) by (apply Hin; now left).
    assert (Hkd : ~ In k done).
    { apply NoDup_remove_2 in Hnd. intros H. apply Hnd, in_or_app. now left. }
    destruct (addIncoming_fold k (parents k) t 0) as [t1 [Hf [H1 [H2 [H3 [H4 [H5 [H6 H7]]]]]]]].
    + apply parents_NoDup.
    + intros p Hp. rewrite Bg. now apply (parents_ids p k).
    + rewrite (Bind k Hk). apply shas_false in Hkd. now rewrite Hkd.
    + cbn [fold_left]. fold parents. rewrite Hf.
      replace (done ++ k :: l) with ((done ++ [k]) ++ l)
        by (rewrite <- app_assoc; reflexivity).
      apply IH.
      * rewrite <- app_assoc. exact Hnd.
      * intros x Hx. apply Hin. now right.
      * split; [congruence|]. split; [congruence|]. split; [congruence|].
        split; [congruence|]. split.
        -- intros a Ha. rewrite H5, (Bgr a Ha). simpl. f_equal.
           rewrite filter_app. simpl. now destruct (shas (parents k) a).
        -- intros v Hv. rewrite shas_snoc. destruct (v =? k) eqn:E.
           ++ apply Z.eqb_eq in E. subst v. rewrite orb_true_r, H6. reflexivity.
           ++ rewrite orb_false_r. apply Z.eqb_neq in E. rewrite (H7 v E). now apply Bind.
Qed.

Lemma buildGraph_spec :
  exists t, buildGraph w (initTables w) = Ok t /\ built ids t.
Proof.
  destruct initTables_spec as [Hfresh [Kg [Ki Ke]]].
  destruct (buildGraph_fold ids [] (initTables w)) as [t [Hf Hb]].
  - apply (wf_todo_keys _ Hwf).
  - auto.
  - split; [assumption|]. split; [assumption|]. split; [reflexivity|].
    split; [reflexivity|]. split.
    + intros a Ha. simpl. apply (Hfresh a Ha).
    + intros v Hv. simpl. apply (Hfresh v Hv).
  - exists t. split; [exact Hf | exact Hb].
Qed.

End Tables.

Lemma filter_keys_NoDup {V : Type} (f : Z * V -> bool) (m : JsMap V) :
  NoDup (mkeys m) -> NoDup (map fst (filter f m)).
Proof.
  unfold mkeys. induction m as [|[k v] m IH]; simpl; [constructor|].
  intros Hnd. inversion Hnd as [|x l Hk Hm]; subst.
  destruct (f (k, v)); simpl; [|auto].
  constructor; [|auto]. intros Hin. apply Hk.
  apply in_map_iff in Hin. destruct Hin as [e [He Hin]].
  apply filter_In in Hin. apply in_map_iff. exists e. tauto.
Qed.

Lemma filter_keys_In {V : Type} (f : Z * V -> bool) (m : JsMap V) (k : Z) :
  NoDup (mkeys m) ->
  (In k (map fst (filter f m)) <-> exists v, mget m k = Some v /\ f (k, v) = true).
Proof.
  intros Hnd. rewrite in_map_iff. split.
  - intros [[k' v] [<- Hin]]. apply filter_In in Hin. destruct Hin as [Hin Hf].
    exists v. split; [now apply In_mget | assumption].
  - intros [v [Hg Hf]]. exists (k, v). split; [reflexivity|].
    apply filter_In. split; [now apply mget_Some_In | assumption].
Qed.

Lemma relax_es_keys ft st n :
  NoDup (mkeys (earliestStart st)) -> NoDup (mkeys (earliestStart (relax ft st n))).
Proof. intros H. unfold relax. simpl. now apply mkeys_mset_NoDup. Qed.

Lemma fold_relax_es_keys ft l : forall st,
  NoDup (mkeys (earliestStart st)) ->
  NoDup (mkeys (earliestStart (fold_left (relax ft) l st))).
Proof.
  induction l as [|n l IH]; intros st H; simpl; [assumption|].
  apply IH. now apply relax_es_keys.
Qed.

Lemma kahnLoop_es_keys children dur fuel : forall st st',
  NoDup (mkeys (earliestStart st)) ->
  kahnLoop children dur fuel st = Some st' -> NoDup (mkeys (earliestStart st')).
Proof.
  induction fuel as [|f IH]; intros [q ind es] st' H; simpl.
  - destruct q; [|discriminate]. now intros [= <-].
  - destruct q as [|c q]; [now intros [= <-]|].
    apply IH. now apply fold_relax_es_keys.
Qed.

Lemma store_fold es : forall m k,
  NoDup (mkeys es) ->
  mget (fold_left storeMinimumHours es m) k =
  match mget m k with
  | Some todo => Some match mget es k with
                      | Some v => mkTodo (id todo) (duration todo) v
                      | None => todo
                      end
  | None => None
  end.
Proof.
  induction es as [|[k0 v0] es IH]; intros m k Hnd.
  - simpl. now destruct (mget m k).
  - inversion Hnd as [|x l Hk Hes]; subst. cbn [fold_left]. rewrite (IH _ k Hes).
    unfold storeMinimumHours. cbn [fst snd]. simpl mget.
    destruct (k0 =? k) eqn:E.
    + apply Z.eqb_eq in E. subst k0.
      assert (Hn : mget es k = None) by now apply mget_None.
      rewrite Hn. destruct (mget m k) as [todo|] eqn:Em.
      * now rewrite mget_mset_eq.
      * now rewrite Em.
    + apply Z.eqb_neq in E. destruct (mget m k0) as [todo0|].
      * rewrite mget_mset_neq by assumption. reflexivity.
      * reflexivity.
Qed.

Section Run.

Variable w : TodoDAG.
Hypothesis Hwf : wf w.

Let ids := allTodoIds w.
Let parents := getParentIds w.

(** The ids dequeued by the loop of the weighted scheduler. *)
Definition dequeued : list Z :=
  match buildGraph w (initTables w) with
  | Ok t => kahnTrace (graphChildren (tGraph t)) (tDuration t)
              (2 * length (idToTodo w))%nat
              (mkKahn (zeroIndegree (tIndegree t)) (tIndegree t) (tEarliestStart t))
  | _ => []
  end.

Lemma weighted_scheduler_run :
  exists t st',
    buildGraph w (initTables w) = Ok t /\
    kahnLoop (graphChildren (tGraph t)) (tDuration t) (2 * length (idToTodo w))%nat
      (mkKahn (zeroIndegree (tIndegree t)) (tIndegree t) (tEarliestStart t)) = Some st' /\
    queue st' = [] /\
    KInv parents ids (durationOf w) dequeued st' /\
    NoDup (mkeys (earliestStart st')) /\
    (forall a b, In b (graphChildren (tGraph t) a) <-> In a (parents b)).
Proof.
  destruct (buildGraph_spec w Hwf) as [t [Ht [Bg [Bi [Bd [Be [Bgr Bind]]]]]]].
  destruct (initTables_spec w Hwf) as [Hfresh [_ [_ Ke]]].
  fold ids in Bg, Bi, Bgr, Bind, Hfresh, Ke.
  assert (Hids : NoDup ids) by apply (wf_todo_keys _ Hwf).
  assert (Hch : forall a b, In b (graphChildren (tGraph t) a) <-> In a (parents b)).
  { intros a b. unfold graphChildren. destruct (in_dec Z.eq_dec a ids) as [Ha | Ha].
    - rewrite (Bgr a Ha), filter_In, shas_In. split; [tauto|].
      intros H. split; [|assumption]. now apply (parents_ids w Hwf a b).
    - assert (Hn : mget (tGraph t) a = None) by (apply mget_None; congruence).
      rewrite Hn. split; [intros []|]. intros H. apply Ha. now apply (parents_ids w Hwf a b). }
  assert (Hind : forall v, In v ids ->
            getN (tIndegree t) v = Num (Z.of_nat (length (parents v)))).
  { intros v Hv. rewrite (Bind v Hv). apply shas_In in Hv. now rewrite Hv. }
  assert (HndI : NoDup (mkeys (tIndegree t))) by congruence.
  destruct (kahnLoop_total (graphChildren (tGraph t)) (tDuration t)
              (2 * length (idToTodo w))%nat
              (mkKahn (zeroIndegree (tIndegree t)) (tIndegree t) (tEarliestStart t)))
    as [st' Hloop].
  { unfold potential, zeroIndegree. simpl. rewrite length_map.
    pose proof (filter_length_le (fun e : Z * number => nis0 (snd e)) (tIndegree t)).
    pose proof (pending_le_length (tIndegree t)).
    assert (length (tIndegree t) = length (idToTodo w)).
    { rewrite <- (length_map fst (tIndegree t)). fold (mkeys (tIndegree t)).
      rewrite Bi. unfold ids, allTodoIds, mkeys. apply length_map. }
    lia. }
  exists t, st'. split; [exact Ht|]. split; [exact Hloop|].
  assert (Hinit : KInv parents ids (durationOf w) []
            (mkKahn (zeroIndegree (tIndegree t)) (tIndegree t) (tEarliestStart t))).
  { constructor; simpl.
    - unfold zeroIndegree. now apply filter_keys_NoDup.
    - intros v Hv. unfold zeroIndegree in Hv.
      apply (filter_keys_In _ _ _ HndI) in Hv. destruct Hv as [x [Hx _]].
      rewrite <- Bi. eapply mget_Some_keys; eauto.
    - intros v Hv. rewrite unprocessed_nil. now apply Hind.
    - intros v Hv. rewrite unprocessed_nil. unfold zeroIndegree.
      rewrite (filter_keys_In _ _ _ HndI). pose proof (Hind v Hv) as Hi.
      unfold getN in Hi. destruct (mget (tIndegree t) v) as [x|] eqn:Ex; [|discriminate].
      subst x. split.
      + intros [x [[= <-] Hz]]. simpl in Hz. apply Z.eqb_eq in Hz. lia.
      + intros Hz. eexists. split; [reflexivity|]. simpl. rewrite Hz. reflexivity.
    - intros v Hv. rewrite Be. destruct (Hfresh v Hv) as [_ [_ [_ ->]]].
      now rewrite propagated_none.
    - constructor. }
  destruct (KInv_loop (graphChildren (tGraph t)) parents ids (tDuration t) (durationOf w))
    with (fuel := (2 * length (idToTodo w))%nat) (P := @nil Z)
         (st := mkKahn (zeroIndegree (tIndegree t)) (tIndegree t) (tEarliestStart t))
         (st' := st') as [HI Hq]; try assumption.
  - intros a b Hab. apply Hch in Hab. now apply (parents_ids w Hwf a b).
  - intros a. unfold graphChildren. destruct (mget (tGraph t) a) as [l|] eqn:E; [|constructor].
    assert (Ha : In a ids) by (rewrite <- Bg; eapply mget_Some_keys; eauto).
    rewrite (Bgr a Ha) in E. injection E as <-. now apply NoDup_filter.
  - apply (parents_NoDup w Hwf).
  - intros v Hv. rewrite Bd. now destruct (Hfresh v Hv) as [_ [_ [-> _]]].
  - split; [exact Hq|]. split.
    + unfold dequeued. rewrite Ht. exact HI.
    + split; [|exact Hch].
      apply (kahnLoop_es_keys _ _ _ _ st') in Hloop; [exact Hloop|].
      simpl. rewrite Be, Ke. exact Hids.
Qed.

End Run.

Lemma edge_parents w a b : wf w -> (edge w a b <-> In a (getParentIds w b)).
Proof. intros Hwf. apply (wf_mirror _ Hwf). Qed.

(** What the loop leaves behind on a well-formed state, cyclic or not. *)
Lemma weighted_scheduler_values w :
  wf w ->
  exists es, earliestStarts w = Ok es /\
    NoDup (mkeys es) /\
    NoDup (dequeued w) /\
    (forall v, In v (dequeued w) -> In v (allTodoIds w)) /\
    topo (getParentIds w) (dequeued w) /\
    (forall v, In v (allTodoIds w) ->
       (In v (dequeued w) <-> forall p, In p (getParentIds w v) -> In p (dequeued w))) /\
    (forall c v, reachp (edge w) c c -> reach (edge w) c v -> ~ In v (dequeued w)) /\
    (acyclic (edge w) -> forall v, In v (allTodoIds w) -> In v (dequeued w)) /\
    (forall v, In v (allTodoIds w) ->
       getN es v = Num (propagated (shas (dequeued w))
                          (finish (durationOf w) es) (getParentIds w v))).
Proof.
  intros Hwf.
  destruct (weighted_scheduler_run w Hwf) as [t [st' [Ht [Hloop [Hq [HI [Hnd Hch]]]]]]].
  exists (earliestStart st'). unfold earliestStarts. rewrite Ht. cbn [bind]. rewrite Hloop.
  split; [reflexivity|]. split; [assumption|].
  pose proof (ki_nodup _ _ _ _ _ HI) as H1. rewrite Hq, app_nil_r in H1.
  assert (HE : forall a b, edge w a b <-> In b (graphChildren (tGraph t) a)).
  { intros a b. rewrite Hch. now apply edge_parents. }
  pose proof (ki_inK _ _ _ _ _ HI) as H2.
  pose proof (ki_ready _ _ _ _ _ HI) as H4.
  rewrite Hq, app_nil_r in H2, H4.
  split; [assumption|]. split; [assumption|].
  split; [apply (ki_topo _ _ _ _ _ HI)|].
  split; [|split; [|split]].
  - intros v Hv. split.
    + intros Hin. apply unprocessed_zero, H4; assumption.
    + intros Hall. apply H4; [assumption|]. now apply unprocessed_zero.
  - intros c v Hc Hv Hin.
    apply (KInv_cycle (graphChildren (tGraph t)) (getParentIds w) (allTodoIds w)
             (durationOf w) Hch (dequeued w) st' c v HI).
    + destruct Hc as [b [Hcb Hbc]]. exists b. split; [now apply HE|].
      revert Hbc. apply reach_ext. intros x y. apply HE.
    + revert Hv. apply reach_ext. intros x y. apply HE.
    + now rewrite Hq, app_nil_r.
  - intros Hac. apply (KInv_all_processed (graphChildren (tGraph t)) (getParentIds w)
                         (allTodoIds w) (durationOf w) Hch
                         (fun a b H => proj1 (parents_ids w Hwf a b H))
                         (dequeued w) st' HI Hq).
    revert Hac. apply acyclic_ext. intros a b. apply HE.
  - apply (ki_es _ _ _ _ _ HI).
Qed.

Lemma after_store w es v :
  NoDup (mkeys es) ->
  durationOf (mkDag (adj w) (rev w) (safeTargetsCache w)
                    (fold_left storeMinimumHours es (idToTodo w))) v = durationOf w v /\
  (forall z, In v (allTodoIds w) -> getN es v = Num z ->
     exists t, mget (fold_left storeMinimumHours es (idToTodo w)) v = Some t /\
               minimumHours t = Num z).
Proof.
  intros Hnd. unfold durationOf. simpl. rewrite (store_fold es (idToTodo w) v Hnd). split.
  - destruct (mget (idToTodo w) v) as [todo|]; [|reflexivity].
    now destruct (mget es v).
  - intros z Hv Hz. destruct (mget_keys_Some _ _ Hv) as [todo Hg]. rewrite Hg.
    unfold getN in Hz. destruct (mget es v) as [x|]; [|discriminate]. subst x.
    eexists. split; reflexivity.
Qed.

Lemma startOf_unstored w v : hasTodo w v = false -> startOf w v = 0.
Proof.
  unfold hasTodo, mhas, startOf. now destruct (mget (idToTodo w) v).
Qed.

(** After the call every stored [minimumHours] is a number, and on an
    acyclic state it solves the longest-path recurrence. *)
Lemma weighted_calculate_recurrence w :
  wf w ->
  exists w', calculateEarliestStartTimes w = Ok w' /\
    adj w' = adj w /\ rev w' = rev w /\ allTodoIds w' = allTodoIds w /\
    (forall v, durationOf w' v = durationOf w v) /\
    (forall v, In v (allTodoIds w) ->
       exists t, getTodoWithId w' v = Some t /\ minimumHours t = Num (startOf w' v)) /\
    (acyclic (edge w) -> forall v, In v (allTodoIds w) ->
       startOf w' v =
       propagated (fun _ => true)
         (fun p => startOf w' p + durationOf w' p) (getParentIds w v)).
Proof.
  intros Hwf.
  destruct (weighted_scheduler_values w Hwf) as [es [He [Hnd [_ [_ [_ [_ [_ [Hall Hes]]]]]]]]].
  unfold calculateEarliestStartTimes. rewrite He. simpl.
  eexists. split; [reflexivity|]. simpl.
  split; [reflexivity|]. split; [reflexivity|].
  split; [unfold allTodoIds; simpl; apply Simulation.storeMinimumHours_keys|].
  split; [intros v; apply (after_store w es v Hnd)|].
  assert (Hstart : forall v, In v (allTodoIds w) ->
            startOf (mkDag (adj w) (rev w) (safeTargetsCache w)
                      (fold_left storeMinimumHours es (idToTodo w))) v = valueAt es v).
  { intros v Hv.
    destruct (proj2 (after_store w es v Hnd) _ Hv (Hes v Hv)) as [t [Hg Hm]].
    unfold startOf. simpl. rewrite Hg, Hm. symmetry. apply valueAt_getN, Hes, Hv. }
  split.
  - intros v Hv.
    destruct (proj2 (after_store w es v Hnd) _ Hv (Hes v Hv)) as [t [Hg Hm]].
    exists t. split; [exact Hg|]. rewrite Hm. f_equal.
    unfold startOf. simpl. now rewrite Hg, Hm.
  - intros Hac v Hv. specialize (Hall Hac). rewrite (Hstart v Hv).
    rewrite (valueAt_getN _ _ _ (Hes v Hv)).
    apply propagated_ext.
    + intros p Hp. apply shas_In, Hall. now apply (parents_ids w Hwf p v).
    + intros p Hp _. unfold finish.
      rewrite Hstart by now apply (parents_ids w Hwf p v).
      now rewrite (proj1 (after_store w es p Hnd)).
Qed.

Definition increasing (w : TodoDAG) : bool :=
  forallb (fun e => forallb (fun x => fst e <? fst x) (snd e)) (adj w).

Definition durationsNonnegb (w : TodoDAG) : bool :=
  forallb (fun e => 0 <=? duration (snd e)) (idToTodo w).

Lemma weighted_increasing_acyclic w : increasing w = true -> acyclic (edge w).
Proof.
  intros H.
  assert (Hlt : forall a b, edge w a b -> a < b).
  { unfold increasing, edge, getChildrenOf in *. intros a b.
    destruct (mget (adj w) a) as [l|] eqn:E; [|intros []].
    apply mget_Some_In in E. rewrite forallb_forall in H. specialize (H _ E).
    simpl in H. rewrite forallb_forall in H. unfold mkeys. rewrite in_map_iff.
    intros [x [<- Hx]]. now apply Z.ltb_lt, H. }
  intros v [b [Hvb Hbv]]. pose proof (Hlt v b Hvb).
  assert (Hle : b <= v).
  { clear Hvb H0. induction Hbv as [|a b c Hab Hbc IH]; [lia|].
    pose proof (Hlt a b Hab). lia. }
  lia.
Qed.

Lemma weighted_durationsNonnegb_spec w : durationsNonnegb w = true -> durationsNonneg w.
Proof.
  unfold durationsNonnegb, durationsNonneg. intros H k t Hg.
  apply mget_Some_In in Hg. rewrite forallb_forall in H.
  specialize (H _ Hg). simpl in H. now apply Z.leb_le.
Qed.

Lemma weighted_durationOf_nonneg w v : durationsNonneg w -> 0 <= durationOf w v.
Proof.
  intros H. unfold durationOf. destruct (mget (idToTodo w) v) eqn:E; [eauto | lia].
Qed.

(** A(2), B(3), C(4) with A→C and B→C, built through the weighted
    interface; [minimumHours] starts out as NaN on B. *)
Definition weightedABC : list Op :=
  [AddTodo (mkTodo 1 2 (Num 0)); AddTodo (mkTodo 2 3 NaN); AddTodo (mkTodo 3 4 (Num 7));
   AddDependency 1 3; AddDependency 2 3].

(** X13. The scheduler of the weighted revision, which rebuilds the
    forward graph from the reverse map: on a well-formed acyclic state
    with non-negative durations the call returns, leaves the graph alone,
    stores a number (never NaN) on every todo, and the stored values
    satisfy start(dependent) >= start(prerequisite) +
    duration(prerequisite) on every edge, are 0 on todos without
    prerequisites and attain equality on some incoming edge otherwise. *)
Theorem X13_weighted_scheduler_correct (w : TodoDAG)
    (Hwf : wf w) (Hac : acyclic (edge w)) (Hdur : durationsNonneg w) :
  exists w', calculateEarliestStartTimes w = Ok w' /\
    adj w' = adj w /\ rev w' = rev w /\
    (forall v, hasTodo w v = true ->
       exists t, getTodoWithId w' v = Some t /\ minimumHours t = Num (startOf w' v)) /\
    (forall p d, edge w' p d -> startOf w' p + durationOf w' p <= startOf w' d) /\
    (forall v, hasTodo w' v = true -> getParentIds w' v = [] -> startOf w' v = 0) /\
    (forall d, hasTodo w' d = true -> getParentIds w' d <> [] ->
       exists p, edge w' p d /\ startOf w' d = startOf w' p + durationOf w' p).
Proof.
  destruct (weighted_calculate_recurrence w Hwf) as [w' [Hc [Ha [Hr [Hk [Hd [Hnum Hrec]]]]]]].
  specialize (Hrec Hac).
  exists w'. split; [exact Hc|]. split; [exact Ha|]. split; [exact Hr|].
  assert (HE : forall a b, edge w' a b <-> edge w a b).
  { intros a b. unfold edge, getChildrenOf. now rewrite Ha. }
  assert (HP : forall v, getParentIds w' v = getParentIds w v).
  { intros v. unfold getParentIds. now rewrite Hr. }
  assert (HK : forall v, hasTodo w' v = true -> In v (allTodoIds w)).
  { intros v Hv. apply mhas_In in Hv. fold (allTodoIds w') in Hv. now rewrite Hk in Hv. }
  split; [|split; [|split]].
  - intros v Hv. apply Hnum. now apply mhas_In in Hv.
  - intros p d Hpd. apply HE in Hpd.
    apply (edge_parents w p d Hwf) in Hpd.
    rewrite (Hrec d) by now apply (parents_ids w Hwf p d).
    now apply (propagated_ge (fun _ => true)
                 (fun p => startOf w' p + durationOf w' p) _ p Hpd).
  - intros v Hv Hroot. rewrite HP in Hroot. rewrite (Hrec v (HK v Hv)), Hroot. reflexivity.
  - intros d Hd0 Hnr. rewrite HP in Hnr.
    destruct (propagated_attained (fun _ => true)
                (fun p => startOf w' p + durationOf w' p) (getParentIds w d))
      as [p [Hp [_ Heq]]].
    + intros p Hp _.
      rewrite (Hrec p) by now apply (parents_ids w Hwf p d).
      pose proof (propagated_nonneg (fun _ => true)
                    (fun p => startOf w' p + durationOf w' p) (getParentIds w p)).
      rewrite Hd. pose proof (weighted_durationOf_nonneg w p Hdur). lia.
    + destruct (getParentIds w d) as [|p l] eqn:E; [congruence|].
      exists p. split; [now left | reflexivity].
    + exists p. split; [apply HE; now apply (edge_parents w p d Hwf)|].
      rewrite (Hrec d (HK d Hd0)). exact Heq.
Qed.

Lemma X13_weighted_scheduler_correct_witness :
  exists w, run weightedABC emptyDag = Ok w /\
    exists w', calculateEarliestStartTimes w = Ok w' /\
      startOf w' 3 = 3 /\
      (forall p d, edge w' p d -> startOf w' p + durationOf w' p <= startOf w' d).
Proof.
  eexists. split; [evaluate|].
  destruct (X13_weighted_scheduler_correct
              (mkDag [(1, [(3, 2)]); (2, [(3, 3)]); (3, [])]
                     [(1, []); (2, []); (3, [1; 2])] []
                     [(1, mkTodo 1 2 (Num 0)); (2, mkTodo 2 3 (Num 0));
                      (3, mkTodo 3 4 (Num 0))]))
    as [w' [Hc [_ [_ [_ [H1 _]]]]]].
  - apply weighted_reachable_wf. exists weightedABC. evaluate.
  - apply weighted_increasing_acyclic. evaluate.
  - apply weighted_durationsNonnegb_spec. evaluate.
  - exists w'. split; [exact Hc|]. split; [|exact H1].
    vm_compute in Hc. injection Hc as <-. evaluate.
Defined.

Lemma weighted_after_calculate w es v z :
  NoDup (mkeys es) -> In v (allTodoIds w) -> getN es v = Num z ->
  startOf (mkDag (adj w) (rev w) (safeTargetsCache w)
             (fold_left storeMinimumHours es (idToTodo w))) v = valueAt es v.
Proof.
  intros Hnd Hv Hz.
  destruct (proj2 (after_store w es v Hnd) _ Hv Hz) as [t [Hg Hm]].
  unfold startOf. simpl. rewrite Hg, Hm. symmetry. now apply valueAt_getN.
Qed.

(** *** The two schedulers compute the same values *)

Lemma topo_incl (parents : Z -> list Z) (K P1 P2 : list Z) :
  topo parents P1 ->
  (forall v, In v P1 -> In v K) ->
  (forall v, In v K -> (forall p, In p (parents v) -> In p P2) -> In v P2) ->
  incl P1 P2.
Proof.
  intros Ht. induction Ht as [|P c Ht IH Hc]; intros HK Hclosed v Hv; [destruct Hv|].
  assert (HP : incl P P2).
  { apply IH; [|assumption]. intros x Hx. apply HK, in_or_app. now left. }
  apply in_app_or in Hv. destruct Hv as [Hv | [<- | []]]; [now apply HP|].
  apply Hclosed; [apply HK, in_or_app; right; now left|].
  intros p Hp. apply HP, Hc, Hp.
Qed.

Lemma topo_values (parents : Z -> list Z) (durZ : Z -> Z) (K : list Z)
    (proc1 proc2 : Z -> bool) (es1 es2 : JsMap number) (P : list Z) :
  topo parents P ->
  (forall v, In v P -> In v K) ->
  (forall p, proc1 p = proc2 p) ->
  (forall v, In v K ->
     getN es1 v = Num (propagated proc1 (finish durZ es1) (parents v))) ->
  (forall v, In v K ->
     getN es2 v = Num (propagated proc2 (finish durZ es2) (parents v))) ->
  forall v, In v P -> valueAt es1 v = valueAt es2 v.
Proof.
  intros Ht. induction Ht as [|P c Ht IH Hc]; intros HK Hproc H1 H2 v Hv; [destruct Hv|].
  assert (HP : forall x, In x P -> valueAt es1 x = valueAt es2 x).
  { apply IH; try assumption. intros x Hx. apply HK, in_or_app. now left. }
  apply in_app_or in Hv. destruct Hv as [Hv | [<- | []]]; [now apply HP|].
  assert (HcK : In c K) by (apply HK, in_or_app; right; now left).
  rewrite (valueAt_getN _ _ _ (H1 c HcK)), (valueAt_getN _ _ _ (H2 c HcK)).
  apply propagated_ext.
  - intros p _. apply Hproc.
  - intros p Hp _. unfold finish. now rewrite (HP p (Hc p Hp)).
Qed.

(** X14. The live scheduler (dag.ts, Kahn over the forward map seeded
    with rootNodes) and the scheduler of the weighted revision (forward
    graph and indegrees rebuilt from the reverse map) store the same
    minimumHours on every todo whenever the two states hold the same graph
    and the same durations, whether or not the graph has a cycle. *)
Theorem X14_schedulers_agree (s : Dag.TodoDAG) (w : TodoDAG)
    (Hwf : Dag.wf s) (Hsame : CycleGuards.sameGraph s w)
    (Hdur : forall v, Dag.durationOf s v = durationOf w v) :
  exists s' w',
    Dag.calculateEarliestStartTimes s = Ok s' /\
    calculateEarliestStartTimes w = Ok w' /\
    forall v, Dag.earliestStartOf s' v = startOf w' v.
Proof.
  pose proof (sim_wf s w Hwf Hsame) as Hwfw.
  pose proof Hsame as [HK [Hrev _]].
  assert (HP : forall v, Dag.getParentIds s v = getParentIds w v).
  { intros v. unfold Dag.getParentIds, getParentIds. now rewrite Hrev. }
  destruct (DagScheduler.scheduler_values s Hwf)
    as [es1 [He1 [_ [HK1 [Ht1 [Hr1 [_ [_ Hes1]]]]]]]].
  destruct (weighted_scheduler_values w Hwfw)
    as [es2 [He2 [Hnd [_ [HK2 [Ht2 [Hr2 [_ [_ Hes2]]]]]]]]].
  unfold Dag.calculateEarliestStartTimes, calculateEarliestStartTimes.
  rewrite He1, He2. simpl. do 2 eexists. split; [reflexivity|]. split; [reflexivity|].
  assert (Hsub1 : incl (DagScheduler.dequeued s) (dequeued w)).
  { apply (topo_incl (Dag.getParentIds s) (Dag.allTodoIds s)); try assumption.
    intros v Hv Hall. rewrite HK in Hv. apply (Hr2 v Hv).
    intros p Hp. apply Hall. now rewrite HP. }
  assert (Hsub2 : incl (dequeued w) (DagScheduler.dequeued s)).
  { apply (topo_incl (getParentIds w) (allTodoIds w)); try assumption.
    intros v Hv Hall. rewrite <- HK in Hv. apply (Hr1 v Hv).
    intros p Hp. apply Hall. now rewrite <- HP. }
  assert (Hproc : forall p, shas (DagScheduler.dequeued s) p = shas (dequeued w) p).
  { intros p. destruct (shas (dequeued w) p) eqn:E.
    - apply shas_In. apply shas_In in E. now apply Hsub2.
    - destruct (shas (DagScheduler.dequeued s) p) eqn:E'; [|reflexivity].
      apply shas_In, Hsub1, shas_In in E'. congruence. }
  assert (Hes2' : forall v, In v (Dag.allTodoIds s) ->
            getN es2 v = Num (propagated (shas (dequeued w))
                               (finish (Dag.durationOf s) es2) (Dag.getParentIds s v))).
  { intros v Hv. rewrite HK in Hv. rewrite (Hes2 v Hv), HP. f_equal.
    apply propagated_ext; [reflexivity|]. intros p _ _. unfold finish. now rewrite Hdur. }
  assert (Hdeq : forall v, In v (DagScheduler.dequeued s) -> valueAt es1 v = valueAt es2 v).
  { apply (topo_values (Dag.getParentIds s) (Dag.durationOf s) (Dag.allTodoIds s)
             (shas (DagScheduler.dequeued s)) (shas (dequeued w))); assumption. }
  intros v. destruct (in_dec Z.eq_dec v (Dag.allTodoIds s)) as [Hv | Hv].
  - rewrite DagScheduler.after_calculate by assumption.
    assert (Hv2 : In v (allTodoIds w)) by now rewrite <- HK.
    rewrite (weighted_after_calculate w es2 v _ Hnd Hv2 (Hes2 v Hv2)).
    rewrite (valueAt_getN _ _ _ (Hes1 v Hv)), (valueAt_getN _ _ _ (Hes2' v Hv)).
    apply propagated_ext; [intros p _; apply Hproc|].
    intros p _ Hp. unfold finish. apply shas_In in Hp. now rewrite (Hdeq p Hp).
  - rewrite DagMeaning.earliestStartOf_unstored, startOf_unstored; [reflexivity | |].
    + unfold hasTodo. simpl. destruct (mhas _ v) eqn:E; [|reflexivity].
      apply mhas_In in E. rewrite Simulation.storeMinimumHours_keys in E.
      fold (allTodoIds w) in E. rewrite <- HK in E. contradiction.
    + unfold Dag.hasTodo. simpl. destruct (mhas _ v) eqn:E; [|reflexivity].
      apply mhas_In in E. rewrite mkeys_mupdateAll in E. contradiction.
Qed.

Lemma X14_schedulers_agree_witness :
  exists s w, Dag.run DagScheduler.scenarioABC Dag.emptyDag = Ok s /\
    run weightedABC emptyDag = Ok w /\
    exists s' w',
      Dag.calculateEarliestStartTimes s = Ok s' /\
      calculateEarliestStartTimes w = Ok w' /\
      forall v, Dag.earliestStartOf s' v = startOf w' v.
Proof.
  do 2 eexists. split; [evaluate|]. split; [evaluate|].
  apply (X14_schedulers_agree
           (Dag.mkDag [(1, [3]); (2, [3]); (3, [])] [(1, []); (2, []); (3, [1; 2])] []
              [(1, Dag.mkTodo 1 2 0); (2, Dag.mkTodo 2 3 0); (3, Dag.mkTodo 3 4 0)])
           (mkDag [(1, [(3, 2)]); (2, [(3, 3)]); (3, [])]
              [(1, []); (2, []); (3, [1; 2])] []
              [(1, mkTodo 1 2 (Num 0)); (2, mkTodo 2 3 (Num 0));
               (3, mkTodo 3 4 (Num 0))])).
  - apply DagFacts.reachable_wf. exists DagScheduler.scenarioABC. evaluate.
  - split; [|split]; evaluate.
  - intros v. unfold Dag.durationOf, durationOf.
    destruct v as [|[[q|q|]|[q|q|]|]|q]; reflexivity.
Defined.

(** *** The weighted revision never throws *)

Lemma weighted_calculate_total w : wf w -> exists w', calculateEarliestStartTimes w = Ok w'.
Proof. intros H. destruct (weighted_calculate_recurrence w H) as [w' [Hc _]]. eauto. Qed.

Lemma weighted_step_total s w o :
  Dag.wf s -> CycleGuards.sameGraph s w -> exists w', step w o = Ok w'.
Proof.
  intros Hwf Hsame. pose proof (sim_wf s w Hwf Hsame) as Hwfw.
  pose proof Hsame as [H1 [H2 H3]]. unfold Dag.allTodoIds, allTodoIds in H1.
  fold (dropWeights (adj w)) in H3.
  assert (Hkeys : mkeys (Dag.adj s) = mkeys (adj w)).
  { rewrite H3. apply dropWeights_keys. }
  assert (Hmaps : forall from to,
            (negb (hasTodo w from) || negb (hasTodo w to))%bool = false ->
            exists source targets sources,
              mget (idToTodo w) from = Some source /\
              mget (adj w) from = Some targets /\ mget (rev w) to = Some sources).
  { intros from to E. apply orb_false_elim in E. destruct E as [Ef Et].
    apply negb_false_iff, mhas_In in Ef. apply negb_false_iff, mhas_In in Et.
    destruct (mget_keys_Some _ _ Ef) as [source Hs].
    destruct (mget_keys_Some (adj w) from) as [targets Ha];
      [rewrite (wf_keys_adj _ Hwfw); assumption|].
    destruct (mget_keys_Some (rev w) to) as [sources Hr];
      [rewrite (wf_keys_rev _ Hwfw); assumption|].
    eauto 6. }
  destruct o; simpl.
  - (* addTodo *)
    unfold addTodo. apply weighted_calculate_total.
    apply (sim_wf (Dag.addNode
                     (Dag.mkDag (Dag.adj s) (Dag.rev s) (Dag.safeTargetsCache s)
                        (mset (Dag.idToTodo s) (id todo) (Simulation.dagTodo todo)))
                     (id todo))).
    + apply (DagFacts.wf_storeTodo s (Simulation.dagTodo todo) Hwf).
    + unfold Dag.addNode, addNode. simpl.
      rewrite (mhas_congr _ _ (id todo) Hkeys).
      destruct (mhas (adj w) (id todo)); apply Simulation.sameGraph_intro; simpl;
        try assumption; try (now apply mkeys_mset_congr); try congruence.
      rewrite dropWeights_mset. now rewrite H3.
  - (* addDependency *)
    unfold addDependency.
    destruct (negb (hasTodo w from) || negb (hasTodo w to))%bool eqn:E; [simpl; eauto|].
    destruct (Hmaps from to E) as [source [targets [sources [Hs [Ha Hr]]]]].
    unfold getTodoWithId. rewrite Hs, Ha, Hr. simpl. eauto.
  - (* deleteDependency *)
    unfold deleteDependency, hasDependency.
    destruct (negb (hasTodo w from) || negb (hasTodo w to))%bool eqn:E; [simpl; eauto|].
    destruct (Hmaps from to E) as [source [targets [sources [Hs [Ha Hr]]]]].
    rewrite Ha. simpl. destruct (mhas targets to); simpl; [|eauto].
    rewrite Hr. apply weighted_calculate_total.
    apply (sim_wf (Dag.mkDag
                     (mset (Dag.adj s) from (sdelete (nb (Dag.adj s) from) to))
                     (mset (Dag.rev s) to (sdelete (nb (Dag.rev s) to) from)) []
                     (Dag.idToTodo s))).
    + apply DagFacts.wf_removeEdge; [assumption | |].
      * rewrite Hkeys. eapply mget_Some_keys; eauto.
      * rewrite H2. eapply mget_Some_keys; eauto.
    + apply Simulation.sameGraph_intro; simpl; [assumption | |].
      * unfold nb. now rewrite H2, Hr.
      * rewrite dropWeights_mset, mkeys_mdelete_sdelete. unfold nb.
        now rewrite H3, dropWeights_get, Ha.
  - (* deleteNode *)
    unfold deleteNode. apply weighted_calculate_total.
    apply (sim_wf (Dag.mkDag
                     (mupdateAll (fun targets => sdelete targets node)
                        (mdelete (Dag.adj s) node))
                     (mupdateAll (fun sources => sdelete sources node)
                        (mdelete (Dag.rev s) node))
                     [] (mdelete (Dag.idToTodo s) node))).
    + now apply DagFacts.wf_removeNode.
    + apply Simulation.sameGraph_intro; simpl.
      * rewrite !mkeys_mdelete. congruence.
      * congruence.
      * now rewrite dropWeights_mupdateAll, dropWeights_mdelete, H3.
  - (* getSafeTargets *)
    unfold getSafeTargets. destruct (mget (safeTargetsCache w) from); [simpl; eauto|].
    destruct (CycleGuards.probe_spec w from) as [r [Hr _]]. rewrite Hr. simpl. eauto.
  - now apply weighted_calculate_total.
Qed.

(** X15. No sequence of public operations of the weighted revision,
    started from the empty graph, throws: every call returns, the state
    reached is well formed, and it holds the same graph (ids, forward
    targets, reverse sets) as the live dag.ts run through the
    corresponding operations. *)
Theorem X15_weighted_operations_never_throw (ops : list Op) :
  exists w s,
    run ops emptyDag = Ok w /\
    Dag.run (map Simulation.dagOp ops) Dag.emptyDag = Ok s /\
    wf w /\ CycleGuards.sameGraph s w.
Proof.
  assert (Hgen : forall s0 w0, Dag.wf s0 -> CycleGuards.sameGraph s0 w0 ->
            exists w, run ops w0 = Ok w).
  { unfold run. induction ops as [|o ops IH]; intros s0 w0 Hwf Hsame; [simpl; eauto|].
    rewrite (DagFacts.foldM_cons step).
    destruct (weighted_step_total s0 w0 o Hwf Hsame) as [w1 Hw1]. rewrite Hw1. simpl.
    destruct (Simulation.sameGraph_step s0 w0 o w1 Hwf Hsame Hw1) as [s1 [Hs1 Hsame1]].
    apply (IH s1 w1); [eapply DagFacts.wf_step; eauto | assumption]. }
  assert (H0 : CycleGuards.sameGraph Dag.emptyDag emptyDag) by (repeat split).
  destruct (Hgen Dag.emptyDag emptyDag DagFacts.wf_empty H0) as [w Hw].
  destruct (Simulation.sameGraph_run ops Dag.emptyDag emptyDag w DagFacts.wf_empty H0 Hw)
    as [s [Hs [Hwf Hsame]]].
  exists w, s. split; [assumption|]. split; [assumption|].
  split; [eapply sim_wf; eauto | assumption].
Qed.

End WeightedScheduler.

(** ** The critical path of the weighted revision *)

Module WeightedCriticalPath.
Import Weighted.

Lemma weighted_nbrsOf_entriesOf w n : nbrsOf (entriesOf w) n = getChildrenOf w n.
Proof. reflexivity. Qed.

Lemma weighted_weightOf_entriesOf w a b : weightOf (entriesOf w) a b = edgeWeight w a b.
Proof. reflexivity. Qed.

(** Total of the weights stored on the edges of a path. *)
Definition storedWeight (w : TodoDAG) (l : list Z) : Z := pathWeight (edgeWeight w) l.

(** Total duration of the todos of a path, the last one excluded. *)
Definition durationWeight (w : TodoDAG) (l : list Z) : Z :=
  pathWeight (fun a _ => durationOf w a) l.

(** Every stored weight is the present duration of the source of its edge. *)
Definition weightsCurrent (w : TodoDAG) : Prop :=
  forall a b, edge w a b -> edgeWeight w a b = durationOf w a.

Definition weightsCurrentb (w : TodoDAG) : bool :=
  forallb (fun e => forallb (fun x => snd x =? durationOf w (fst e)) (snd e)) (adj w).

Lemma weightsCurrentb_spec w : weightsCurrentb w = true -> weightsCurrent w.
Proof.
  unfold weightsCurrentb, weightsCurrent, edge, getChildrenOf, edgeWeight.
  intros H a b. destruct (mget (adj w) a) as [targets|] eqn:E; [|intros []].
  apply mget_Some_In in E. rewrite forallb_forall in H. specialize (H _ E).
  simpl in H. rewrite forallb_forall in H. intros Hb.
  destruct (mget_keys_Some _ _ Hb) as [x Hx]. rewrite Hx.
  apply mget_Some_In in Hx. now apply Z.eqb_eq, (H (b, x)).
Qed.

(** X16. [getCriticalPath] of the weighted revision: on a well-formed
    acyclic state and for a stored [root], the call returns a forward path
    from [root] to a todo without dependents whose total of stored edge
    weights is at least that of every other such path; when every stored
    weight is the present duration of its source, this is the path of
    largest total duration (the last todo not counted). *)
Theorem X16_weighted_critical_path (w : TodoDAG) (root : Z)
    (Hwf : wf w) (Hac : acyclic (edge w)) (Hroot : hasTodo w root = true) :
  exists p, getCriticalPath w root = Ok p /\
    hd_error p = Some root /\ chain (edge w) p /\
    getChildrenOf w (last p root) = [] /\
    (forall l, hd_error l = Some root -> chain (edge w) l ->
       getChildrenOf w (last l root) = [] -> storedWeight w l <= storedWeight w p) /\
    (weightsCurrent w ->
     forall l, hd_error l = Some root -> chain (edge w) l ->
       getChildrenOf w (last l root) = [] -> durationWeight w l <= durationWeight w p).
Proof.
  unfold getCriticalPath. unfold hasTodo in Hroot. rewrite Hroot. cbn [negb].
  destruct (findMaxPath_good (entriesOf w)) with (K := mkeys (adj w)) (root := root)
    as [r [memo' [Hr [H1 [H2 [_ H4]]]]]].
  - intros n es. unfold entriesOf. apply (wf_sets_adj _ Hwf).
  - intros a b. rewrite weighted_nbrsOf_entriesOf, (wf_keys_adj _ Hwf). apply (wf_closed _ Hwf).
  - exact Hac.
  - rewrite (wf_keys_adj _ Hwf). now apply mhas_In.
  - unfold mkeys in Hr. rewrite length_map in Hr. rewrite Hr.
    exists (path r). split; [reflexivity|]. split; [assumption|].
    destruct (fullPath_chain _ _ H2) as [Hc Hl].
    change (chain (edge w) (path r)) in Hc.
    rewrite weighted_nbrsOf_entriesOf in Hl.
    assert (Hmax : forall l, hd_error l = Some root -> chain (edge w) l ->
              getChildrenOf w (last l root) = [] -> storedWeight w l <= storedWeight w (path r)).
    { intros l Hh Hch Hleaf. apply H4; [assumption|].
      apply (DagMeaning.chain_fullPath (entriesOf w) l root).
      - intros ->. discriminate.
      - exact Hch.
      - now rewrite weighted_nbrsOf_entriesOf. }
    split; [assumption|]. split.
    + rewrite (last_default _ root 0); [assumption|].
      intros Hnil. rewrite Hnil in H1. discriminate.
    + split; [exact Hmax|].
      intros Hcur l Hh Hch Hleaf.
      assert (Hw : forall l', chain (edge w) l' -> storedWeight w l' = durationWeight w l').
      { intros l' Hl'. apply (pathWeight_ext (edge w)); [|exact Hl'].
        intros a b Hab. now apply Hcur. }
      rewrite <- (Hw l Hch), <- (Hw _ Hc). now apply Hmax.
Qed.

(** The diamond 1→2→4, 1→3→4 with durations 1, 5, 2, 1. *)
Definition weightedDiamond : list Op :=
  [AddTodo (mkTodo 1 1 (Num 0)); AddTodo (mkTodo 2 5 (Num 0));
   AddTodo (mkTodo 3 2 (Num 0)); AddTodo (mkTodo 4 1 (Num 0));
   AddDependency 1 3; AddDependency 1 2; AddDependency 3 4; AddDependency 2 4].

Lemma X16_weighted_critical_path_witness :
  exists w, run weightedDiamond emptyDag = Ok w /\
    exists p, getCriticalPath w 1 = Ok p /\
      durationWeight w [1; 3; 4] <= durationWeight w p.
Proof.
  eexists. split; [evaluate|].
  destruct (X16_weighted_critical_path
              (mkDag [(1, [(3, 1); (2, 1)]); (2, [(4, 5)]); (3, [(4, 2)]); (4, [])]
                     [(1, []); (2, [1]); (3, [1]); (4, [3; 2])] []
                     [(1, mkTodo 1 1 (Num 0)); (2, mkTodo 2 5 (Num 0));
                      (3, mkTodo 3 2 (Num 0)); (4, mkTodo 4 1 (Num 0))]) 1)
    as [p [Hp [_ [_ [_ [_ Hmax]]]]]].
  - apply WeightedScheduler.weighted_reachable_wf. exists weightedDiamond. evaluate.
  - apply WeightedScheduler.weighted_increasing_acyclic. evaluate.
  - evaluate.
  - exists p. split; [exact Hp|]. apply Hmax.
    + apply weightsCurrentb_spec. evaluate.
    + reflexivity.
    + unfold edge. vm_compute. auto.
    + evaluate.
Defined.



End WeightedCriticalPath.

(** ** Callers of the engine in the user interface *)

Module Callers.
Import Dag DagFacts DagScheduler.

(** *** handleAddDependency (AddDependencyForm.tsx) *)







End Callers.

(** ** The data handed to the graph view (d3Graph.ts) *)

Module GraphView.
Import Dag DagFacts DagScheduler.

(** The fields of [TodoNode] computed from the engine; [title],
    [dueDate] and [imageUrl] are copied display data, [x] and [y] start
    at 0. *)
Record TodoNode : Type := mkNode {
  nodeId : Z;
  nodeDuration : Z;
  nodeMinimumHours : Z;
  nodeWeight : Z
}.

Definition getNodesAndEdges (s : TodoDAG) : list TodoNode * list (Z * Z) :=
  (map (fun todo => mkNode (id todo) (duration todo) (minimumHours todo)
                      (Z.of_nat (length (getParentIds s (id todo))) + 1))
       (getTodosByIds s (allTodoIds s)),
   flat_map (fun src => map (fun target => (src, target)) (getChildrenOf s src))
            (allTodoIds s)).

(** The pairs [(path[i], path[i+1])]. *)
Fixpoint consecutive (l : list Z) : list (Z * Z) :=
  match l with
  | [] => []
  | a :: l' =>
    match l' with
    | [] => []
    | b :: _ => (a, b) :: consecutive l'
    end
  end.

Definition sameKey (e e' : Z * Z) : bool := ((fst e =? fst e') && (snd e =? snd e'))%bool.

(** [criticalPathEdges.add(key)]; the key [from-to] determines the pair. *)
Definition addKey (keys : list (Z * Z)) (e : Z * Z) : list (Z * Z) :=
  if existsb (sameKey e) keys then keys else keys ++ [e].

(** The set of keys built when a todo is selected; [if (selectedTodoId)]
    is false for [undefined] and for 0. *)
Definition criticalPathEdges (s : TodoDAG) (selectedTodoId : option Z)
    : result (list (Z * Z)) :=
  match selectedTodoId with
  | None => Ok []
  | Some i =>
    if i =? 0 then Ok []
    else criticalPath <- getCriticalPath s i ;;
         Ok (fold_left addKey (consecutive criticalPath) [])
  end.

Lemma sameKey_eq e e' : sameKey e e' = true <-> e = e'.
Proof.
  destruct e as [a b], e' as [a' b']. unfold sameKey. simpl.
  rewrite andb_true_iff, !Z.eqb_eq. split; [intros [-> ->]; reflexivity | now intros [= -> ->]].
Qed.

Lemma has_key e keys : existsb (sameKey e) keys = true <-> In e keys.
Proof.
  rewrite existsb_exists. split.
  - intros [x [Hx He]]. apply sameKey_eq in He. now subst.
  - intros H. exists e. split; [assumption | now apply sameKey_eq].
Qed.

Lemma addKey_In keys e x : In x (addKey keys e) <-> In x keys \/ x = e.
Proof.
  unfold addKey. destruct (existsb (sameKey e) keys) eqn:E.
  - apply has_key in E. split; [auto | intros [H | ->]; assumption].
  - rewrite in_app_iff. simpl. intuition.
Qed.

Lemma fold_addKey_In l : forall keys x,
  In x (fold_left addKey l keys) <-> In x keys \/ In x l.
Proof.
  induction l as [|e l IH]; intros keys x; simpl; [tauto|].
  rewrite IH, addKey_In. intuition.
Qed.

Lemma chain_consecutive (E : Z -> Z -> Prop) (l : list Z) :
  chain E l -> forall a b, In (a, b) (consecutive l) -> E a b.
Proof.
  induction l as [|x l IH]; [intros _ a b []|].
  destruct l as [|y l]; [intros _ a b []|].
  intros [Hxy Hc] a b [[= <- <-] | Hin]; [assumption | now apply IH].
Qed.

Lemma edges_In s a b :
  wf s -> (In (a, b) (snd (getNodesAndEdges s)) <-> edge s a b).
Proof.
  intros Hwf. simpl. rewrite in_flat_map. split.
  - intros [src [_ Hin]]. apply in_map_iff in Hin. now destruct Hin as [t [[= <- <-] Ht]].
  - intros He. exists a. split; [now destruct (wf_edge_K s a b Hwf He)|].
    apply in_map_iff. now exists b.
Qed.

Lemma NoDup_pairs_left (k : Z) (l : list Z) :
  NoDup l -> NoDup (map (fun t => (k, t)) l).
Proof.
  induction 1 as [|x l Hx Hl IH]; simpl; constructor; [|assumption].
  rewrite in_map_iff. intros [t [[= ->] Ht]]. contradiction.
Qed.

Lemma NoDup_pairs_right (k : Z) (l : list Z) :
  NoDup l -> NoDup (map (fun p => (p, k)) l).
Proof.
  induction 1 as [|x l Hx Hl IH]; simpl; constructor; [|assumption].
  rewrite in_map_iff. intros [t [[= ->] Ht]]. contradiction.
Qed.

Lemma NoDup_blocks (f : Z -> list Z) (ids : list Z) :
  NoDup ids -> (forall a, NoDup (f a)) ->
  NoDup (flat_map (fun src => map (fun target => (src, target)) (f src)) ids).
Proof.
  intros Hids Hf. induction Hids as [|a ids Ha Hids IH]; simpl; [constructor|].
  apply NoDup_app; [now apply NoDup_pairs_left | assumption |].
  intros [x y] Hin Hin'. apply in_map_iff in Hin. destruct Hin as [t [[= <- <-] _]].
  apply in_flat_map in Hin'. destruct Hin' as [src [Hsrc Hin']].
  apply in_map_iff in Hin'. destruct Hin' as [t' [[= -> _] _]]. contradiction.
Qed.

Lemma same_members_length {A : Type} (l l' : list A) :
  NoDup l -> NoDup l' -> (forall x, In x l <-> In x l') -> length l = length l'.
Proof.
  intros H H' Hin. apply Nat.le_antisymm.
  - apply NoDup_incl_length; [assumption|]. intros x. apply Hin.
  - apply NoDup_incl_length; [assumption|]. intros x. apply Hin.
Qed.

Lemma values_ids (m : JsMap Todo) :
  (forall k t, In (k, t) m -> id t = k) -> map id (mvalues m) = mkeys m.
Proof.
  unfold mvalues, mkeys. induction m as [|[k t] m IH]; simpl; [reflexivity|].
  intros H. rewrite (H k t) by now left. f_equal. apply IH.
  intros k' t' Hin. apply H. now right.
Qed.

(** X19. What the graph view is given on a reachable state: one node
    per stored todo, in insertion order, carrying the minimumHours stored
    for it; one edge per dependency, each exactly once and none that is
    not a dependency; and the weight of a node is one more than the number
    of drawn edges that point at it. *)
Theorem X19_getNodesAndEdges (s : TodoDAG) (Hwf : wf s) :
  map nodeId (fst (getNodesAndEdges s)) = allTodoIds s /\
  (forall n, In n (fst (getNodesAndEdges s)) ->
     nodeMinimumHours n = earliestStartOf s (nodeId n) /\
     nodeDuration n = durationOf s (nodeId n) /\
     nodeWeight n =
     Z.of_nat (length (filter (fun e => snd e =? nodeId n) (snd (getNodesAndEdges s)))) + 1) /\
  (forall a b, In (a, b) (snd (getNodesAndEdges s)) <-> edge s a b) /\
  NoDup (snd (getNodesAndEdges s)).
Proof.
  assert (Hnd : NoDup (snd (getNodesAndEdges s))).
  { simpl. apply NoDup_blocks; [apply (wf_todo_keys _ Hwf)|].
    intros a. now apply wf_children_NoDup. }
  assert (Hall : getTodosByIds s (allTodoIds s) = mvalues (idToTodo s)).
  { unfold getTodosByIds, allTodoIds. apply DagOperations.lookupAll_keys, (wf_todo_keys _ Hwf). }
  split; [|split; [|split; [intros a b; now apply edges_In | exact Hnd]]].
  - cbn [fst getNodesAndEdges]. rewrite Hall, map_map. simpl.
    apply values_ids. intros k t Hin. apply (wf_ids _ Hwf).
    apply In_mget; [apply (wf_todo_keys _ Hwf) | assumption].
  - cbn [fst getNodesAndEdges]. rewrite Hall. intros n Hn.
    apply in_map_iff in Hn. destruct Hn as [t [<- Ht]]. cbn [nodeId nodeMinimumHours
      nodeDuration nodeWeight].
    unfold mvalues in Ht. apply in_map_iff in Ht. destruct Ht as [[k t'] [Hk Hin]].
    simpl in Hk. subst t'.
    assert (Hg : mget (idToTodo s) k = Some t).
    { apply In_mget; [apply (wf_todo_keys _ Hwf) | assumption]. }
    rewrite (wf_ids _ Hwf _ _ Hg). unfold earliestStartOf, durationOf. rewrite Hg.
    split; [reflexivity|]. split; [reflexivity|]. f_equal. f_equal.
    rewrite <- (length_map (fun p => (p, k)) (getParentIds s k)).
    apply same_members_length.
    + apply NoDup_pairs_right. now apply wf_parents_NoDup.
    + now apply NoDup_filter.
    + intros [a b]. rewrite filter_In, in_map_iff. simpl. rewrite (edges_In s a b Hwf). split.
      * intros [p [[= <- <-] Hp]]. split; [now apply (wf_mirror _ Hwf) | apply Z.eqb_refl].
      * intros [He Hb]. apply Z.eqb_eq in Hb. subst b. exists a.
        split; [reflexivity | now apply (wf_mirror _ Hwf)].
Qed.

Lemma X19_getNodesAndEdges_witness :
  getNodesAndEdges DagMutators.scenarioAB
  = ([mkNode 1 3 0 1; mkNode 2 5 3 2], [(1, 2)]) /\
  NoDup (snd (getNodesAndEdges DagMutators.scenarioAB)).
Proof.
  split; [evaluate|].
  apply (X19_getNodesAndEdges DagMutators.scenarioAB
           (reachable_wf _ DagMutators.scenarioAB_reachable)).
Defined.

Lemma chain_reachp (E : Z -> Z -> Prop) (l : list Z) : forall x,
  chain E (x :: l) -> forall y, In y l -> reachp E x y.
Proof.
  induction l as [|y0 l IH]; intros x Hc y Hy; [destruct Hy|].
  destruct Hc as [Hxy Hc]. exists y0. split; [assumption|].
  destruct Hy as [<- | Hy]; [apply reach_refl|].
  destruct (IH y0 Hc y Hy) as [c [Hyc Hcy]]. eapply reach_step; eauto.
Qed.

Lemma chain_acyclic_NoDup (E : Z -> Z -> Prop) (l : list Z) :
  acyclic E -> chain E l -> NoDup l.
Proof.
  intros Hac. induction l as [|x l IH]; intros Hc; [constructor|].
  constructor.
  - intros Hin. apply (Hac x). now apply (chain_reachp E l x Hc).
  - apply IH. destruct l as [|y l]; [exact I | now destruct Hc].
Qed.

Lemma addKey_NoDup keys e : NoDup keys -> NoDup (addKey keys e).
Proof.
  intros H. unfold addKey. destruct (existsb (sameKey e) keys) eqn:E; [assumption|].
  apply NoDup_app; [assumption | repeat constructor; intros [] |].
  intros x Hx [Heq | []]. subst x.
  assert (Hk : existsb (sameKey e) keys = true) by now apply has_key.
  congruence.
Qed.

Lemma fold_addKey_NoDup l : forall keys, NoDup keys -> NoDup (fold_left addKey l keys).
Proof.
  induction l as [|e l IH]; intros keys H; simpl; [assumption|].
  now apply IH, addKey_NoDup.
Qed.

Lemma consecutive_fst l a b : In (a, b) (consecutive l) -> In a l.
Proof.
  induction l as [|u l IH]; [intros []|].
  destruct l as [|v l]; [intros []|].
  intros [[= <- <-] | Hin]; [now left | right; now apply IH].
Qed.

Lemma consecutive_NoDup l : NoDup l -> NoDup (consecutive l).
Proof.
  induction l as [|x l IH]; [constructor|].
  destruct l as [|y l]; [constructor|].
  intros Hnd. inversion Hnd as [|x' l' Hx Hl]; subst.
  change (NoDup ((x, y) :: consecutive (y :: l))). constructor; [|now apply IH].
  intros Hin. apply Hx. eapply consecutive_fst; eauto.
Qed.

Lemma consecutive_length l : length (consecutive l) = (length l - 1)%nat.
Proof.
  induction l as [|x l IH]; [reflexivity|].
  destruct l as [|y l]; [reflexivity|].
  change (S (length (consecutive (y :: l))) = (length (x :: y :: l) - 1)%nat).
  rewrite IH. simpl. lia.
Qed.

(** X20. The keys under which the graph view highlights the critical
    path.  With no todo selected, with the id 0, or with an id that is not
    stored, the key set is empty.  For a stored non-zero id on an acyclic
    reachable state the keys are exactly the consecutive pairs of
    [getCriticalPath], one per step of the path, and each of them is the
    key of an edge handed to the view by [getNodesAndEdges]. *)
Theorem X20_critical_path_keys (s : TodoDAG) (Hwf : wf s) (Hac : acyclic (edge s)) :
  criticalPathEdges s None = Ok [] /\ criticalPathEdges s (Some 0) = Ok [] /\
  (forall root, hasTodo s root = false -> criticalPathEdges s (Some root) = Ok []) /\
  (forall root, root <> 0 -> hasTodo s root = true ->
     exists p keys, getCriticalPath s root = Ok p /\
       criticalPathEdges s (Some root) = Ok keys /\
       (forall e, In e keys <-> In e (consecutive p)) /\
       (forall e, In e keys -> In e (snd (getNodesAndEdges s))) /\
       NoDup keys /\ length keys = (length p - 1)%nat).
Proof.
  split; [reflexivity|]. split; [reflexivity|]. split.
  { intros root Hroot. unfold criticalPathEdges, getCriticalPath.
    unfold hasTodo in Hroot. rewrite Hroot. now destruct (root =? 0). }
  intros root Hnz Hroot.
  unfold criticalPathEdges, getCriticalPath.
  unfold hasTodo in Hroot. rewrite Hroot. cbn [negb].
  apply Z.eqb_neq in Hnz. rewrite Hnz.
  destruct (findMaxPath_good (entriesOf s)) with (K := mkeys (adj s)) (root := root)
    as [r [memo' [Hr [H1 [H2 _]]]]].
  - intros n es. unfold entriesOf. destruct (mget (adj s) n) as [l|] eqn:E0; [|discriminate].
    intros [= <-]. unfold mkeys. rewrite map_map. simpl. rewrite map_id.
    eapply (wf_sets_adj _ Hwf); eauto.
  - intros a b. rewrite DagCriticalPath.nbrsOf_entriesOf, (wf_keys_adj _ Hwf).
    apply (wf_closed _ Hwf).
  - revert Hac. apply acyclic_ext. intros a b.
    now rewrite DagCriticalPath.nbrsOf_entriesOf.
  - rewrite (wf_keys_adj _ Hwf). now apply mhas_In.
  - unfold mkeys in Hr. rewrite length_map in Hr. rewrite Hr. cbn [bind fst].
    destruct (fullPath_chain _ _ H2) as [Hc _].
    assert (Hc' : chain (edge s) (path r)).
    { revert Hc. apply chain_ext. intros a b. now rewrite DagCriticalPath.nbrsOf_entriesOf. }
    assert (Hmem : forall e, In e (fold_left addKey (consecutive (path r)) [])
                             <-> In e (consecutive (path r))).
    { intros e. rewrite fold_addKey_In. simpl. tauto. }
    assert (Hnd : NoDup (fold_left addKey (consecutive (path r)) [])).
    { apply fold_addKey_NoDup. constructor. }
    eexists. eexists. split; [reflexivity|]. split; [reflexivity|].
    split; [exact Hmem|]. split; [|split; [exact Hnd|]].
    + intros [a b] Hin. apply (edges_In s a b Hwf).
      apply (chain_consecutive (edge s) (path r) Hc'). now apply Hmem.
    + rewrite <- consecutive_length. apply same_members_length; [exact Hnd | | exact Hmem].
      apply consecutive_NoDup. now apply (chain_acyclic_NoDup (edge s)).
Qed.

(** Witness for X20: the diamond of scenario 3, from its source. *)
Lemma X20_critical_path_keys_witness :
  exists p keys,
    getCriticalPath
      (mkDag [(1, [3; 2]); (2, [4]); (3, [4]); (4, [])]
             [(1, []); (2, [1]); (3, [1]); (4, [3; 2])] []
             [(1, mkTodo 1 1 0); (2, mkTodo 2 5 1); (3, mkTodo 3 2 1);
              (4, mkTodo 4 1 6)]) 1 = Ok p /\
    criticalPathEdges
      (mkDag [(1, [3; 2]); (2, [4]); (3, [4]); (4, [])]
             [(1, []); (2, [1]); (3, [1]); (4, [3; 2])] []
             [(1, mkTodo 1 1 0); (2, mkTodo 2 5 1); (3, mkTodo 3 2 1);
              (4, mkTodo 4 1 6)]) (Some 1) = Ok keys /\
    length keys = (length p - 1)%nat.
Proof.
  destruct (X20_critical_path_keys
              (mkDag [(1, [3; 2]); (2, [4]); (3, [4]); (4, [])]
                     [(1, []); (2, [1]); (3, [1]); (4, [3; 2])] []
                     [(1, mkTodo 1 1 0); (2, mkTodo 2 5 1); (3, mkTodo 3 2 1);
                      (4, mkTodo 4 1 6)])) as [_ [_ [_ H]]].
  - apply reachable_wf. exists DagCriticalPath.diamond. evaluate.
  - apply increasing_acyclic. evaluate.
  - destruct (H 1) as [p [keys [Hp [Hk [_ [_ [_ Hl]]]]]]]; [discriminate | evaluate |].
    exists p, keys. auto.
Defined.

End GraphView.

(** ** What the safe-target list guarantees, stale or not *)

Module SafeAdds.
Import Dag DagFacts DagScheduler.

(** Every cached list only holds ids from which its key cannot be
    reached (it may miss some: see the stale cache after [addTodo]). *)
Definition cacheSound (s : TodoDAG) : Prop :=
  forall p r, mget (safeTargetsCache s) p = Some r ->
    forall d, In d r -> ~ reach (edge s) d p.

(** Operations that can add an edge. *)
Definition addsEdges (o : Op) : bool :=
  match o with
  | AddDependency _ _ => true
  | Initialize _ => true
  | _ => false
  end.

Lemma cacheSound_empty s : safeTargetsCache s = [] -> cacheSound s.
Proof. intros H p r. rewrite H. discriminate. Qed.

Lemma cacheSound_same s s' :
  (forall a b, edge s' a b -> edge s a b) ->
  safeTargetsCache s' = safeTargetsCache s -> cacheSound s -> cacheSound s'.
Proof.
  intros He Hc Hs p r Hg d Hd Hreach. rewrite Hc in Hg.
  apply (Hs p r Hg d Hd). revert Hreach. now apply reach_ext.
Qed.

Lemma addTodo_edges s todo s' :
  addTodo s todo = Ok s' ->
  safeTargetsCache s' = safeTargetsCache s /\ forall a b, edge s' a b <-> edge s a b.
Proof.
  unfold addTodo. intros Hc.
  destruct (calculate_graph _ _ Hc) as [Ea [_ [Ec _]]].
  unfold addNode in Ea, Ec. simpl in Ea, Ec.
  destruct (mhas (adj s) (id todo)) eqn:Hhas; simpl in Ea, Ec.
  - split; [exact Ec|]. intros a b. unfold edge, getChildrenOf. now rewrite Ea.
  - split; [exact Ec|]. intros a b. unfold edge. rewrite !getChildrenOf_nb, Ea, nb_mset.
    destruct (id todo =? a) eqn:E; [|reflexivity].
    apply Z.eqb_eq in E. subst a. unfold nb.
    apply mhas_false, mget_None in Hhas. rewrite Hhas. reflexivity.
Qed.

(** Apart from [addDependency] and [initialize], no operation adds an edge. *)
Lemma step_edges s o s' :
  wf s -> addsEdges o = false -> step s o = Ok s' ->
  forall a b, edge s' a b -> edge s a b.
Proof.
  intros Hwf Ho Hstep a b. destruct o; try discriminate; simpl in Hstep.
  - now apply (addTodo_edges s todo s' Hstep).
  - destruct (deleteDependency_inv _ _ _ _ Hwf Hstep) as [-> | [_ [_ Hc]]]; [auto|].
    destruct (calculate_graph _ _ Hc) as [Ea _]. simpl in Ea.
    unfold edge. rewrite !getChildrenOf_nb, Ea, nb_mset.
    destruct (from =? a) eqn:E; [|auto].
    apply Z.eqb_eq in E. subst a. rewrite sdelete_In. tauto.
  - unfold deleteNode in Hstep. destruct (calculate_graph _ _ Hstep) as [Ea _].
    simpl in Ea. unfold edge. rewrite !getChildrenOf_nb, Ea, nb_sdeleteAll, nb_mdelete.
    destruct (node =? a); simpl; tauto.
  - destruct (getSafeTargets s from) as [[r s1]| |] eqn:E; simpl in Hstep; try discriminate.
    injection Hstep as <-. destruct (getSafeTargets_state _ _ _ _ E) as [c ->]. auto.
  - destruct (calculate_graph _ _ Hstep) as [Ea _].
    unfold edge, getChildrenOf. now rewrite Ea.
Qed.

Lemma getSafeTargets_sound s from r s' :
  wf s -> cacheSound s -> getSafeTargets s from = Ok (r, s') ->
  cacheSound s' /\ (forall a b, edge s' a b <-> edge s a b) /\
  forall d, In d r -> ~ reach (edge s) d from.
Proof.
  intros Hwf Hs. unfold getSafeTargets.
  destruct (mget (safeTargetsCache s) from) as [cached|] eqn:Ehit.
  - intros [= <- <-]. split; [assumption|]. split; [reflexivity | apply (Hs from cached Ehit)].
  - destruct (computeSafeTargets s from) as [safe| |] eqn:Ec; simpl; try discriminate.
    intros [= <- <-].
    assert (Hsafe : forall d, In d safe -> ~ reach (edge s) d from).
    { intros d Hd. now apply (computeSafeTargets_spec s from safe Hwf Ec d). }
    split; [|split; [reflexivity | exact Hsafe]].
    intros p r. simpl. rewrite mget_mset. destruct (from =? p) eqn:E.
    + apply Z.eqb_eq in E. subst p. intros [= <-]. exact Hsafe.
    + apply (Hs p r).
Qed.

(** X21. The lists offered by [getSafeTargets] stay safe even when
    they are stale.  Call the cache sound when no cached list holds an id
    from which its key can be reached.  Every public operation keeps the
    cache sound ([addTodo] included, which only makes cached lists miss
    the new todo).  On an acyclic reachable state with a sound cache,
    adding a dependency from [p] to any id returned by [getSafeTargets p],
    cached or freshly computed, leaves the graph acyclic; and no operation
    other than [addDependency] and [initialize] can make an acyclic graph
    cyclic. *)
Theorem X21_offered_targets_stay_safe (s : TodoDAG)
    (Hwf : wf s) (Hsound : cacheSound s) :
  (forall o s', step s o = Ok s' -> cacheSound s') /\
  (acyclic (edge s) ->
     (forall p d r s1, getSafeTargets s p = Ok (r, s1) -> In d r ->
        exists b s', addDependency s1 p d = Ok (b, s') /\ acyclic (edge s')) /\
     (forall o s', addsEdges o = false -> step s o = Ok s' -> acyclic (edge s'))).
Proof.
  split; [|intros Hac; split].
  - intros o s' Hstep. destruct o; simpl in Hstep.
    + destruct (addTodo_edges s todo s' Hstep) as [Hc He].
      apply (cacheSound_same s s'); [intros a b; apply He | exact Hc | exact Hsound].
    + destruct (addDependency s from to) as [[b s1]| |] eqn:E; simpl in Hstep;
        try discriminate.
      injection Hstep as <-.
      destruct (addDependency_inv _ _ _ _ _ E) as [[_ [-> _]] | [_ [_ [_ [-> _]]]]];
        [assumption | now apply cacheSound_empty].
    + destruct (deleteDependency_inv _ _ _ _ Hwf Hstep) as [-> | [_ [_ Hc]]];
        [assumption|].
      apply cacheSound_empty. now destruct (calculate_graph _ _ Hc) as [_ [_ [-> _]]].
    + apply cacheSound_empty. unfold deleteNode in Hstep.
      now destruct (calculate_graph _ _ Hstep) as [_ [_ [-> _]]].
    + apply cacheSound_empty. now apply (DagOperations.initialize_cache todos).
    + destruct (getSafeTargets s from) as [[r s1]| |] eqn:E; simpl in Hstep;
        try discriminate.
      injection Hstep as <-. now destruct (getSafeTargets_sound s from r s1 Hwf Hsound E).
    + destruct (calculate_graph _ _ Hstep) as [Ea [_ [Ec _]]].
      apply (cacheSound_same s s'); [|exact Ec | exact Hsound].
      intros a b. unfold edge, getChildrenOf. now rewrite Ea.
  - intros p d r s1 Hget Hd.
    destruct (getSafeTargets_sound s p r s1 Hwf Hsound Hget) as [_ [He1 Hsafe]].
    specialize (Hsafe d Hd).
    assert (Hac1 : acyclic (edge s1)).
    { revert Hac. apply acyclic_ext. intros a b. apply He1. }
    assert (Hwf1 : wf s1).
    { eapply wf_getSafeTargets; eauto. }
    destruct (DagOperations.addDependency_total s1 p d Hwf1) as [b [s' [Hadd _]]].
    exists b, s'. split; [exact Hadd|].
    destruct (addDependency_inv _ _ _ _ _ Hadd) as [[_ [-> _]] | [_ [_ [_ [-> _]]]]];
      [exact Hac1|].
    set (s2 := mkDag _ _ _ _).
    assert (Hedge : forall a c, edge s2 a c <-> edge s a c \/ (a = p /\ c = d)).
    { intros a c. rewrite <- He1. unfold edge. rewrite !getChildrenOf_nb.
      subst s2. simpl. rewrite nb_mset.
      destruct (p =? a) eqn:E.
      - apply Z.eqb_eq in E. subst a. rewrite sadd_In. intuition congruence.
      - apply Z.eqb_neq in E. intuition congruence. }
    intros v [x [Hvx Hxv]].
    apply (reach_ext _ (fun x y => edge s x y \/ (x = p /\ y = d))) in Hxv;
      [|intros a c; apply Hedge].
    apply DagOperations.reach_added_edge in Hxv. apply Hedge in Hvx.
    destruct Hvx as [Hvx | [-> ->]].
    + destruct Hxv as [Hxv | [Hxp Hdv]].
      * apply (Hac v). exists x. auto.
      * apply Hsafe. eapply reach_trans; [exact Hdv|]. eapply reach_step; eauto.
    + destruct Hxv as [Hxv | [Hxv _]]; exact (Hsafe Hxv).
  - intros o s' Ho Hstep. revert Hac. apply acyclic_ext.
    now apply (step_edges s o s' Hwf Ho Hstep).
Qed.

(** Witness for X21: the stale cache of the state in which todo 2 was
    added after getSafeTargets(1) had been cached. *)
Lemma X21_offered_targets_stay_safe_witness :
  exists s', step (mkDag [(1, []); (2, [])] [(1, []); (2, [])] [(1, [])]
                     [(1, mkTodo 1 3 0); (2, mkTodo 2 5 0)])
               (AddTodo (mkTodo 3 1 0)) = Ok s' /\
    cacheSound s'.
Proof.
  eexists. split; [evaluate|].
  refine (proj1 (X21_offered_targets_stay_safe
                   (mkDag [(1, []); (2, [])] [(1, []); (2, [])] [(1, [])]
                      [(1, mkTodo 1 3 0); (2, mkTodo 2 5 0)]) _ _)
            (AddTodo (mkTodo 3 1 0)) _ _).
  - apply reachable_wf.
    exists [AddTodo (mkTodo 1 3 0); GetSafeTargets 1; AddTodo (mkTodo 2 5 0)]. evaluate.
  - intros p r. unfold safeTargetsCache, mget.
    destruct (1 =? p); [|discriminate]. intros [= <-] d [].
  - evaluate.
Defined.

End SafeAdds.

(** ** The critical-path search on a graph with a cycle *)

Section CyclicSearch.

Variable entriesOf : Z -> option (list (Z * Z)).

Let E (a b : Z) : Prop := In b (nbrsOf entriesOf a).

(** A cycle can be reached from [v]. *)
Definition reachesCycle (v : Z) : Prop := exists c, reach E v c /\ reachp E c c.

Definition cleanMemo (memo : Memo) : Prop :=
  forall k, In k (mkeys memo) -> ~ reachesCycle k.

(** What a call can do when started on a memo without such ids: it
    cannot return if a cycle is within reach, and otherwise whatever it
    returns leaves the memo without such ids. *)
Definition descends (rec : Z -> Memo -> result (PathResult * Memo)) : Prop :=
  forall v memo, cleanMemo memo ->
    rec v memo <> TypeError /\
    (reachesCycle v -> rec v memo = OutOfFuel) /\
    (forall r memo', rec v memo = Ok (r, memo') -> cleanMemo memo').

Lemma reachesCycle_step v : reachesCycle v -> exists n, E v n /\ reachesCycle n.
Proof.
  intros [c [Hvc Hc]]. destruct Hvc as [v | v b c Hvb Hbc].
  - destruct Hc as [b [Hvb Hbv]]. exists b. split; [assumption|].
    exists v. split; [assumption|]. exists b. auto.
  - exists b. split; [assumption|]. exists c. auto.
Qed.

Lemma cleanMemo_mset memo v r :
  cleanMemo memo -> ~ reachesCycle v -> cleanMemo (mset memo v r).
Proof.
  intros Hm Hv k Hk. apply mkeys_mset_In in Hk. destruct Hk as [-> | Hk]; auto.
Qed.

Lemma maxLoop_descends rec :
  descends rec ->
  forall entries maxWeight bestPath memo, cleanMemo memo ->
    maxLoop rec entries maxWeight bestPath memo <> TypeError /\
    ((exists n, In n (map fst entries) /\ reachesCycle n) ->
       maxLoop rec entries maxWeight bestPath memo = OutOfFuel) /\
    (forall w p memo', maxLoop rec entries maxWeight bestPath memo = Ok (w, p, memo') ->
       cleanMemo memo').
Proof.
  intros Hrec. induction entries as [|[n x] rest IH]; intros mw bp memo Hm.
  - simpl. split; [discriminate|]. split; [intros [n [[] _]]|]. now intros w p memo' [= _ _ <-].
  - cbn [maxLoop]. destruct (Hrec n memo Hm) as [Hnt [Hbad Hclean]].
    destruct (rec n memo) as [[r m1]| |] eqn:Er; [|congruence|].
    + cbn [bind fst snd]. specialize (Hclean r m1 eq_refl).
      assert (Hn : ~ reachesCycle n) by (intros H; specialize (Hbad H); discriminate).
      assert (Hrest : (exists k, In k (map fst ((n, x) :: rest)) /\ reachesCycle k) ->
                      exists k, In k (map fst rest) /\ reachesCycle k).
      { intros [k [[<- | Hk] Hb]]; [contradiction | eauto]. }
      destruct (wgt (wadd x (weight r)) mw).
      * destruct (IH (wadd x (weight r)) (path r) m1 Hclean) as [H1 [H2 H3]].
        split; [assumption|]. split; [intros H; apply H2, Hrest, H | assumption].
      * destruct (IH mw bp m1 Hclean) as [H1 [H2 H3]].
        split; [assumption|]. split; [intros H; apply H2, Hrest, H | assumption].
    + cbn [bind]. split; [discriminate|]. split; [reflexivity | discriminate].
Qed.

Lemma findMaxPath_descends fuel : descends (findMaxPath entriesOf fuel).
Proof.
  induction fuel as [|f IH]; intros v memo Hm.
  - cbn [findMaxPath]. destruct (mget memo v) as [r|] eqn:Eg.
    + split; [discriminate|]. split.
      * intros Hv. exfalso. apply (Hm v); [eapply mget_Some_keys; eauto | assumption].
      * now intros r0 memo' [= _ <-].
    + assert (Hleaf : nbrsOf entriesOf v = [] -> ~ reachesCycle v).
      { intros Hnil Hv. destruct (reachesCycle_step v Hv) as [n [Hn _]].
        unfold E in Hn. rewrite Hnil in Hn. destruct Hn. }
      unfold nbrsOf in Hleaf.
      destruct (entriesOf v) as [[|e es]|].
      * split; [discriminate|]. split.
        -- intros Hv. exfalso. now apply Hleaf.
        -- intros r0 memo' [= _ <-]. apply cleanMemo_mset; auto.
      * split; [discriminate|]. split; [reflexivity | discriminate].
      * split; [discriminate|]. split.
        -- intros Hv. exfalso. now apply Hleaf.
        -- intros r0 memo' [= _ <-]. apply cleanMemo_mset; auto.
  - cbn [findMaxPath]. destruct (mget memo v) as [r|] eqn:Eg.
    + split; [discriminate|]. split.
      * intros Hv. exfalso. apply (Hm v); [eapply mget_Some_keys; eauto | assumption].
      * now intros r0 memo' [= _ <-].
    + assert (Hleaf : nbrsOf entriesOf v = [] -> ~ reachesCycle v).
      { intros Hnil Hv. destruct (reachesCycle_step v Hv) as [n [Hn _]].
        unfold E in Hn. rewrite Hnil in Hn. destruct Hn. }
      assert (Hnb : forall es, entriesOf v = Some es -> nbrsOf entriesOf v = map fst es).
      { intros es He. unfold nbrsOf. now rewrite He. }
      unfold nbrsOf in Hleaf.
      destruct (entriesOf v) as [[|e es]|] eqn:Ev.
      * split; [discriminate|]. split.
        -- intros Hv. exfalso. now apply Hleaf.
        -- intros r0 memo' [= _ <-]. apply cleanMemo_mset; auto.
      * destruct (maxLoop_descends _ IH (e :: es) NegInf [] memo Hm) as [H1 [H2 H3]].
        assert (Hbad : reachesCycle v ->
                  maxLoop (findMaxPath entriesOf f) (e :: es) NegInf [] memo = OutOfFuel).
        { intros Hv. apply H2. destruct (reachesCycle_step v Hv) as [n [Hn Hb]].
          exists n. split; [|assumption]. unfold E in Hn. now rewrite (Hnb _ eq_refl) in Hn. }
        destruct (maxLoop (findMaxPath entriesOf f) (e :: es) NegInf [] memo)
          as [[[w p] m1]| |] eqn:El; [|congruence|].
        -- cbn [bind]. split; [discriminate|]. split.
           ++ intros Hv. specialize (Hbad Hv). discriminate.
           ++ intros r0 memo' [= _ <-]. apply cleanMemo_mset; [eapply H3; eauto|].
              intros Hv. specialize (Hbad Hv). discriminate.
        -- cbn [bind]. split; [discriminate|]. split; [reflexivity | discriminate].
      * split; [discriminate|]. split.
        -- intros Hv. exfalso. now apply Hleaf.
        -- intros r0 memo' [= _ <-]. apply cleanMemo_mset; auto.
Qed.

(** With a cycle within reach the search returns at no depth bound. *)
Lemma findMaxPath_diverges root :
  reachesCycle root -> forall fuel, findMaxPath entriesOf fuel root [] = OutOfFuel.
Proof.
  intros Hroot fuel. apply (findMaxPath_descends fuel root []); [|assumption].
  intros k [].
Qed.

End CyclicSearch.

Module CyclicCriticalPath.

(** X22. When a cycle can be reached from [root] along forward edges
    (addDependency and initialize can build one), [getCriticalPath root]
    returns no path, in dag.ts and in the weighted revision alike: the
    recursion of findMaxPath descends without end, whatever bound is put
    on the depth of the call stack; the memo never stops it, since a node
    is memoised only when its call returns. *)
Theorem X22_critical_path_needs_acyclic :
  (forall (s : Dag.TodoDAG) (root : Z),
     Dag.hasTodo s root = true ->
     (exists c, reach (Dag.edge s) root c /\ reachp (Dag.edge s) c c) ->
     (forall fuel, findMaxPath (Dag.entriesOf s) fuel root [] = OutOfFuel) /\
     Dag.getCriticalPath s root = OutOfFuel) /\
  (forall (w : Weighted.TodoDAG) (root : Z),
     Weighted.hasTodo w root = true ->
     (exists c, reach (Weighted.edge w) root c /\ reachp (Weighted.edge w) c c) ->
     (forall fuel, findMaxPath (Weighted.entriesOf w) fuel root [] = OutOfFuel) /\
     Weighted.getCriticalPath w root = OutOfFuel).
Proof.
  split.
  - intros s root Hroot [c [Hrc Hc]].
    assert (Hbad : reachesCycle (Dag.entriesOf s) root).
    { exists c. split.
      - revert Hrc. apply reach_ext. intros a b.
        now rewrite DagCriticalPath.nbrsOf_entriesOf.
      - destruct Hc as [b [Hcb Hbc]]. exists b.
        split; [now rewrite DagCriticalPath.nbrsOf_entriesOf|].
        revert Hbc. apply reach_ext. intros x y.
        now rewrite DagCriticalPath.nbrsOf_entriesOf. }
    split; [now apply findMaxPath_diverges|].
    unfold Dag.getCriticalPath. unfold Dag.hasTodo in Hroot. rewrite Hroot. cbn [negb].
    now rewrite (findMaxPath_diverges (Dag.entriesOf s) root Hbad).
  - intros w root Hroot [c [Hrc Hc]].
    assert (Hbad : reachesCycle (Weighted.entriesOf w) root) by (exists c; auto).
    split; [now apply findMaxPath_diverges|].
    unfold Weighted.getCriticalPath. unfold Weighted.hasTodo in Hroot.
    rewrite Hroot. cbn [negb].
    now rewrite (findMaxPath_diverges (Weighted.entriesOf w) root Hbad).
Qed.

(** Witness for X22: the two-cycle 1 → 2 → 1. *)
Lemma X22_critical_path_needs_acyclic_witness :
  Dag.getCriticalPath
    (Dag.mkDag [(1, [2]); (2, [1])] [(1, [2]); (2, [1])] []
       [(1, Dag.mkTodo 1 3 0); (2, Dag.mkTodo 2 5 0)]) 1 = OutOfFuel.
Proof.
  apply (proj1 X22_critical_path_needs_acyclic); [evaluate|].
  exists 1. split; [apply reach_refl|].
  exists 2. split; [unfold Dag.edge; vm_compute; auto|].
  eapply reach_step; [|apply reach_refl]. unfold Dag.edge. vm_compute. auto.
Defined.

End CyclicCriticalPath.
